(** * DNA repeat finder: the suffix-tree engine of [DNA_Repeat_Finder.py]

    A shallow embedding of [DNARepeatFinder.SuffixTree]: the online
    construction [build_suffix_tree] and the traversal [find_repeats].

    Python objects are references.  Nodes live in a store (a list of
    records addressed by position), node-valued variables and fields hold
    positions in it, and every assignment to a field rewrites the store.
    A [dict] is an association list in insertion order.  Integers are [Z];
    indexing a [str] follows Python (negative indices count from the end,
    anything else out of range raises [IndexError]).  The interpreter's
    recursion limit is not part of the model. *)

From Stdlib Require Import ZArith Ascii String Lia Sorted.
From stdpp Require Import base list strings.

Local Open Scope Z_scope.

(** ** Outcomes of running a piece of code *)

Inductive exn := IndexError | KeyError | Dangling.

Inductive result (A : Type) : Type :=
| Ok (a : A)
| Raise (e : exn)
| OutOfFuel.

Arguments Ok {A} a.
Arguments Raise {A} e.
Arguments OutOfFuel {A}.

#[global] Instance result_bind : MBind result := fun A B k m =>
  match m with
  | Ok a => k a
  | Raise e => Raise e
  | OutOfFuel => OutOfFuel
  end.

(** ** Python strings and dictionaries *)

Abbreviation str := (list ascii).

Definition len {A} (l : list A) : Z := Z.of_nat (length l).

(** [text[k]] *)
Definition py_index (text : str) (k : Z) : result ascii :=
  let k' := if k <? 0 then k + len text else k in
  if (k' <? 0) || (len text <=? k') then Raise IndexError
  else match text !! Z.to_nat k' with
       | Some c => Ok c
       | None => Raise IndexError
       end.

(** A slice bound, as Python normalises it. *)
Definition clamp (n k : Z) : Z :=
  if k <? 0 then Z.max (k + n) 0 else Z.min k n.

(** [text[a:b]] *)
Definition py_slice (text : str) (a b : Z) : str :=
  let a' := clamp (len text) a in
  let b' := clamp (len text) b in
  take (Z.to_nat (b' - a')) (drop (Z.to_nat a') text).

Abbreviation dict V := (list (ascii * V)).

(** [k in d], [d[k]] *)
Fixpoint dict_get {V} (d : dict V) (k : ascii) : option V :=
  match d with
  | [] => None
  | (k', v) :: d' => if Ascii.eqb k' k then Some v else dict_get d' k
  end.

(** [d[k] = v]: an existing key keeps its place, a new one goes last. *)
Fixpoint dict_set {V} (d : dict V) (k : ascii) (v : V) : dict V :=
  match d with
  | [] => [(k, v)]
  | (k', v') :: d' =>
      if Ascii.eqb k' k then (k', v) :: d' else (k', v') :: dict_set d' k v
  end.

Definition values {V} (d : dict V) : list V := map snd d.

(** ** Nodes and the store *)

Record SuffixTreeNode := mkNode {
  children : dict nat;
  start : Z;
  end_ : Z;
  suffix_link : option nat
}.

Abbreviation store := (list SuffixTreeNode).

(** [SuffixTreeNode(start, end)] *)
Definition new_node (s e : Z) : SuffixTreeNode :=
  {| children := []; start := s; end_ := e; suffix_link := None |}.

Definition root : nat := 0%nat.

Definition deref (h : store) (p : nat) : result SuffixTreeNode :=
  match h !! p with
  | Some nd => Ok nd
  | None => Raise Dangling
  end.

Definition alloc (h : store) (nd : SuffixTreeNode) : store * nat :=
  (h ++ [nd], length h).

Definition set_child (h : store) (p : nat) (c : ascii) (q : nat) : store :=
  match h !! p with
  | Some nd =>
      <[p := {| children := dict_set (children nd) c q; start := start nd;
                end_ := end_ nd; suffix_link := suffix_link nd |}]> h
  | None => h
  end.

Definition set_start (h : store) (p : nat) (s : Z) : store :=
  match h !! p with
  | Some nd =>
      <[p := {| children := children nd; start := s;
                end_ := end_ nd; suffix_link := suffix_link nd |}]> h
  | None => h
  end.

Definition set_suffix_link (h : store) (p : nat) (q : nat) : store :=
  match h !! p with
  | Some nd =>
      <[p := {| children := children nd; start := start nd;
                end_ := end_ nd; suffix_link := Some q |}]> h
  | None => h
  end.

(** ** Construction: [build_suffix_tree] *)

Record build_state := mkState {
  heap : store;
  active_node : nat;
  active_edge : Z;
  active_length : Z;
  remainder : Z;
  last_new_node : option nat
}.

(** How one pass through the body of the [while] loop ends. *)
Inductive ctl := Next | Brk.

(** [if last_new_node: last_new_node.suffix_link = target] *)
Definition resolve_link (h : store) (lnn : option nat) (target : nat) : store :=
  match lnn with
  | Some l => set_suffix_link h l target
  | None => h
  end.

(** Lines 74-80: the end of a pass that did not [continue] or [break]. *)
Definition next_suffix (i : Z) (h : store) (an : nat) (ae al rem : Z)
    (lnn : option nat) : result (ctl * build_state) :=
  let rem := rem - 1 in
  if (an =? root)%nat && (al >? 0) then
    Ok (Next, mkState h an (i - rem + 1) (al - 1) rem lnn)
  else
    nd ← deref h an;
    let an' := match suffix_link nd with Some l => l | None => root end in
    Ok (Next, mkState h an' ae al rem lnn).

(** Lines 34-80: one pass through the body of [while remainder > 0]. *)
Definition extend (text : str) (n i : Z) (s : build_state)
    : result (ctl * build_state) :=
  let h := heap s in
  let an := active_node s in
  let al := active_length s in
  let rem := remainder s in
  let lnn := last_new_node s in
  let ae := if al =? 0 then i else active_edge s in
  c ← py_index text ae;
  a ← deref h an;
  match dict_get (children a) c with
  | None =>
      let (h, leaf) := alloc h (new_node i n) in
      let h := set_child h an c leaf in
      let h := resolve_link h lnn an in
      next_suffix i h an ae al rem None
  | Some next_node =>
      nx ← deref h next_node;
      let edge_length := end_ nx - start nx in
      if al >=? edge_length then
        Ok (Next, mkState h next_node (ae + edge_length) (al - edge_length)
                          rem lnn)
      else
        c1 ← py_index text (start nx + al);
        ci ← py_index text i;
        if Ascii.eqb c1 ci then
          let h := resolve_link h lnn an in
          Ok (Brk, mkState h an ae (al + 1) rem None)
        else
          let (h, split_node) := alloc h (new_node (start nx) (start nx + al)) in
          let h := set_child h an c split_node in
          let (h, leaf) := alloc h (new_node i n) in
          let h := set_child h split_node ci leaf in
          let h := set_start h next_node (start nx + al) in
          c2 ← py_index text (start nx + al);
          let h := set_child h split_node c2 next_node in
          let h := resolve_link h lnn split_node in
          next_suffix i h an ae al rem (Some split_node)
  end.

(** [while remainder > 0: ...] *)
Fixpoint while_loop (fuel : nat) (text : str) (n i : Z) (s : build_state)
    : result build_state :=
  if remainder s >? 0 then
    match fuel with
    | O => OutOfFuel
    | S fuel' =>
        r ← extend text n i s;
        match r with
        | (Brk, s') => Ok s'
        | (Next, s') => while_loop fuel' text n i s'
        end
    end
  else Ok s.

(** One round of [for i in range(n)]. *)
Definition phase (fuel : nat) (text : str) (n : Z) (s : build_state) (i : Z)
    : result build_state :=
  while_loop fuel text n i
    (mkState (heap s) (active_node s) (active_edge s) (active_length s)
             (remainder s + 1) None).

Fixpoint for_range (fuel : nat) (text : str) (n : Z) (s : build_state)
    (todo : nat) (i : Z) : result build_state :=
  match todo with
  | O => Ok s
  | S todo' =>
      s1 ← phase fuel text n s i;
      for_range fuel text n s1 todo' (i + 1)
  end.

Definition build_suffix_tree (fuel : nat) (text : str) (h : store)
    : result store :=
  let n := len text in
  s ← for_range fuel text n (mkState h root (-1) 0 0 None) (length text) 0;
  Ok (heap s).

Record SuffixTree := mkTree {
  text : str;
  nodes : store
}.

Definition sentinel : ascii := "$"%char.

(** [SuffixTree(text)] *)
Definition SuffixTree_init (fuel : nat) (S : str) : result SuffixTree :=
  let text := S ++ [sentinel] in
  h ← build_suffix_tree fuel text [new_node (-1) (-1)];
  Ok (mkTree text h).

(** ** Traversal: [find_repeats] *)

Abbreviation range := (Z * Z)%type.

(** [for x in l: acc = body(acc, x)], stopping at the first failure. *)
Fixpoint for_each {A B} (l : list A) (acc : B) (body : B -> A -> result B)
    : result B :=
  match l with
  | [] => Ok acc
  | x :: l' => acc1 ← body acc x; for_each l' acc1 body
  end.

(** Lines 91-95: what the inner loop of [dfs] does for one child. *)
Definition record_child (h : store) (current_string : str)
    (repeats : list range) (child : nat) : result (list range) :=
  ch ← deref h child;
  if end_ ch - start ch >? 0 then
    let start_pos := start ch - len current_string in
    let end_pos := start ch + end_ ch - start ch - 1 in
    if end_pos >? start_pos then Ok (repeats ++ [(start_pos, end_pos)])
    else Ok repeats
  else Ok repeats.

(** Lines 86-98.  [repeats] is the list the closure appends to. *)
Fixpoint dfs (fuel : nat) (text : str) (h : store) (node : nat)
    (current_string : str) (repeats : list range) : result (list range) :=
  match fuel with
  | O => OutOfFuel
  | S fuel' =>
      nd ← deref h node;
      repeats1 ←
        (if (len (children nd) >? 1) && negb (node =? root)%nat then
           for_each (values (children nd)) repeats
                    (record_child h current_string)
         else Ok repeats);
      for_each (children nd) repeats1 (fun acc item =>
        let child := snd item in
        ch ← deref h child;
        let edge_length := end_ ch - start ch in
        dfs fuel' text h child
            (current_string ++ py_slice text (start ch) (start ch + edge_length))
            acc)
  end.

(** Python compares tuples lexicographically. *)
Definition tuple_ltb (x y : range) : bool :=
  (fst x <? fst y) || ((fst x =? fst y) && (snd x <? snd y)).

Fixpoint sort_insert (x : range) (l : list range) : list range :=
  match l with
  | [] => [x]
  | y :: l' => if tuple_ltb y x then y :: sort_insert x l' else x :: l
  end.

(** [l.sort()]: a stable sort that only asks [<]. *)
Definition py_sort (l : list range) : list range := foldr sort_insert [] l.

(** [list(set(l))].  Python leaves the order of a set open; here one copy
    of each element is kept, in the order of the list.  [find_repeats]
    sorts the list right away, so the order chosen here cannot be seen in
    its result. *)
Definition list_set (l : list range) : list range := remove_dups l.

(** The result of [find_repeats]: [None] is Python's [None]. *)
Definition find_repeats (fuel : nat) (t : SuffixTree)
    : result (option (list range)) :=
  repeats ← dfs fuel (text t) (nodes t) root [] [];
  let repeats := py_sort (list_set repeats) in
  Ok (match repeats with [] => None | _ => Some repeats end).

(** [SuffixTree(S).find_repeats()] *)
Definition run (fuel : nat) (S : str) : result (option (list range)) :=
  t ← SuffixTree_init fuel S;
  find_repeats fuel t.

Definition dna (s : string) : str := list_ascii_of_string s.

(** ** Input sequences *)

Definition nucleotide (c : ascii) : Prop :=
  c = "A"%char \/ c = "C"%char \/ c = "G"%char \/ c = "T"%char.

(** What [validate_dna_strings] lets through: [[ACGT]+]. *)
Definition valid_dna (S : str) : Prop := S <> [] /\ Forall nucleotide S.

(** ** Reading the tree: the strings spelled from the root to the leaves

    [leaf_labels] is not part of the program.  It walks the finished tree
    the way [dfs] does, joining the slices [text[child.start:child.end]]
    along the way, and returns the string of every leaf it reaches. *)

Fixpoint leaf_labels (fuel : nat) (text : str) (h : store) (node : nat)
    (label : str) : result (list str) :=
  match fuel with
  | O => OutOfFuel
  | S fuel' =>
      nd ← deref h node;
      match children nd with
      | [] => Ok [label]
      | items =>
          for_each items [] (fun acc item =>
            ls ← (ch ← deref h (snd item);
                  leaf_labels fuel' text h (snd item)
                    (label ++ py_slice text (start ch) (end_ ch)));
            Ok (acc ++ ls))
      end
  end.

(** ** The brute-force oracle of the specification

    Written from the words of the specification, not from the code: every
    range [(i, j)] whose substring occurs at two or more positions of the
    sequence, kept only when the range cannot be extended by one symbol
    on either side and still be repeated. *)

Definition substring (S : str) (i j : nat) : str :=
  take (j + 1 - i) (drop i S).

Definition occurs_at (S w : str) (k : nat) : bool :=
  bool_decide (take (length w) (drop k S) = w).

Definition count_occurrences (S w : str) : nat :=
  length (List.filter (occurs_at S w) (seq 0 (length S))).

Definition repeated (S : str) (i j : nat) : bool :=
  (2 <=? count_occurrences S (substring S i j))%nat.

Definition extendable (S : str) (i j : nat) : bool :=
  match i with
  | O => false
  | Datatypes.S i' => repeated S i' j
  end || ((j + 1 <? length S)%nat && repeated S i (j + 1)).

Definition brute_force (S : str) : list range :=
  i ← seq 0 (length S);
  j ← seq 0 (length S);
  if (i <=? j)%nat && repeated S i j && negb (extendable S i j)
  then [(Z.of_nat i, Z.of_nat j)] else [].

(** ** Fuel

    Fuel bounds the passes of one [while] loop and the depth of [dfs]; it is
    not part of the program.  An outcome other than [OutOfFuel] does not
    change when more fuel is given. *)

Definition finished {A} (r : result A) : Prop := r <> OutOfFuel.

Lemma bind_finished {A B} (m : result A) (k : A -> result B) :
  finished (m ≫= k) -> finished m.
Proof. destruct m; cbn; unfold finished; congruence. Qed.

Lemma while_loop_mono fuel fuel' text n i s :
  (fuel <= fuel')%nat ->
  finished (while_loop fuel text n i s) ->
  while_loop fuel' text n i s = while_loop fuel text n i s.
Proof.
  revert fuel' s. induction fuel as [|fuel IH]; intros fuel' s Hle Hfin.
  - unfold finished in *. cbn in *.
    destruct (remainder s >? 0) eqn:E; [done|].
    destruct fuel'; cbn; by rewrite E.
  - destruct fuel' as [|fuel']; [lia|]. cbn in *.
    destruct (remainder s >? 0); [|done].
    destruct (extend text n i s) as [[[] s']| |]; cbn in *; try done.
    apply IH; [lia|done].
Qed.

Lemma for_range_mono fuel fuel' text n s todo i :
  (fuel <= fuel')%nat ->
  finished (for_range fuel text n s todo i) ->
  for_range fuel' text n s todo i = for_range fuel text n s todo i.
Proof.
  intros Hle. revert s i. induction todo as [|todo IH]; intros s i Hfin; [done|].
  cbn in *. unfold phase in *.
  rewrite (while_loop_mono fuel fuel'); [|done|by eapply bind_finished].
  destruct (while_loop fuel _ _ _ _) as [s1| |]; cbn in *; try done.
  by apply IH.
Qed.

Lemma SuffixTree_init_mono fuel fuel' S :
  (fuel <= fuel')%nat ->
  finished (SuffixTree_init fuel S) ->
  SuffixTree_init fuel' S = SuffixTree_init fuel S.
Proof.
  intros Hle Hfin. unfold SuffixTree_init, build_suffix_tree in *.
  rewrite (for_range_mono fuel fuel'); [done|done|].
  apply bind_finished in Hfin. by apply bind_finished in Hfin.
Qed.

Lemma for_each_ext {A B} (l : list A) (acc : B) (f g : B -> A -> result B) :
  finished (for_each l acc f) ->
  (forall a x, finished (f a x) -> g a x = f a x) ->
  for_each l acc g = for_each l acc f.
Proof.
  revert acc. induction l as [|x l IH]; intros acc Hfin Hfg; [done|].
  cbn in *. rewrite Hfg; [|by eapply bind_finished].
  destruct (f acc x); cbn in *; try done. by apply IH.
Qed.

Lemma dfs_mono fuel fuel' text h node cs repeats :
  (fuel <= fuel')%nat ->
  finished (dfs fuel text h node cs repeats) ->
  dfs fuel' text h node cs repeats = dfs fuel text h node cs repeats.
Proof.
  revert fuel' node cs repeats.
  induction fuel as [|fuel IH]; intros fuel' node cs repeats Hle Hfin.
  - by unfold finished in *.
  - destruct fuel' as [|fuel']; [lia|]. cbn in *.
    destruct (deref h node) as [nd| |]; cbn in *; try done.
    match goal with |- context [if ?b then _ else _] => destruct b end.
    + destruct (for_each (values _) _ _) as [r1| |]; cbn in *; try done.
      apply for_each_ext; [done|]. intros a x Hf.
      destruct (deref h x.2); cbn in *; try done. apply IH; [lia|done].
    + cbn in *. apply for_each_ext; [done|]. intros a x Hf.
      destruct (deref h x.2); cbn in *; try done. apply IH; [lia|done].
Qed.

Lemma run_mono fuel fuel' S :
  (fuel <= fuel')%nat ->
  finished (run fuel S) ->
  run fuel' S = run fuel S.
Proof.
  intros Hle Hfin. unfold run in *.
  rewrite (SuffixTree_init_mono fuel fuel'); [|done|by eapply bind_finished].
  destruct (SuffixTree_init fuel S) as [t| |]; cbn in *; try done.
  unfold find_repeats in *.
  rewrite (dfs_mono fuel fuel'); [done|done|by eapply bind_finished].
Qed.

(** ** What [dfs] appends *)

Lemma for_each_inv {A B} (I : B -> Prop) (l : list A) (acc : B)
    (body : B -> A -> result B) (r : B) :
  I acc ->
  (forall a x a', I a -> x ∈ l -> body a x = Ok a' -> I a') ->
  for_each l acc body = Ok r -> I r.
Proof.
  revert acc. induction l as [|x l IH]; intros acc Hacc Hbody Hrun; cbn in *.
  - by inversion Hrun; subst.
  - destruct (body acc x) as [a1| |] eqn:E; cbn in *; try done.
    eapply (IH a1); [| |done].
    + eapply Hbody; [done| |done]. by left.
    + intros a y a' Ha Hy. eapply Hbody; [done|]. by right.
Qed.

(** The inner loop of [dfs] appends, for a child with a non-empty edge,
    the pair (child.start - len(current_string), child.end - 1), and only
    when the second component is the larger. *)
Lemma record_child_spec h cs repeats child r :
  record_child h cs repeats child = Ok r ->
  r = repeats \/
  exists ch, h !! child = Some ch /\ end_ ch - start ch > 0 /\
             end_ ch - 1 > start ch - len cs /\
             r = repeats ++ [(start ch - len cs, end_ ch - 1)].
Proof.
  unfold record_child, deref. destruct (h !! child) as [ch|]; cbn; [|done].
  destruct (end_ ch - start ch >? 0) eqn:E1; [|by inversion 1; left].
  destruct (start ch + end_ ch - start ch - 1 >? start ch - len cs) eqn:E2;
    [|by inversion 1; left].
  inversion 1; subst. right. exists ch. split; [done|].
  split; [lia|]. split; [lia|]. do 3 f_equal. lia.
Qed.

Lemma dfs_inv (P : range -> Prop) fuel text h node cs repeats r :
  (forall child ch, h !! child = Some ch -> end_ ch - start ch > 0 ->
     forall L, end_ ch - 1 > start ch - L -> P (start ch - L, end_ ch - 1)) ->
  Forall P repeats ->
  dfs fuel text h node cs repeats = Ok r ->
  Forall P r.
Proof.
  intros HP. revert node cs repeats r.
  induction fuel as [|fuel IH]; intros node cs repeats r Hrep Hrun; [done|].
  cbn in Hrun. destruct (deref h node) as [nd| |]; cbn in Hrun; try done.
  match type of Hrun with context [if ?b then _ else _] => destruct b end.
  - destruct (for_each (values _) _ _) as [r1| |] eqn:E1; cbn in Hrun; try done.
    assert (Forall P r1) as Hr1.
    { eapply (for_each_inv (Forall P)); [exact Hrep| |exact E1].
      intros a x a' Ha _ Hx. apply record_child_spec in Hx.
      destruct Hx as [->|(ch & Hch & Hlen & Hgt & ->)]; [done|].
      apply Forall_app. split; [done|]. constructor; [|done]. by eapply HP. }
    eapply (for_each_inv (Forall P)); [exact Hr1| |exact Hrun].
    intros a x a' Ha _ Hx. cbn in Hx.
    destruct (deref h x.2); cbn in Hx; try done. by eapply IH.
  - cbn in Hrun. eapply (for_each_inv (Forall P)); [exact Hrep| |exact Hrun].
    intros a x a' Ha _ Hx. cbn in Hx.
    destruct (deref h x.2); cbn in Hx; try done. by eapply IH.
Qed.

(** ** Sorting and removing duplicates *)

Definition lex_lt (x y : range) : Prop :=
  fst x < fst y \/ (fst x = fst y /\ snd x < snd y).

Definition lex_le (x y : range) : Prop :=
  fst x < fst y \/ (fst x = fst y /\ snd x <= snd y).

Lemma tuple_ltb_spec x y : tuple_ltb x y = true <-> lex_lt x y.
Proof. unfold tuple_ltb, lex_lt. destruct x, y; cbn. lia. Qed.

Lemma tuple_ltb_false x y : tuple_ltb x y = false <-> lex_le y x.
Proof. unfold tuple_ltb, lex_le. destruct x, y; cbn. lia. Qed.

Lemma lex_le_trans x y z : lex_le x y -> lex_le y z -> lex_le x z.
Proof. unfold lex_le. destruct x, y, z; cbn. lia. Qed.

Lemma lex_lt_le x y : lex_lt x y -> lex_le x y.
Proof. unfold lex_le, lex_lt. lia. Qed.

Lemma lex_le_neq x y : lex_le x y -> x <> y -> lex_lt x y.
Proof.
  unfold lex_le, lex_lt. destruct x as [a b], y as [c d]; cbn.
  intros H Hne. assert (a <> c \/ b <> d) by (destruct (decide (a = c)); [right|left]; congruence).
  lia.
Qed.

Lemma sort_insert_perm x l : sort_insert x l ≡ₚ x :: l.
Proof.
  induction l as [|y l IH]; cbn; [done|].
  destruct (tuple_ltb y x); [|done]. rewrite IH. apply Permutation_swap.
Qed.

Lemma py_sort_perm l : py_sort l ≡ₚ l.
Proof.
  induction l as [|x l IH]; cbn; [done|].
  rewrite sort_insert_perm. by rewrite IH.
Qed.

Lemma sort_insert_sorted x l :
  StronglySorted lex_le l -> StronglySorted lex_le (sort_insert x l).
Proof.
  induction 1 as [|y l Hs IH Hall]; cbn.
  - repeat constructor.
  - destruct (tuple_ltb y x) eqn:E.
    + constructor; [done|]. rewrite sort_insert_perm.
      constructor; [|done]. apply lex_lt_le. by apply tuple_ltb_spec.
    + apply tuple_ltb_false in E. constructor; [by constructor|].
      constructor; [done|]. eapply Forall_impl; [exact Hall|].
      intros z Hz. by eapply lex_le_trans.
Qed.

Lemma py_sort_sorted l : StronglySorted lex_le (py_sort l).
Proof.
  induction l as [|x l IH]; cbn; [constructor|]. by apply sort_insert_sorted.
Qed.

Lemma list_set_NoDup l : NoDup (list_set l).
Proof. apply NoDup_remove_dups. Qed.

Lemma elem_of_sorted_set x l : x ∈ py_sort (list_set l) <-> x ∈ l.
Proof. rewrite py_sort_perm. unfold list_set. apply elem_of_remove_dups. Qed.

Lemma sorted_set_strict l : StronglySorted lex_lt (py_sort (list_set l)).
Proof.
  assert (NoDup (py_sort (list_set l))) as Hnd.
  { rewrite py_sort_perm. apply list_set_NoDup. }
  pose proof (py_sort_sorted (list_set l)) as Hs.
  induction Hs as [|x k Hs IH Hall]; [constructor|].
  apply NoDup_cons in Hnd as [Hx Hnd]. constructor; [by apply IH|].
  apply Forall_forall. intros y Hy. apply lex_le_neq.
  - by eapply Forall_forall in Hall.
  - intros ->. done.
Qed.

(** What [find_repeats] returns, in terms of what [dfs] collected. *)
Lemma find_repeats_spec fuel t res :
  find_repeats fuel t = Ok res ->
  exists repeats,
    dfs fuel (text t) (nodes t) root [] [] = Ok repeats /\
    match res with
    | None => py_sort (list_set repeats) = []
    | Some l => l = py_sort (list_set repeats) /\ l <> []
    end.
Proof.
  unfold find_repeats.
  destruct (dfs fuel _ _ _ _ _) as [repeats| |]; cbn; try done.
  intros H. exists repeats. split; [done|].
  destruct (py_sort (list_set repeats)); by inversion H; subst.
Qed.

Lemma run_spec fuel S res :
  run fuel S = Ok res ->
  exists t, SuffixTree_init fuel S = Ok t /\ find_repeats fuel t = Ok res.
Proof.
  unfold run. destruct (SuffixTree_init fuel S) as [t| |]; cbn; try done.
  intros H. by exists t.
Qed.

(** ** Dictionaries *)

Lemma eqb_ascii_decide (a b : ascii) : Ascii.eqb a b = bool_decide (a = b).
Proof.
  destruct (Ascii.eqb_spec a b) as [->|Hne].
  - by rewrite bool_decide_eq_true_2.
  - by rewrite bool_decide_eq_false_2.
Qed.

Lemma dict_get_set_eq {V} (d : dict V) k v : dict_get (dict_set d k v) k = Some v.
Proof.
  induction d as [|[k' v'] d IH]; cbn.
  - by rewrite Ascii.eqb_refl.
  - destruct (Ascii.eqb k' k) eqn:E; cbn; rewrite E; done.
Qed.

Lemma dict_get_set_ne {V} (d : dict V) k k' v :
  k <> k' -> dict_get (dict_set d k v) k' = dict_get d k'.
Proof.
  intros Hne. induction d as [|[k1 v1] d IH]; cbn.
  - destruct (Ascii.eqb_spec k k'); done.
  - destruct (Ascii.eqb_spec k1 k) as [->|Hk]; cbn.
    + destruct (Ascii.eqb_spec k k'); done.
    + destruct (Ascii.eqb_spec k1 k'); done.
Qed.

Lemma dict_set_keys {V} (d : dict V) k v :
  dict_get d k = None -> (dict_set d k v).*1 = d.*1 ++ [k].
Proof.
  induction d as [|[k1 v1] d IH]; cbn; [done|].
  destruct (Ascii.eqb k1 k); [done|]. intros H. cbn. by rewrite IH.
Qed.

Lemma dict_set_keys_same {V} (d : dict V) k v :
  is_Some (dict_get d k) -> (dict_set d k v).*1 = d.*1.
Proof.
  induction d as [|[k1 v1] d IH]; cbn; [by intros [? ?]|].
  destruct (Ascii.eqb k1 k); [done|]. intros H. cbn. by rewrite IH.
Qed.

Lemma dict_get_None_keys {V} (d : dict V) k :
  dict_get d k = None <-> k ∉ d.*1.
Proof.
  induction d as [|[k1 v1] d IH]; cbn.
  - split; [intros _; apply not_elem_of_nil|done].
  - rewrite not_elem_of_cons. destruct (Ascii.eqb_spec k1 k) as [->|Hk].
    + split; [done|]. intros [? _]. done.
    + rewrite IH. split; [intros ?; split; congruence|by intros [_ ?]].
Qed.

Lemma dict_set_NoDup {V} (d : dict V) k v :
  NoDup d.*1 -> NoDup (dict_set d k v).*1.
Proof.
  intros Hnd. destruct (dict_get d k) as [x|] eqn:E.
  - rewrite dict_set_keys_same; [done|by eexists].
  - rewrite dict_set_keys; [|done]. apply NoDup_app. split; [done|].
    split; [|apply NoDup_singleton].
    intros x Hx Hk. apply list_elem_of_singleton in Hk as ->.
    by apply dict_get_None_keys in E.
Qed.

Lemma dict_get_elem_of {V} (d : dict V) k v :
  dict_get d k = Some v -> (k, v) ∈ d.
Proof.
  induction d as [|[k1 v1] d IH]; cbn; [done|].
  destruct (Ascii.eqb_spec k1 k) as [->|Hk].
  - intros [= ->]. by left.
  - intros H. right. by apply IH.
Qed.

Lemma elem_of_dict_get {V} (d : dict V) k v :
  NoDup d.*1 -> (k, v) ∈ d -> dict_get d k = Some v.
Proof.
  induction d as [|[k1 v1] d IH]; cbn; intros Hnd Hin.
  - by apply elem_of_nil in Hin.
  - apply NoDup_cons in Hnd as [Hk1 Hnd].
    apply elem_of_cons in Hin as [[= -> ->]|Hin].
    + by rewrite Ascii.eqb_refl.
    + destruct (Ascii.eqb_spec k1 k) as [->|Hk]; [|by apply IH].
      destruct Hk1. apply list_elem_of_fmap. by exists (k, v).
Qed.

Lemma dict_set_not_nil {V} (d : dict V) k v : dict_set d k v <> [].
Proof. destruct d as [|[k1 v1] d]; cbn; [done|]. by destruct (Ascii.eqb k1 k). Qed.

(** ** Reading the store through a position *)

Definition node_at (h : store) (v : nat) : SuffixTreeNode :=
  default (new_node 0 0) (h !! v).

Definition kids (h : store) (v : nat) : dict nat := children (node_at h v).
Definition st (h : store) (v : nat) : Z := start (node_at h v).
Definition en (h : store) (v : nat) : Z := end_ (node_at h v).
Definition lnk (h : store) (v : nat) : option nat := suffix_link (node_at h v).

Lemma deref_node_at h v : (v < length h)%nat -> deref h v = Ok (node_at h v).
Proof.
  intros Hv. unfold deref, node_at.
  destruct (lookup_lt_is_Some_2 h v Hv) as [nd ->]. done.
Qed.

Lemma node_at_alloc h nd v :
  node_at (h ++ [nd]) v = if decide (v = length h) then nd else node_at h v.
Proof.
  unfold node_at. destruct (decide (v = length h)) as [->|Hne].
  - by rewrite list_lookup_middle.
  - destruct (decide (v < length h)%nat).
    + by rewrite lookup_app_l.
    + rewrite !lookup_ge_None_2; [done|lia|rewrite length_app; cbn; lia].
Qed.

Lemma length_alloc h (nd : SuffixTreeNode) : length (h ++ [nd]) = S (length h).
Proof. rewrite length_app. cbn. lia. Qed.

Lemma node_at_insert h p nd v :
  (p < length h)%nat ->
  node_at (<[p := nd]> h) v = if decide (v = p) then nd else node_at h v.
Proof.
  intros Hp. unfold node_at. destruct (decide (v = p)) as [->|Hne].
  - by rewrite list_lookup_insert_eq.
  - by rewrite list_lookup_insert_ne.
Qed.

Lemma set_child_insert h p c q :
  (p < length h)%nat ->
  set_child h p c q =
  <[p := mkNode (dict_set (kids h p) c q) (st h p) (en h p) (lnk h p)]> h.
Proof.
  intros Hp. unfold set_child, kids, st, en, lnk, node_at.
  destruct (lookup_lt_is_Some_2 h p Hp) as [nd ->]. done.
Qed.

Lemma set_start_insert h p s :
  (p < length h)%nat ->
  set_start h p s = <[p := mkNode (kids h p) s (en h p) (lnk h p)]> h.
Proof.
  intros Hp. unfold set_start, kids, st, en, lnk, node_at.
  destruct (lookup_lt_is_Some_2 h p Hp) as [nd ->]. done.
Qed.

Lemma set_suffix_link_insert h p q :
  (p < length h)%nat ->
  set_suffix_link h p q =
  <[p := mkNode (kids h p) (st h p) (en h p) (Some q)]> h.
Proof.
  intros Hp. unfold set_suffix_link, kids, st, en, lnk, node_at.
  destruct (lookup_lt_is_Some_2 h p Hp) as [nd ->]. done.
Qed.

Lemma length_set_child h p c q : length (set_child h p c q) = length h.
Proof. unfold set_child. destruct (h !! p); [apply length_insert|done]. Qed.

Lemma length_set_start h p s : length (set_start h p s) = length h.
Proof. unfold set_start. destruct (h !! p); [apply length_insert|done]. Qed.

Lemma length_set_suffix_link h p q : length (set_suffix_link h p q) = length h.
Proof. unfold set_suffix_link. destruct (h !! p); [apply length_insert|done]. Qed.

Lemma length_resolve_link h l t : length (resolve_link h l t) = length h.
Proof. destruct l; [apply length_set_suffix_link|done]. Qed.

(** The four fields after each of the four writes. *)

Section Fields.
Context (h : store) (p : nat) (Hp : (p < length h)%nat).

Lemma kids_set_child c q v :
  kids (set_child h p c q) v =
  if decide (v = p) then dict_set (kids h p) c q else kids h v.
Proof.
  unfold kids at 1. rewrite set_child_insert, node_at_insert by done.
  by destruct (decide (v = p)).
Qed.

Lemma st_set_child c q v : st (set_child h p c q) v = st h v.
Proof.
  unfold st at 1. rewrite set_child_insert, node_at_insert by done.
  by destruct (decide (v = p)) as [->|].
Qed.

Lemma en_set_child c q v : en (set_child h p c q) v = en h v.
Proof.
  unfold en at 1. rewrite set_child_insert, node_at_insert by done.
  by destruct (decide (v = p)) as [->|].
Qed.

Lemma lnk_set_child c q v : lnk (set_child h p c q) v = lnk h v.
Proof.
  unfold lnk at 1. rewrite set_child_insert, node_at_insert by done.
  by destruct (decide (v = p)) as [->|].
Qed.

Lemma kids_set_start s v : kids (set_start h p s) v = kids h v.
Proof.
  unfold kids at 1. rewrite set_start_insert, node_at_insert by done.
  by destruct (decide (v = p)) as [->|].
Qed.

Lemma st_set_start s v :
  st (set_start h p s) v = if decide (v = p) then s else st h v.
Proof.
  unfold st at 1. rewrite set_start_insert, node_at_insert by done.
  by destruct (decide (v = p)).
Qed.

Lemma en_set_start s v : en (set_start h p s) v = en h v.
Proof.
  unfold en at 1. rewrite set_start_insert, node_at_insert by done.
  by destruct (decide (v = p)) as [->|].
Qed.

Lemma lnk_set_start s v : lnk (set_start h p s) v = lnk h v.
Proof.
  unfold lnk at 1. rewrite set_start_insert, node_at_insert by done.
  by destruct (decide (v = p)) as [->|].
Qed.

Lemma kids_set_suffix_link q v : kids (set_suffix_link h p q) v = kids h v.
Proof.
  unfold kids at 1. rewrite set_suffix_link_insert, node_at_insert by done.
  by destruct (decide (v = p)) as [->|].
Qed.

Lemma st_set_suffix_link q v : st (set_suffix_link h p q) v = st h v.
Proof.
  unfold st at 1. rewrite set_suffix_link_insert, node_at_insert by done.
  by destruct (decide (v = p)) as [->|].
Qed.

Lemma en_set_suffix_link q v : en (set_suffix_link h p q) v = en h v.
Proof.
  unfold en at 1. rewrite set_suffix_link_insert, node_at_insert by done.
  by destruct (decide (v = p)) as [->|].
Qed.

Lemma lnk_set_suffix_link q v :
  lnk (set_suffix_link h p q) v = if decide (v = p) then Some q else lnk h v.
Proof.
  unfold lnk at 1. rewrite set_suffix_link_insert, node_at_insert by done.
  by destruct (decide (v = p)).
Qed.
End Fields.

Lemma kids_alloc h nd v :
  kids (h ++ [nd]) v = if decide (v = length h) then children nd else kids h v.
Proof. unfold kids. rewrite node_at_alloc. by destruct (decide _). Qed.

Lemma st_alloc h nd v :
  st (h ++ [nd]) v = if decide (v = length h) then start nd else st h v.
Proof. unfold st. rewrite node_at_alloc. by destruct (decide _). Qed.

Lemma en_alloc h nd v :
  en (h ++ [nd]) v = if decide (v = length h) then end_ nd else en h v.
Proof. unfold en. rewrite node_at_alloc. by destruct (decide _). Qed.

Lemma lnk_alloc h nd v :
  lnk (h ++ [nd]) v = if decide (v = length h) then suffix_link nd else lnk h v.
Proof. unfold lnk. rewrite node_at_alloc. by destruct (decide _). Qed.

(** ** The text as a function of the position *)

Definition ch (T : str) (k : Z) : ascii :=
  default "000"%char (T !! Z.to_nat k).

Lemma py_index_ch T k : 0 <= k < len T -> py_index T k = Ok (ch T k).
Proof.
  intros Hk. unfold py_index, ch.
  destruct (k <? 0) eqn:E1; [lia|].
  destruct ((k <? 0) || (len T <=? k)) eqn:E2; [lia|].
  destruct (lookup_lt_is_Some_2 T (Z.to_nat k)) as [c ->]; [|done].
  unfold len in Hk. lia.
Qed.

(** [T[a : a + d] == T[b : b + d]], for positions inside the text. *)
Definition agree (T : str) (a b d : Z) : Prop :=
  forall m, 0 <= m < d -> ch T (a + m) = ch T (b + m).

Lemma agree_refl T a d : agree T a a d.
Proof. by intros m _. Qed.

Lemma agree_sym T a b d : agree T a b d -> agree T b a d.
Proof. intros H m Hm. symmetry. by apply H. Qed.

Lemma agree_trans T a b c d : agree T a b d -> agree T b c d -> agree T a c d.
Proof. intros H1 H2 m Hm. rewrite H1 by done. by apply H2. Qed.

Lemma agree_le T a b d d' : d' <= d -> agree T a b d -> agree T a b d'.
Proof. intros Hle H m Hm. apply H. lia. Qed.

Lemma agree_tail T a b d : agree T a b d -> agree T (a + 1) (b + 1) (d - 1).
Proof.
  intros H m Hm. replace (a + 1 + m) with (a + (m + 1)) by lia.
  replace (b + 1 + m) with (b + (m + 1)) by lia. apply H. lia.
Qed.

Lemma agree_snoc T a b d :
  0 <= d -> agree T a b d -> ch T (a + d) = ch T (b + d) -> agree T a b (d + 1).
Proof.
  intros Hd H Hc m Hm. destruct (decide (m = d)) as [->|]; [done|].
  apply H. lia.
Qed.

(** ** The shape of the tree

    Two pieces of information are not stored in the nodes: the length
    [dep v] of the string spelled from the root to [v], and the parent
    [par v].  They are carried along the construction. *)

Record shape := mkShape { dep : nat -> Z; par : nat -> nat }.

Section Tree.
Context (T : str).
Let n := len T.

(** Where the string spelled to [v] starts in the text. *)
Definition hd (h : store) (g : shape) (v : nat) : Z := en h v - dep g v.

Record wf (h : store) (g : shape) (L : Z) (P : nat -> Prop) : Prop := {
  wf_root : (0 < length h)%nat /\ dep g root = 0 /\ lnk h root = None;
  wf_node : forall v, (v < length h)%nat -> v <> root ->
    0 <= st h v < en h v /\ en h v <= n /\
    (par g v < length h)%nat /\ 0 <= dep g (par g v) /\
    dep g v = dep g (par g v) + (en h v - st h v) /\
    dict_get (kids h (par g v)) (ch T (st h v)) = Some v /\
    0 <= hd h g v < L /\
    agree T (hd h g v) (hd h g (par g v)) (dep g (par g v)) /\
    (kids h v = [] -> en h v = n);
  wf_child : forall v c w, (v < length h)%nat ->
    dict_get (kids h v) c = Some w ->
    (w < length h)%nat /\ w <> root /\ par g w = v /\ ch T (st h w) = c;
  wf_keys : forall v, (v < length h)%nat -> NoDup (kids h v).*1;
  wf_leaf : forall j, 0 <= j < L ->
    exists v, (v < length h)%nat /\ v <> root /\ kids h v = [] /\
              hd h g v = j;
  wf_link : forall v w, (v < length h)%nat -> lnk h v = Some w ->
    (w < length h)%nat /\ (w = root \/ kids h w <> []) /\
    dep g w = dep g v - 1 /\ agree T (hd h g w) (hd h g v + 1) (dep g w);
  wf_nolink : forall v, (v < length h)%nat -> v <> root ->
    kids h v <> [] -> lnk h v = None -> P v
}.

Section Static.
Context (h : store) (g : shape) (L : Z) (P : nat -> Prop).
Context (Hwf : wf h g L P).

Lemma dep_nonneg v : (v < length h)%nat -> 0 <= dep g v.
Proof.
  intros Hv. destruct (decide (v = root)) as [->|Hne].
  - destruct (wf_root _ _ _ _ Hwf) as (_ & -> & _). done.
  - destruct (wf_node _ _ _ _ Hwf v Hv Hne) as (? & ? & ? & ? & ? & _). lia.
Qed.

Lemma dep_par_lt v :
  (v < length h)%nat -> v <> root -> 0 <= dep g (par g v) < dep g v.
Proof.
  intros Hv Hne.
  destruct (wf_node _ _ _ _ Hwf v Hv Hne) as (? & ? & ? & ? & ? & _). lia.
Qed.

Lemma dep_zero_root v : (v < length h)%nat -> dep g v = 0 -> v = root.
Proof.
  intros Hv H0. destruct (decide (v = root)) as [|Hne]; [done|].
  pose proof (dep_par_lt v Hv Hne). lia.
Qed.

Lemma par_valid v : (v < length h)%nat -> v <> root -> (par g v < length h)%nat.
Proof.
  intros Hv Hne.
  by destruct (wf_node _ _ _ _ Hwf v Hv Hne) as (? & ? & ? & _).
Qed.

Lemma agree_par v :
  (v < length h)%nat -> v <> root ->
  agree T (hd h g v) (hd h g (par g v)) (dep g (par g v)).
Proof.
  intros Hv Hne.
  by destruct (wf_node _ _ _ _ Hwf v Hv Hne) as (?&?&?&?&?&?&?&?&?).
Qed.

Lemma child_of_par v :
  (v < length h)%nat -> v <> root ->
  dict_get (kids h (par g v)) (ch T (hd h g v + dep g (par g v))) = Some v.
Proof.
  intros Hv Hne.
  destruct (wf_node _ _ _ _ Hwf v Hv Hne) as (?&?&?&?&Hd&Hk&_).
  replace (hd h g v + dep g (par g v)) with (st h v); [done|].
  unfold hd. lia.
Qed.

(** A position in the tree: on the edge into [v], at depth [d]. *)
Definition loc (v : nat) (d : Z) : Prop :=
  (v < length h)%nat /\ v <> root /\ dep g (par g v) < d <= dep g v.

Lemma loc_node v : (v < length h)%nat -> v <> root -> loc v (dep g v).
Proof.
  intros Hv Hne. pose proof (dep_par_lt v Hv Hne). repeat split; [done..|lia|lia].
Qed.

(** Two positions that spell the same string are the same. *)
Lemma loc_unique_aux (k : nat) : forall d v v',
  d <= Z.of_nat k ->
  loc v d -> loc v' d -> agree T (hd h g v) (hd h g v') d -> v = v'.
Proof.
  induction k as [|k IH]; intros d v v' Hk (Hv & Hne & Hd) (Hv' & Hne' & Hd') Hag.
  { pose proof (dep_par_lt v Hv Hne). lia. }
  pose proof (dep_par_lt v Hv Hne) as Hp.
  pose proof (dep_par_lt v' Hv' Hne') as Hp'.
  pose proof (par_valid v Hv Hne) as Hpv.
  pose proof (par_valid v' Hv' Hne') as Hpv'.
  pose proof (agree_par v Hv Hne) as Hap.
  pose proof (agree_par v' Hv' Hne') as Hap'.
  destruct (Z.lt_trichotomy (dep g (par g v)) (dep g (par g v'))) as [Hlt|[Heq|Hgt]].
  - (* the parent of v' sits inside the edge into v *)
    assert (par g v' <> root) as Hr.
    { intros Hr. rewrite Hr in Hlt.
      destruct (wf_root _ _ _ _ Hwf) as (_ & H0 & _). lia. }
    assert (v = par g v') as E.
    { apply (IH (dep g (par g v'))); [lia| |by apply loc_node|].
      - repeat split; [done..|lia|lia].
      - eapply agree_trans; [|exact Hap'].
        eapply agree_le; [|exact Hag]. lia. }
    exfalso. rewrite E in Hd. lia.
  - assert (par g v = par g v') as E.
    { destruct (decide (dep g (par g v) = 0)) as [H0|H0].
      - rewrite (dep_zero_root _ Hpv H0).
        rewrite Heq in H0. by rewrite (dep_zero_root _ Hpv' H0).
      - assert (par g v <> root) as Hr.
        { intros Hr. rewrite Hr in H0.
          destruct (wf_root _ _ _ _ Hwf) as (_ & ? & _). lia. }
        assert (par g v' <> root) as Hr'.
        { intros Hr'. rewrite Hr' in Heq.
          destruct (wf_root _ _ _ _ Hwf) as (_ & ? & _). lia. }
        apply (IH (dep g (par g v))); [lia|by apply loc_node| |].
        + rewrite Heq. by apply loc_node.
        + apply agree_sym in Hap. eapply agree_trans; [exact Hap|].
          eapply agree_trans; [|rewrite Heq; exact Hap'].
          eapply agree_le; [|exact Hag]. lia. }
    pose proof (child_of_par v Hv Hne) as Hc.
    pose proof (child_of_par v' Hv' Hne') as Hc'.
    rewrite <- E in Hc'. rewrite <- (Hag (dep g (par g v))) in Hc' by lia.
    congruence.
  - assert (par g v <> root) as Hr.
    { intros Hr. rewrite Hr in Hgt.
      destruct (wf_root _ _ _ _ Hwf) as (_ & H0 & _). lia. }
    assert (par g v = v') as E.
    { apply (IH (dep g (par g v))); [lia|by apply loc_node| |].
      - repeat split; [done..|lia|lia].
      - apply agree_sym in Hap. eapply agree_trans; [exact Hap|].
        eapply agree_le; [|exact Hag]. lia. }
    exfalso. rewrite <- E in Hd'. lia.
Qed.

Lemma loc_unique d v v' :
  loc v d -> loc v' d -> agree T (hd h g v) (hd h g v') d -> v = v'.
Proof.
  intros Hl Hl' Hag.
  apply (loc_unique_aux (Z.to_nat d) d); [lia|done..].
Qed.

(** [anc a v]: [a] is [v] or lies on the way from the root to [v]. *)
Inductive anc : nat -> nat -> Prop :=
| anc_refl v : anc v v
| anc_step a v : v <> root -> anc a (par g v) -> anc a v.

Lemma anc_valid a v : anc a v -> (v < length h)%nat -> (a < length h)%nat.
Proof. induction 1; [done|]. intros Hv. apply IHanc. by apply par_valid. Qed.

Lemma anc_dep a v : anc a v -> (v < length h)%nat -> dep g a <= dep g v.
Proof.
  induction 1 as [|a v Hne _ IH]; [lia|]. intros Hv.
  pose proof (dep_par_lt v Hv Hne). pose proof (par_valid v Hv Hne).
  specialize (IH ltac:(done)). lia.
Qed.

Lemma anc_proper a v :
  anc a v -> (v < length h)%nat -> a <> v ->
  v <> root /\ dep g a <= dep g (par g v).
Proof.
  destruct 1 as [|a v Hne Ha]; [done|]. intros Hv _. split; [done|].
  apply anc_dep; [done|]. by apply par_valid.
Qed.

Lemma anc_agree a v :
  anc a v -> (v < length h)%nat -> agree T (hd h g a) (hd h g v) (dep g a).
Proof.
  induction 1 as [|a v Hne Ha IH]; [intros; apply agree_refl|]. intros Hv.
  pose proof (par_valid v Hv Hne) as Hp.
  eapply agree_trans; [by apply IH|]. apply agree_sym.
  eapply agree_le; [|by apply agree_par]. by apply anc_dep.
Qed.

Lemma anc_trans a b v : anc a b -> anc b v -> anc a v.
Proof. intros Hab. induction 1; [done|]. apply anc_step; auto. Qed.

(** Every non-empty prefix of a string in the tree is in the tree. *)
Lemma loc_prefix_aux (k : nat) : forall v d d',
  dep g v <= Z.of_nat k -> loc v d -> 0 < d' <= d ->
  exists v', loc v' d' /\ anc v' v.
Proof.
  induction k as [|k IH]; intros v d d' Hk (Hv & Hne & Hd) Hd'.
  { pose proof (dep_par_lt v Hv Hne). lia. }
  destruct (decide (dep g (par g v) < d')) as [Hlt|Hge].
  - exists v. split; [|constructor]. repeat split; [done..|lia|lia].
  - pose proof (dep_par_lt v Hv Hne) as Hp.
    pose proof (par_valid v Hv Hne) as Hpv.
    assert (par g v <> root) as Hr.
    { intros Hr. rewrite Hr in Hge.
      destruct (wf_root _ _ _ _ Hwf) as (_ & H0 & _). lia. }
    destruct (IH (par g v) (dep g (par g v)) d') as (v' & Hl & Ha);
      [lia|by apply loc_node|lia|].
    exists v'. split; [done|]. by apply anc_step.
Qed.

Lemma loc_prefix v d d' :
  loc v d -> 0 < d' <= d ->
  exists v', loc v' d' /\ anc v' v /\
             agree T (hd h g v') (hd h g v) d'.
Proof.
  intros Hl Hd'.
  destruct (loc_prefix_aux (Z.to_nat (dep g v)) v d d') as (v' & Hl' & Ha);
    [lia|done..|].
  exists v'. split; [done|]. split; [done|].
  destruct Hl as (Hv & _), Hl' as (_ & _ & Hd).
  eapply agree_le; [|by apply anc_agree]. lia.
Qed.

(** The string of length [D] read at [a] is in the tree. *)
Definition located (a D : Z) : Prop :=
  exists v, loc v D /\ agree T (hd h g v) a D.

(** A string that occurs at the head of an inserted suffix is in the
    tree. *)
Lemma occurs_located k a D :
  0 <= k < L -> 0 < D -> k + D <= n -> agree T k a D -> located a D.
Proof.
  intros Hk HD Hn Hag.
  destruct (wf_leaf _ _ _ _ Hwf k Hk) as (v & Hv & Hne & Hkids & Hhd).
  destruct (wf_node _ _ _ _ Hwf v Hv Hne) as (?&?&?&?&?&?&?&?&Hend).
  specialize (Hend Hkids).
  destruct (loc_prefix v (dep g v) D) as (v' & Hl & _ & Hag');
    [by apply loc_node|unfold hd in Hhd; lia|].
  exists v'. split; [done|]. rewrite Hhd in Hag'.
  by eapply agree_trans.
Qed.

(** Walking down from a node [u] that spells a proper prefix of a
    string in the tree: the edge for the next symbol exists, and its
    label carries on with the string. *)
Lemma walk u a D :
  (u < length h)%nat -> dep g u < D ->
  agree T (hd h g u) a (dep g u) -> located a D ->
  exists nx,
    dict_get (kids h u) (ch T (a + dep g u)) = Some nx /\
    (nx < length h)%nat /\ nx <> root /\ par g nx = u /\
    agree T (hd h g nx) a (Z.min D (dep g nx)) /\
    (D <= dep g nx -> loc nx D).
Proof.
  intros Hu HuD Hon (v & Hl & Hag).
  pose proof (dep_nonneg u Hu) as Hu0.
  destruct (loc_prefix v D (dep g u + 1)) as (nx & Hlx & Hanc & Hagx);
    [done|lia|].
  pose proof Hl as (Hv & Hvne & HvD).
  pose proof Hlx as (Hx & Hxne & HxD).
  pose proof (dep_par_lt nx Hx Hxne) as Hp.
  pose proof (par_valid nx Hx Hxne) as Hpv.
  assert (agree T (hd h g nx) a (dep g u + 1)) as Hxa.
  { eapply agree_trans; [exact Hagx|]. eapply agree_le; [|exact Hag]. lia. }
  assert (par g nx = u) as E.
  { destruct (decide (dep g (par g nx) = dep g u)) as [Heq|Hneq].
    - destruct (decide (dep g u = 0)) as [H0|H0].
      + rewrite (dep_zero_root u Hu H0). apply dep_zero_root; [done|lia].
      + assert (u <> root) as Hur.
        { intros ->. destruct (wf_root _ _ _ _ Hwf) as (_ & ? & _). lia. }
        assert (par g nx <> root) as Hpr.
        { intros Hpr. rewrite Hpr in Heq.
          destruct (wf_root _ _ _ _ Hwf) as (_ & ? & _). lia. }
        apply (loc_unique (dep g u)).
        * rewrite <- Heq. by apply loc_node.
        * by apply loc_node.
        * eapply agree_trans.
          { apply agree_sym. rewrite <- Heq. by apply agree_par. }
          eapply agree_trans; [|apply agree_sym; exact Hon].
          eapply agree_le; [|exact Hxa]. lia.
    - exfalso.
      assert (u <> root) as Hur.
      { intros ->. destruct (wf_root _ _ _ _ Hwf) as (_ & ? & _). lia. }
      assert (nx = u) as E.
      { apply (loc_unique (dep g u)).
        - repeat split; [done..|lia|lia].
        - by apply loc_node.
        - eapply agree_trans; [|apply agree_sym; exact Hon].
          eapply agree_le; [|exact Hxa]. lia. }
      rewrite E in HxD. lia. }
  exists nx. split; [|split; [done|split; [done|split; [done|split]]]].
  - pose proof (child_of_par nx Hx Hxne) as Hc. rewrite E in Hc.
    rewrite (Hxa (dep g u)) in Hc by lia. done.
  - eapply agree_trans; [|eapply agree_le; [|exact Hag]; lia].
    eapply agree_le; [|by apply anc_agree]. lia.
  - intros HD. rewrite <- E in HuD. repeat split; [done..|lia|lia].
Qed.
End Static.
End Tree.

(** ** How the writes of [extend] change the shape *)

Definition fupd {A} (f : nat -> A) (k : nat) (x : A) : nat -> A :=
  fun v => if decide (v = k) then x else f v.

Lemma wf_mono T h g L (P Q : nat -> Prop) :
  (forall v, P v -> Q v) -> wf T h g L P -> wf T h g L Q.
Proof. intros HPQ []. split; auto. Qed.

Lemma kids_not_nil_of_get {V} (d : dict V) c w : dict_get d c = Some w -> d <> [].
Proof. by destruct d. Qed.

Section Update.
Context (T : str).
Let n := len T.
Context (h : store) (g : shape) (L : Z) (P : nat -> Prop).
Context (Hwf : wf T h g L P).

(** [l.suffix_link = w] *)
Lemma wf_set_link (h' : store) (l w : nat) :
  (l < length h)%nat -> l <> root -> (w < length h)%nat ->
  (w = root \/ kids h w <> []) ->
  dep g w = dep g l - 1 ->
  agree T (hd h g w) (hd h g l + 1) (dep g w) ->
  length h' = length h ->
  (forall v, st h' v = st h v) ->
  (forall v, en h' v = en h v) ->
  (forall v, kids h' v = kids h v) ->
  (forall v, lnk h' v = if decide (v = l) then Some w else lnk h v) ->
  wf T h' g L (fun v => P v /\ v <> l).
Proof.
  intros Hl Hlr Hw Hwi Hdw Hag Hlen Hst Hen Hkids Hlnk.
  assert (forall v, hd h' g v = hd h g v) as Hhd.
  { intros v. unfold hd. by rewrite Hen. }
  destruct Hwf as [Hroot Hnode Hchild Hkeys Hleaf Hlink Hnolink].
  split.
  - rewrite Hlen, Hlnk. destruct Hroot as (? & ? & ?).
    rewrite decide_False by done. done.
  - intros v Hv Hne. rewrite Hlen in *. rewrite !Hst, !Hen, !Hkids, !Hhd.
    by apply Hnode.
  - intros v c w' Hv. rewrite Hlen in *. rewrite Hkids, Hst. by apply Hchild.
  - intros v Hv. rewrite Hlen in *. rewrite Hkids. by apply Hkeys.
  - intros j Hj. destruct (Hleaf j Hj) as (v & ? & ? & ? & ?).
    exists v. by rewrite Hlen, Hkids, Hhd.
  - intros v w' Hv. rewrite Hlen in *. rewrite Hlnk, Hkids, !Hhd.
    destruct (decide (v = l)) as [->|Hvl]; [|by apply Hlink].
    intros [= <-]. done.
  - intros v Hv Hne. rewrite Hlen in *. rewrite Hkids, Hlnk.
    destruct (decide (v = l)) as [->|Hvl]; [done|].
    intros ? ?. split; [|done]. by apply Hnolink.
Qed.

(** A new leaf [(i, n)] under the node [u], on the key [T[i]]. *)
Lemma wf_add_leaf (h' : store) (u : nat) (i : Z) :
  let lf := length h in
  let g' := mkShape (fupd (dep g) lf (dep g u + n - i)) (fupd (par g) lf u) in
  (u < length h)%nat -> (u = root \/ kids h u <> []) ->
  0 <= i < n -> 0 <= L -> dep g u = i - L ->
  agree T (hd h g u) L (dep g u) ->
  dict_get (kids h u) (ch T i) = None ->
  length h' = S (length h) ->
  (forall v, st h' v = if decide (v = lf) then i else st h v) ->
  (forall v, en h' v = if decide (v = lf) then n else en h v) ->
  (forall v, lnk h' v = if decide (v = lf) then None else lnk h v) ->
  kids h' lf = [] ->
  (forall v, v <> u -> v <> lf -> kids h' v = kids h v) ->
  (forall c, dict_get (kids h' u) c =
             if decide (c = ch T i) then Some lf else dict_get (kids h u) c) ->
  NoDup (kids h' u).*1 ->
  wf T h' g' (L + 1) P.
Proof.
  intros lf g' Hu Hui Hi HL Hdu Hag Hnone Hlen Hst Hen Hlnk Hklf Hkids Hku Hnd.
  destruct Hwf as [Hroot Hnode Hchild Hkeys Hleaf Hlink Hnolink].
  assert (u <> lf) as Hulf by (unfold lf; lia).
  assert (root <> lf) as Hrlf by (unfold lf, root; lia).
  assert (forall v, v <> lf -> dep g' v = dep g v) as Hdep.
  { intros v Hv. cbn. unfold fupd. by rewrite decide_False. }
  assert (forall v, v <> lf -> par g' v = par g v) as Hpar.
  { intros v Hv. cbn. unfold fupd. by rewrite decide_False. }
  assert (forall v, v <> lf -> hd h' g' v = hd h g v) as Hhd.
  { intros v Hv. unfold hd. rewrite Hen, Hdep by done.
    by rewrite decide_False. }
  assert (hd h' g' lf = L) as Hhdlf.
  { unfold hd. rewrite Hen, decide_True by done. cbn. unfold fupd.
    rewrite decide_True by done. lia. }
  assert (kids h' u <> []) as Hkune.
  { eapply (kids_not_nil_of_get _ (ch T i)). rewrite Hku.
    by rewrite decide_True. }
  split.
  - rewrite Hlen, Hlnk, Hdep by done. rewrite decide_False by done.
    destruct Hroot as (? & ? & ?). split; [lia|done].
  - intros v Hv Hne. rewrite Hlen in Hv.
    destruct (decide (v = lf)) as [->|Hvlf].
    + rewrite Hst, Hen, Hhdlf, !decide_True by done.
      assert (par g' lf = u) as -> by (cbn; unfold fupd; by rewrite decide_True).
      rewrite Hku, decide_True, Hhd, Hdep by done.
      assert (dep g' lf = dep g u + n - i) as ->
          by (cbn; unfold fupd; by rewrite decide_True).
      pose proof (dep_nonneg T h g L P Hwf u Hu).
      repeat split; try lia; try done. by apply agree_sym.
    + assert (v < length h)%nat as Hv' by (unfold lf in Hvlf; lia).
      destruct (Hnode v Hv' Hne) as (H1 & H2 & H3 & H4 & H5 & H6 & H7 & H8 & H9).
      assert (par g v <> lf) as Hplf by (unfold lf; lia).
      rewrite Hst, Hen, !decide_False, Hpar, !Hdep, !Hhd by done.
      repeat split; try lia; try done.
      * destruct (decide (par g v = u)) as [E|E].
        -- rewrite E, Hku. rewrite E in H6. case_decide as Hc; [|done].
           rewrite Hc in H6. congruence.
        -- by rewrite Hkids.
      * destruct (decide (v = u)) as [->|E]; [done|].
        by rewrite Hkids.
  - intros v c w Hv Hget. rewrite Hlen in Hv.
    destruct (decide (v = lf)) as [->|Hvlf]; [by rewrite Hklf in Hget|].
    assert (v < length h)%nat as Hv' by (unfold lf in Hvlf; lia).
    destruct (decide (v = u)) as [->|E].
    + rewrite Hku in Hget. case_decide as Hc.
      * injection Hget as <-. rewrite Hlen, Hst, decide_True by done.
        repeat split; [unfold lf; lia|unfold lf, root in *; lia| |by subst c].
        cbn. unfold fupd. by rewrite decide_True.
      * destruct (Hchild u c w Hv' Hget) as (? & ? & ? & ?).
        assert (w <> lf) by (unfold lf; lia).
        rewrite Hlen, Hst, decide_False, Hpar by done.
        repeat split; [lia|done..].
    + rewrite Hkids in Hget by done.
      destruct (Hchild v c w Hv' Hget) as (? & ? & ? & ?).
      assert (w <> lf) by (unfold lf; lia).
      rewrite Hlen, Hst, decide_False, Hpar by done.
      repeat split; [lia|done..].
  - intros v Hv. rewrite Hlen in Hv.
    destruct (decide (v = lf)) as [->|Hvlf]; [rewrite Hklf; constructor|].
    destruct (decide (v = u)) as [->|E]; [done|].
    rewrite Hkids by done. apply Hkeys. unfold lf in Hvlf. lia.
  - intros j Hj. destruct (decide (j = L)) as [->|HjL].
    + exists lf. rewrite Hlen. repeat split; [unfold lf; lia|done..].
    + destruct (Hleaf j ltac:(lia)) as (v & Hv & Hne & Hk & Hh).
      assert (v <> lf) by (unfold lf; lia).
      assert (v <> u) by (destruct Hui; congruence).
      exists v. rewrite Hlen, Hkids, Hhd by done.
      repeat split; [lia|done..].
  - intros v w Hv. rewrite Hlen in Hv. rewrite Hlnk.
    destruct (decide (v = lf)) as [->|Hvlf]; [done|].
    assert (v < length h)%nat as Hv' by (unfold lf in Hvlf; lia).
    intros Hl. destruct (Hlink v w Hv' Hl) as (Hw & Hwi & Hd & Ha).
    assert (w <> lf) by (unfold lf; lia).
    rewrite Hlen, !Hdep, !Hhd by done.
    repeat split; [lia| |done..].
    destruct (decide (w = u)) as [->|E]; [by right|].
    by rewrite Hkids.
  - intros v Hv Hne. rewrite Hlen in Hv. rewrite Hlnk.
    destruct (decide (v = lf)) as [->|Hvlf]; [by rewrite Hklf|].
    assert (v < length h)%nat as Hv' by (unfold lf in Hvlf; lia).
    destruct (decide (v = u)) as [->|E].
    + intros _ Hl. apply Hnolink; [done..| |done]. by destruct Hui.
    + rewrite Hkids by done. by apply Hnolink.
Qed.

(** A new node [(s, s + al)] on the edge from [u] to [nx], whose edge
    becomes [(s + al, end)]. *)
Lemma wf_split (h' : store) (nx : nat) (al : Z) :
  let sp := length h in
  let u := par g nx in
  let s := st h nx in
  let g' := mkShape (fupd (dep g) sp (dep g u + al))
                    (fupd (fupd (par g) nx sp) sp u) in
  (nx < length h)%nat -> nx <> root ->
  0 < al < en h nx - st h nx ->
  length h' = S (length h) ->
  (forall v, st h' v = if decide (v = sp) then s
                       else if decide (v = nx) then s + al else st h v) ->
  (forall v, en h' v = if decide (v = sp) then s + al else en h v) ->
  (forall v, lnk h' v = if decide (v = sp) then None else lnk h v) ->
  (forall v, v <> u -> v <> sp -> kids h' v = kids h v) ->
  (forall c, dict_get (kids h' u) c =
             if decide (c = ch T s) then Some sp else dict_get (kids h u) c) ->
  NoDup (kids h' u).*1 ->
  (forall c, dict_get (kids h' sp) c =
             if decide (c = ch T (s + al)) then Some nx else None) ->
  NoDup (kids h' sp).*1 ->
  wf T h' g' L (fun v => P v \/ v = sp) /\
  hd h' g' sp = hd h g nx.
Proof.
  intros sp u s g' Hx Hxr Hal Hlen Hst Hen Hlnk Hkids Hku Hndu Hksp Hndsp.
  destruct Hwf as [Hroot Hnode Hchild Hkeys Hleaf Hlink Hnolink].
  destruct (Hnode nx Hx Hxr) as (X1 & X2 & X3 & X4 & X5 & X6 & X7 & X8 & X9).
  fold u in X3, X4, X5, X6, X8. fold s in X1, X5, X6.
  pose proof (dep_par_lt T h g L P Hwf nx Hx Hxr) as Hdx. fold u in Hdx.
  assert (u <> sp) as Husp by (unfold sp; lia).
  assert (nx <> sp) as Hxsp by (unfold sp; lia).
  assert (nx <> u) as Hxu by (intros E; rewrite <- E in Hdx; lia).
  assert (root <> sp) as Hrsp by (unfold sp, root; lia).
  assert (forall v, v <> sp -> dep g' v = dep g v) as Hdep.
  { intros v Hv. cbn. unfold fupd. by rewrite decide_False. }
  assert (dep g' sp = dep g u + al) as Hdsp.
  { cbn. unfold fupd. by rewrite decide_True. }
  assert (forall v, v <> sp -> v <> nx -> par g' v = par g v) as Hpar.
  { intros v Hv Hv'. cbn. unfold fupd. by rewrite !decide_False. }
  assert (par g' sp = u) as Hpsp.
  { cbn. unfold fupd. by rewrite decide_True. }
  assert (par g' nx = sp) as Hpnx.
  { cbn. unfold fupd. rewrite decide_False by done. by rewrite decide_True. }
  assert (forall v, v <> sp -> hd h' g' v = hd h g v) as Hhd.
  { intros v Hv. unfold hd. rewrite Hen, Hdep by done.
    by rewrite decide_False. }
  assert (hd h' g' sp = hd h g nx) as Hhdsp.
  { unfold hd. rewrite Hen, decide_True, Hdsp by done. unfold s. lia. }
  assert (kids h' u <> []) as Hkune.
  { eapply (kids_not_nil_of_get _ (ch T s)). rewrite Hku.
    by rewrite decide_True. }
  assert (kids h u <> []) as Hkuold.
  { by eapply kids_not_nil_of_get. }
  assert (kids h' sp <> []) as Hkspne.
  { eapply (kids_not_nil_of_get _ (ch T (s + al))). rewrite Hksp.
    by rewrite decide_True. }
  split; [|done]. split.
  - rewrite Hlen, Hlnk, Hdep by done. rewrite decide_False by done.
    destruct Hroot as (? & ? & ?). split; [lia|done].
  - intros v Hv Hne. rewrite Hlen in Hv.
    destruct (decide (v = sp)) as [->|Hvsp].
    + rewrite Hst, Hen, Hhdsp, Hpsp, Hdsp, !decide_True by done.
      rewrite Hdep, Hhd, Hku, decide_True by done.
      repeat split; try lia; try done; unfold hd in *; lia.
    + assert (v < length h)%nat as Hv' by (unfold sp in Hvsp; lia).
      rewrite Hst, Hen, Hhd, !(decide_False (P:=v = sp)) by done.
      rewrite (Hdep v) by done.
      destruct (decide (v = nx)) as [->|Hvx].
      * rewrite Hpnx, Hdsp, Hhdsp, Hksp, decide_True by done.
        rewrite Hkids by done.
        repeat split; try lia; try done; try apply agree_refl.
      * destruct (Hnode v Hv' Hne) as (H1 & H2 & H3 & H4 & H5 & H6 & H7 & H8 & H9).
        assert (par g v <> sp) as Hpvsp by (unfold sp; lia).
        rewrite Hpar, Hdep, Hhd by done.
        repeat split; try lia; try done.
        -- destruct (decide (par g v = u)) as [E|E].
           ++ rewrite E, Hku. rewrite E in H6. case_decide as Hc; [|done].
              rewrite Hc in H6. congruence.
           ++ by rewrite Hkids.
        -- destruct (decide (v = u)) as [->|E]; [done|].
           by rewrite Hkids.
  - intros v c w Hv Hget. rewrite Hlen in Hv. rewrite Hlen.
    destruct (decide (v = sp)) as [->|Hvsp].
    { rewrite Hksp in Hget. case_decide as Hc; [|done].
      injection Hget as <-. rewrite Hst, decide_False, decide_True by done.
      repeat split; [lia|done..|by subst c]. }
    assert (v < length h)%nat as Hv' by (unfold sp in Hvsp; lia).
    destruct (decide (v = u)) as [->|E].
    + rewrite Hku in Hget. case_decide as Hc.
      * injection Hget as <-. rewrite Hst, decide_True by done.
        repeat split; [unfold sp; lia|unfold sp, root in *; lia|done|by subst c].
      * destruct (Hchild u c w Hv' Hget) as (? & ? & ? & Hcw).
        assert (w <> sp) by (unfold sp; lia).
        assert (w <> nx) by (intros ->; by rewrite <- Hcw in Hc).
        rewrite Hst, !decide_False, Hpar by done.
        repeat split; [lia|done..].
    + rewrite Hkids in Hget by done.
      destruct (Hchild v c w Hv' Hget) as (? & ? & Hpw & Hcw).
      assert (w <> sp) by (unfold sp; lia).
      assert (w <> nx) by (intros ->; by rewrite <- Hpw in E).
      rewrite Hst, !decide_False, Hpar by done.
      repeat split; [lia|done..].
  - intros v Hv. rewrite Hlen in Hv.
    destruct (decide (v = sp)) as [->|Hvsp]; [done|].
    destruct (decide (v = u)) as [->|E]; [done|].
    rewrite Hkids by done. apply Hkeys. unfold sp in Hvsp. lia.
  - intros j Hj.
    destruct (Hleaf j Hj) as (v & Hv & Hne & Hk & Hh).
    assert (v <> sp) by (unfold sp; lia).
    assert (v <> u) by congruence.
    exists v. rewrite Hlen, Hkids, Hhd by done.
    repeat split; [lia|done..].
  - intros v w Hv. rewrite Hlen in Hv. rewrite Hlnk.
    destruct (decide (v = sp)) as [->|Hvsp]; [done|].
    assert (v < length h)%nat as Hv' by (unfold sp in Hvsp; lia).
    intros Hl. destruct (Hlink v w Hv' Hl) as (Hw & Hwi & Hd & Ha).
    assert (w <> sp) by (unfold sp; lia).
    rewrite Hlen, !Hdep, !Hhd by done.
    repeat split; [lia| |done..].
    destruct (decide (w = u)) as [->|E]; [by right|].
    by rewrite Hkids.
  - intros v Hv Hne. rewrite Hlen in Hv. rewrite Hlnk.
    destruct (decide (v = sp)) as [->|Hvsp]; [by right|].
    assert (v < length h)%nat as Hv' by (unfold sp in Hvsp; lia).
    intros Hk Hl. left.
    destruct (decide (v = u)) as [->|E]; [by apply Hnolink|].
    rewrite Hkids in Hk by done. by apply Hnolink.
Qed.
End Update.

(** ** The stores that [extend] builds *)

Lemma dict_get_set {V} (d : dict V) k v k' :
  dict_get (dict_set d k v) k' = if decide (k' = k) then Some v else dict_get d k'.
Proof.
  destruct (decide (k' = k)) as [->|Hne].
  - apply dict_get_set_eq.
  - by apply dict_get_set_ne.
Qed.

(** Lines 39: the store after [active_node.children[c] = SuffixTreeNode(i, n)]. *)
Definition leaf_store (h : store) (u : nat) (c : ascii) (i n : Z) : store :=
  set_child (h ++ [new_node i n]) u c (length h).

Section LeafStore.
Context (h : store) (u : nat) (c : ascii) (i n : Z).
Context (Hu : (u < length h)%nat).
Let lf := length h.
Let h' := leaf_store h u c i n.

Lemma leaf_store_valid : (u < length (h ++ [new_node i n]))%nat.
Proof. rewrite length_alloc. lia. Qed.

Lemma leaf_store_length : length h' = S (length h).
Proof. unfold h', leaf_store. by rewrite length_set_child, length_alloc. Qed.

Lemma leaf_store_st v : st h' v = if decide (v = lf) then i else st h v.
Proof.
  unfold h', leaf_store. rewrite st_set_child by apply leaf_store_valid.
  by rewrite st_alloc.
Qed.

Lemma leaf_store_en v : en h' v = if decide (v = lf) then n else en h v.
Proof.
  unfold h', leaf_store. rewrite en_set_child by apply leaf_store_valid.
  by rewrite en_alloc.
Qed.

Lemma leaf_store_lnk v : lnk h' v = if decide (v = lf) then None else lnk h v.
Proof.
  unfold h', leaf_store. rewrite lnk_set_child by apply leaf_store_valid.
  by rewrite lnk_alloc.
Qed.

Lemma leaf_store_kids_u : kids h' u = dict_set (kids h u) c lf.
Proof.
  unfold h', leaf_store. rewrite kids_set_child by apply leaf_store_valid.
  rewrite decide_True by done. rewrite kids_alloc.
  rewrite decide_False by lia. done.
Qed.

Lemma leaf_store_kids_lf : kids h' lf = [].
Proof.
  unfold h', leaf_store. rewrite kids_set_child by apply leaf_store_valid.
  rewrite decide_False by (unfold lf; lia). rewrite kids_alloc.
  by rewrite decide_True.
Qed.

Lemma leaf_store_kids v : v <> u -> v <> lf -> kids h' v = kids h v.
Proof.
  intros Hvu Hvl.
  unfold h', leaf_store. rewrite kids_set_child by apply leaf_store_valid.
  rewrite decide_False by done. rewrite kids_alloc.
  by rewrite decide_False.
Qed.
End LeafStore.

(** Lines 63-67: the store after the edge to [nx] is split and the new
    leaf hung under the new node.  [split_only] is the same store without
    the leaf: it is not a store of the program, only a step of the proof. *)
Definition split_store (h : store) (an nx : nat) (c ci c2 : ascii)
    (s al i n : Z) : store :=
  let sp := length h in
  let h := h ++ [new_node s (s + al)] in
  let h := set_child h an c sp in
  let lf := length h in
  let h := h ++ [new_node i n] in
  let h := set_child h sp ci lf in
  let h := set_start h nx (s + al) in
  set_child h sp c2 nx.

Definition split_only (h : store) (an nx : nat) (c c2 : ascii)
    (s al : Z) : store :=
  let sp := length h in
  let h := h ++ [new_node s (s + al)] in
  let h := set_child h an c sp in
  let h := set_start h nx (s + al) in
  set_child h sp c2 nx.

Ltac len_tac :=
  repeat first [ rewrite length_set_child | rewrite length_set_start
               | rewrite length_set_suffix_link | rewrite length_alloc ];
  lia.

Ltac fields :=
  repeat first
    [ rewrite kids_set_child by len_tac | rewrite st_set_child by len_tac
    | rewrite en_set_child by len_tac | rewrite lnk_set_child by len_tac
    | rewrite kids_set_start by len_tac | rewrite st_set_start by len_tac
    | rewrite en_set_start by len_tac | rewrite lnk_set_start by len_tac
    | rewrite kids_set_suffix_link by len_tac
    | rewrite st_set_suffix_link by len_tac
    | rewrite en_set_suffix_link by len_tac
    | rewrite lnk_set_suffix_link by len_tac
    | rewrite kids_alloc | rewrite st_alloc | rewrite en_alloc
    | rewrite lnk_alloc | rewrite length_set_child
    | rewrite length_set_start | rewrite length_alloc ];
  cbn [children start end_ suffix_link new_node].

Section SplitStore.
Context (h : store) (an nx : nat) (c ci c2 : ascii) (s al i n : Z).
Context (Han : (an < length h)%nat) (Hnx : (nx < length h)%nat).
Let sp := length h.
Let lf := S (length h).
Let hs := split_only h an nx c c2 s al.
Let h' := split_store h an nx c ci c2 s al i n.

Local Ltac cases :=
  fold sp lf; repeat case_decide; subst; try done;
  try (exfalso; unfold sp, lf in *; lia).

Lemma split_only_length : length hs = S (length h).
Proof. unfold hs, split_only; cbv zeta. len_tac. Qed.

Lemma split_only_st v :
  st hs v = if decide (v = sp) then s
            else if decide (v = nx) then s + al else st h v.
Proof. unfold hs, split_only; cbv zeta. fields. cases. Qed.

Lemma split_only_en v : en hs v = if decide (v = sp) then s + al else en h v.
Proof. unfold hs, split_only; cbv zeta. fields. cases. Qed.

Lemma split_only_lnk v : lnk hs v = if decide (v = sp) then None else lnk h v.
Proof. unfold hs, split_only; cbv zeta. fields. cases. Qed.

Lemma split_only_kids v :
  kids hs v = if decide (v = sp) then [(c2, nx)]
              else if decide (v = an) then dict_set (kids h an) c sp
              else kids h v.
Proof. unfold hs, split_only; cbv zeta. fields. cases. Qed.

Lemma split_store_length : length h' = S (length hs).
Proof. rewrite split_only_length. unfold h', split_store; cbv zeta. len_tac. Qed.

Lemma split_store_st v : st h' v = if decide (v = lf) then i else st hs v.
Proof.
  rewrite split_only_st. unfold h', split_store; cbv zeta. fields. cases.
Qed.

Lemma split_store_en v : en h' v = if decide (v = lf) then n else en hs v.
Proof.
  rewrite split_only_en. unfold h', split_store; cbv zeta. fields. cases.
Qed.

Lemma split_store_lnk v : lnk h' v = if decide (v = lf) then None else lnk hs v.
Proof.
  rewrite split_only_lnk. unfold h', split_store; cbv zeta. fields. cases.
Qed.

Lemma split_store_kids v :
  kids h' v = if decide (v = lf) then []
              else if decide (v = sp) then dict_set [(ci, lf)] c2 nx
              else kids hs v.
Proof.
  rewrite split_only_kids. unfold h', split_store; cbv zeta. fields. cases.
Qed.
End SplitStore.

(** [resolve_link] touches no field but the link of the pending node. *)
Lemma kids_resolve_link h lnn w v : kids (resolve_link h lnn w) v = kids h v.
Proof.
  destruct lnn as [l|]; [|done]. cbn.
  destruct (decide (l < length h)%nat) as [Hl|Hl].
  - by rewrite kids_set_suffix_link.
  - unfold set_suffix_link. by rewrite lookup_ge_None_2 by lia.
Qed.

Lemma st_resolve_link h lnn w v : st (resolve_link h lnn w) v = st h v.
Proof.
  destruct lnn as [l|]; [|done]. cbn.
  destruct (decide (l < length h)%nat) as [Hl|Hl].
  - by rewrite st_set_suffix_link.
  - unfold set_suffix_link. by rewrite lookup_ge_None_2 by lia.
Qed.

Lemma en_resolve_link h lnn w v : en (resolve_link h lnn w) v = en h v.
Proof.
  destruct lnn as [l|]; [|done]. cbn.
  destruct (decide (l < length h)%nat) as [Hl|Hl].
  - by rewrite en_set_suffix_link.
  - unfold set_suffix_link. by rewrite lookup_ge_None_2 by lia.
Qed.

Lemma hd_resolve_link h g lnn w v : hd (resolve_link h lnn w) g v = hd h g v.
Proof. unfold hd. by rewrite en_resolve_link. Qed.

Lemma lnk_resolve_link_ne h lnn w v :
  lnn <> Some v -> lnk (resolve_link h lnn w) v = lnk h v.
Proof.
  intros Hne. destruct lnn as [l|]; [|done]. cbn.
  destruct (decide (l < length h)%nat) as [Hl|Hl].
  - rewrite lnk_set_suffix_link by done. rewrite decide_False; [done|congruence].
  - unfold set_suffix_link. by rewrite lookup_ge_None_2 by lia.
Qed.

Lemma wf_resolve T h g L (P Q : nat -> Prop) lnn w :
  wf T h g L P ->
  (forall v, P v -> lnn = Some v \/ Q v) ->
  (forall l, lnn = Some l ->
     (l < length h)%nat /\ l <> root /\ dep g w = dep g l - 1 /\
     agree T (hd h g w) (hd h g l + 1) (dep g w)) ->
  (w < length h)%nat -> (w = root \/ kids h w <> []) ->
  wf T (resolve_link h lnn w) g L Q.
Proof.
  intros Hwf HPQ Hl Hw Hwi. destruct lnn as [l|]; cbn.
  - destruct (Hl l eq_refl) as (Hlv & Hlr & Hd & Hag).
    eapply wf_mono; [|eapply (wf_set_link T h g L P Hwf _ l w); try done].
    + intros v [HP Hne]. destruct (HPQ v HP) as [[= ->]|]; done.
    + apply length_set_suffix_link.
    + intros v. by rewrite st_set_suffix_link.
    + intros v. by rewrite en_set_suffix_link.
    + intros v. by rewrite kids_set_suffix_link.
    + intros v. by rewrite lnk_set_suffix_link.
  - eapply wf_mono; [|exact Hwf]. intros v HP. by destruct (HPQ v HP).
Qed.

(** ** The invariant of the [while] loop *)

Definition pending (lnn : option nat) : nat -> Prop := fun v => lnn = Some v.

(** The state with which a round of the [for] loop enters the [while] loop. *)
Definition phase_start (s : build_state) : build_state :=
  mkState (heap s) (active_node s) (active_edge s) (active_length s)
          (remainder s + 1) None.

Section Build.
Context (T : str).
Let n := len T.

(** At the top of a pass in round [i], with [rem] suffixes to go: the
    suffixes that start before [L = i + 1 - rem] have their leaves, the
    active point spells [T[L : i]], and that string occurs earlier. *)
Record pass_inv (i : Z) (s : build_state) (g : shape) : Prop := {
  pi_wf : wf T (heap s) g (i + 1 - remainder s) (pending (last_new_node s));
  pi_rem : 1 <= remainder s <= i + 1;
  pi_an : (active_node s < length (heap s))%nat;
  pi_inner : active_node s = root \/ kids (heap s) (active_node s) <> [];
  pi_al : 0 <= active_length s;
  pi_depth : dep g (active_node s) + active_length s = remainder s - 1;
  pi_on : agree T (hd (heap s) g (active_node s)) (i + 1 - remainder s)
                (dep g (active_node s));
  pi_ae : 0 < active_length s -> active_edge s = i - active_length s;
  pi_occ : 1 < remainder s ->
    exists k, 0 <= k < i + 1 - remainder s /\
              agree T k (i + 1 - remainder s) (remainder s - 1);
  pi_lnn : forall l, last_new_node s = Some l ->
    (l < length (heap s))%nat /\ l <> root /\ dep g l = remainder s /\
    agree T (hd (heap s) g l) (i - remainder s) (remainder s) /\
    exists k, 0 <= k < i + 1 - remainder s /\
              agree T k (i + 1 - remainder s) (remainder s - 1) /\
              ch T (k + (remainder s - 1)) <> ch T i
}.

(** A leaf is deeper than any active point. *)
Lemma leaf_deep h g L P v :
  wf T h g L P -> (v < length h)%nat -> v <> root -> kids h v = [] ->
  n - L < dep g v.
Proof.
  intros Hwf Hv Hne Hk.
  destruct (wf_node _ _ _ _ _ Hwf v Hv Hne) as (?&?&?&?&?&?&Hhd&?&Hend).
  specialize (Hend Hk). unfold hd in Hhd. lia.
Qed.

(** Inside an edge the string goes on in one way only. *)
Lemma edge_one_way h g L P nx D k :
  wf T h g L P -> 0 < D -> loc h g nx D -> D < dep g nx ->
  0 <= k < L -> k + D < n ->
  agree T k (hd h g nx) D ->
  ch T (k + D) = ch T (hd h g nx + D).
Proof.
  intros Hwf HD Hloc Hlt Hk Hn Hag.
  destruct (occurs_located T h g L P Hwf k k (D + 1)) as (v & Hlv & Hagv);
    [done|lia|fold n; lia|apply agree_refl|].
  destruct (loc_prefix T h g L P Hwf v (D + 1) D) as (v' & Hlv' & Hanc & Hagv');
    [done|lia|].
  assert (v' = nx) as ->.
  { apply (loc_unique T h g L P Hwf D); [done..|].
    eapply agree_trans; [exact Hagv'|].
    eapply agree_trans; [eapply agree_le; [|exact Hagv]; lia|done]. }
  destruct Hlv as (Hv & Hvr & HvD).
  destruct (decide (nx = v)) as [->|Hne].
  - symmetry. apply Hagv. lia.
  - destruct (anc_proper T h g L P Hwf nx v Hanc Hv Hne) as (_ & Hle). lia.
Qed.

Section Pass.
Context (i : Z) (h : store) (an : nat) (ae al rem : Z) (lnn : option nat).
Context (g : shape).
Context (Hi : 0 <= i < n).
Context (Hinv : pass_inv i (mkState h an ae al rem lnn) g).
Let L := i + 1 - rem.
Let D := rem - 1.

Lemma pass_wf : wf T h g L (pending lnn).
Proof. exact (pi_wf _ _ _ Hinv). Qed.

Lemma pass_bounds :
  1 <= rem <= i + 1 /\ 0 <= al /\ 0 <= dep g an /\ dep g an + al = D /\
  0 <= L /\ L + D = i /\ (an < length h)%nat.
Proof.
  destruct Hinv as [Hwf Hrem Han Hin Hal Hdep Hon Hae Hocc Hlnn]. cbn in *.
  pose proof (dep_nonneg T h g _ _ Hwf an Han). unfold L, D. lia.
Qed.

(** When the active point is inside an edge, that edge exists. *)
Lemma edge_exists :
  0 < al -> exists nx, dict_get (kids h an) (ch T (i - al)) = Some nx.
Proof.
  intros Hpos. pose proof pass_bounds as (Hrem & Hal & Hd0 & Hdep & HL & HLD & Han).
  destruct Hinv as [Hwf _ _ _ _ _ Hon _ Hocc _]. cbn in *.
  destruct Hocc as (k & Hk & Hag); [lia|].
  assert (located T h g L D) as Hloc.
  { eapply occurs_located; [exact Hwf|exact Hk|unfold D; lia| |exact Hag].
    fold n. unfold D. lia. }
  destruct (walk T h g _ _ Hwf an L D) as (nx & Hget & _); [done|lia|done..|].
  exists nx. replace (i - al) with (L + dep g an) by lia. done.
Qed.

(** What is known of the edge the active point is on. *)
Lemma edge_facts nx :
  dict_get (kids h an) (ch T (i - al)) = Some nx ->
  (nx < length h)%nat /\ nx <> root /\ par g nx = an /\
  0 <= st h nx < en h nx /\ en h nx <= n /\
  dep g nx = dep g an + (en h nx - st h nx) /\
  0 <= hd h g nx < L /\
  agree T (hd h g nx) L (Z.min D (dep g nx)) /\
  (kids h nx = [] -> en h nx = n) /\
  ch T (st h nx) = ch T (i - al).
Proof.
  intros Hget.
  pose proof pass_bounds as (Hrem & Hal & Hd0 & Hdep & HL & HLD & Han).
  destruct Hinv as [Hwf _ _ _ _ _ Hon _ Hocc _]. cbn in *.
  destruct (wf_child _ _ _ _ _ Hwf an _ nx Han Hget) as (Hx & Hxr & Hpar & Hkey).
  destruct (wf_node _ _ _ _ _ Hwf nx Hx Hxr) as (X1&X2&X3&X4&X5&X6&X7&X8&X9).
  rewrite Hpar in *.
  repeat split; try done; try lia.
  destruct (decide (al = 0)) as [Hz|Hnz].
  - rewrite Z.min_l by (unfold D; lia).
    replace D with (dep g an) by lia.
    by eapply agree_trans.
  - destruct Hocc as (k & Hk & Hag); [lia|].
    assert (located T h g L D) as Hloc.
    { eapply occurs_located; [exact Hwf|exact Hk|unfold D; lia| |exact Hag].
      fold n. unfold D. lia. }
    destruct (walk T h g _ _ Hwf an L D) as (nx' & Hget' & _ & _ & _ & Hagx & _);
      [done|lia|done..|].
    replace (L + dep g an) with (i - al) in Hget' by lia.
    rewrite Hget in Hget'. by injection Hget' as <-.
Qed.

Lemma active_not_pending l : lnn = Some l -> l <> an.
Proof.
  intros Hl. pose proof pass_bounds as (Hrem & Hal & Hd0 & Hdep & _).
  destruct (pi_lnn _ _ _ Hinv l Hl) as (_ & _ & Hdl & _). cbn in Hdl.
  intros ->. unfold D in Hdep. lia.
Qed.

(** The active node, when it is not the root, has its suffix link. *)
Lemma active_link :
  an <> root ->
  exists w, lnk h an = Some w /\ (w < length h)%nat /\
    (w = root \/ kids h w <> []) /\ dep g w = dep g an - 1 /\
    agree T (hd h g w) (hd h g an + 1) (dep g w).
Proof.
  intros Hr. pose proof pass_bounds as (_ & _ & _ & _ & _ & _ & Han).
  pose proof pass_wf as Hwf.
  destruct (lnk h an) as [w|] eqn:E.
  - exists w. split; [done|]. by apply (wf_link _ _ _ _ _ Hwf an w).
  - exfalso. destruct (pi_inner _ _ _ Hinv) as [?|Hk]; [done|]. cbn in Hk.
    pose proof (wf_nolink _ _ _ _ _ Hwf an Han Hr Hk E) as Hp.
    by eapply active_not_pending.
Qed.

(** Lines 48-52: the active point moves over a whole edge. *)
Lemma pass_walk nx :
  dict_get (kids h an) (ch T (i - al)) = Some nx ->
  en h nx - st h nx <= al ->
  pass_inv i (mkState h nx (i - al + (en h nx - st h nx))
                      (al - (en h nx - st h nx)) rem lnn) g.
Proof.
  intros Hget Hle.
  pose proof pass_bounds as (Hrem & Hal & Hd0 & Hdep & HL & HLD & Han).
  destruct (edge_facts nx Hget) as (Hx&Hxr&Hpar&Hst&Hen&Hdx&Hhd&Hag&Hleaf&Hkey).
  pose proof pass_wf as Hwf.
  destruct Hinv as [_ _ _ _ _ _ Hon Hae Hocc Hlnn]. cbn in *.
  split; cbn; try done; try lia.
  - right. intros Hk.
    pose proof (leaf_deep h g _ _ nx Hwf Hx Hxr Hk). fold n in Hi.
    unfold L, D in *. lia.
  - fold L. rewrite Z.min_r in Hag by lia. done.
Qed.

(** Lines 54-60: the next symbol of the edge is [T[i]]. *)
Lemma pass_rule3 nx :
  dict_get (kids h an) (ch T (i - al)) = Some nx ->
  al < en h nx - st h nx ->
  ch T (st h nx + al) = ch T i ->
  pass_inv (i + 1)
    (phase_start (mkState (resolve_link h lnn an) an (i - al) (al + 1)
                          rem None)) g /\
  exists q, 0 <= q < i /\ ch T q = ch T i.
Proof.
  intros Hget Hlt Hc.
  pose proof pass_bounds as (Hrem & Hal & Hd0 & Hdep & HL & HLD & Han).
  destruct (edge_facts nx Hget) as (Hx&Hxr&Hpar&Hst&Hen&Hdx&Hhd&Hag&Hleaf&Hkey).
  pose proof pass_wf as Hwf.
  rewrite Z.min_l in Hag by lia.
  assert (st h nx + al = hd h g nx + D) as Hq by (unfold hd; lia).
  split; [|exists (st h nx + al); split; [lia|done]].
  assert (lnn <> None -> al = 0) as Hal0.
  { destruct lnn as [l|] eqn:El; [intros _|done].
    destruct (decide (al = 0)) as [|Hnz]; [done|]. exfalso.
    destruct (pi_lnn _ _ _ Hinv l eq_refl) as (_ & _ & _ & _ & k & Hk & Hagk & Hne).
    cbn in *. fold L D in Hk, Hagk, Hne. apply Hne.
    rewrite <- Hc, Hq.
    fold n in Hi.
    apply (edge_one_way h g L _ nx D k Hwf); try done; try lia.
    - repeat split; [done..|rewrite Hpar; lia|lia].
    - eapply agree_trans; [exact Hagk|by apply agree_sym]. }
  destruct Hinv as [_ _ _ Hin _ _ Hon Hae Hocc Hlnn]. cbn in *.
  split; cbn; try done; try lia.
  - replace (i + 1 + 1 - (rem + 1)) with L by (unfold L; lia).
    eapply wf_resolve; [exact Hwf| | |done|done].
    + intros v Hv. by left.
    + intros l Hl. destruct (Hlnn l Hl) as (Hlv & Hlr & Hdl & Hagl & _).
      specialize (Hal0 ltac:(congruence)).
      repeat split; [done..|lia|].
      fold L in Hon. apply agree_sym.
      eapply agree_trans; [|apply agree_sym; exact Hon].
      apply agree_tail in Hagl.
      replace (i - rem + 1) with L in Hagl by (unfold L; lia).
      eapply agree_le; [|exact Hagl]. lia.
  - by rewrite length_resolve_link.
  - by rewrite kids_resolve_link.
  - rewrite hd_resolve_link.
    replace (i + 1 + 1 - (rem + 1)) with L by (unfold L; lia). done.
  - intros _. exists (hd h g nx).
    replace (i + 1 + 1 - (rem + 1)) with L by (unfold L; lia).
    split; [done|]. replace (rem + 1 - 1) with (D + 1) by (unfold D; lia).
    apply agree_snoc; [unfold D; lia|done|].
    rewrite <- Hq, Hc. f_equal. lia.
Qed.

(** Lines 37-42 and 74-80: no edge for [T[i]] at the active node. *)
Lemma pass_leaf :
  dict_get (kids h an) (ch T (i - al)) = None ->
  let h' := resolve_link (leaf_store h an (ch T i) i n) lnn an in
  let g' := mkShape (fupd (dep g) (length h) (dep g an + n - i))
                    (fupd (par g) (length h) an) in
  al = 0 /\ (an < length h')%nat /\
  ((rem = 1 /\ an = root /\ lnk h' an = None /\
    pass_inv (i + 1) (phase_start (mkState h' root i 0 0 None)) g') \/
   (1 < rem /\ an <> root /\ exists w, lnk h' an = Some w /\
    pass_inv i (mkState h' w i 0 (rem - 1) None) g')).
Proof.
  intros Hget h' g'.
  pose proof pass_bounds as (Hrem & Hal & Hd0 & Hdep & HL & HLD & Han).
  pose proof pass_wf as Hwf.
  assert (al = 0) as Hz.
  { destruct (decide (al = 0)) as [|Hnz]; [done|].
    destruct edge_exists as (nx & Hnx); [lia|congruence]. }
  replace (i - al) with i in Hget by lia.
  set (h2 := leaf_store h an (ch T i) i n) in *.
  assert (length h2 = S (length h)) as Hlen2 by by apply leaf_store_length.
  assert (length h' = S (length h)) as Hlen'.
  { unfold h'. by rewrite length_resolve_link. }
  assert (forall v, (v < length h)%nat -> dep g' v = dep g v) as Hdep'.
  { intros v Hv. cbn. unfold fupd. rewrite decide_False; [done|lia]. }
  assert (forall v, (v < length h)%nat -> hd h2 g' v = hd h g v) as Hhd2.
  { intros v Hv. unfold hd. rewrite Hdep' by done. unfold h2.
    rewrite leaf_store_en by done. rewrite decide_False; [done|lia]. }
  assert (forall v, (v < length h)%nat -> hd h' g' v = hd h g v) as Hhd'.
  { intros v Hv. unfold h'. rewrite hd_resolve_link. by apply Hhd2. }
  assert (kids h2 an <> []) as Hk2.
  { unfold h2. rewrite leaf_store_kids_u by done. apply dict_set_not_nil. }
  pose proof Hinv as [_ _ _ Hin _ _ Hon Hae Hocc Hlnn].
  cbn in Hin, Hon, Hae, Hocc, Hlnn.
  fold L in Hon, Hocc, Hlnn.
  assert (wf T h2 g' (L + 1) (pending lnn)) as Hwf2.
  { apply (wf_add_leaf T h g L _ Hwf h2 an i); try done; try lia.
    - apply leaf_store_st; done.
    - apply leaf_store_en; done.
    - apply leaf_store_lnk; done.
    - apply leaf_store_kids_lf; done.
    - apply leaf_store_kids; done.
    - intros c. unfold h2. rewrite leaf_store_kids_u by done.
      apply dict_get_set.
    - unfold h2. rewrite leaf_store_kids_u by done.
      apply dict_set_NoDup. by apply (wf_keys _ _ _ _ _ Hwf). }
  assert (wf T h' g' (L + 1) (pending None)) as Hwf'.
  { eapply wf_resolve; [exact Hwf2| | |lia|by right].
    - intros v Hv. by left.
    - intros l Hl. destruct (Hlnn l Hl) as (Hlv & Hlr & Hdl & Hagl & _).
      rewrite !Hdep', !Hhd2 by done.
      repeat split; [lia|done|lia|].
      apply agree_sym. eapply agree_trans; [|apply agree_sym; exact Hon].
      apply agree_tail in Hagl.
      replace (i - rem + 1) with L in Hagl by (unfold L; lia).
      eapply agree_le; [|exact Hagl]. lia. }
  split; [done|]. split; [lia|].
  destruct (decide (rem = 1)) as [Hr1|Hr1].
  - left. assert (an = root) as -> by (apply (dep_zero_root T h g _ _ Hwf); [done|lia]).
    destruct (wf_root _ _ _ _ _ Hwf') as (_ & Hd0' & Hl0).
    do 3 (split; [done|]).
    split; cbn [phase_start heap active_node active_edge active_length
                remainder last_new_node]; try done; try lia.
    + replace (i + 1 + 1 - (0 + 1)) with (L + 1) by (unfold L; lia). done.
    + rewrite Hd0'. intros m Hm. lia.
  - right. split; [lia|].
    assert (an <> root) as Hanr.
    { intros ->. destruct (wf_root _ _ _ _ _ Hwf) as (_ & ? & _). lia. }
    split; [done|].
    destruct (active_link Hanr) as (w & Hlw & Hwv & _).
    assert (lnk h' an = Some w) as Hlw'.
    { unfold h'. rewrite lnk_resolve_link_ne.
      - fold h2. unfold h2. rewrite leaf_store_lnk by done.
        rewrite decide_False; [done|lia].
      - intros Hl. by eapply active_not_pending. }
    exists w. split; [done|].
    destruct (wf_link _ _ _ _ _ Hwf' an w ltac:(lia) Hlw') as (Hw & Hwi & Hdw & Hagw).
    rewrite (Hhd' an) in Hagw by done.
    pose proof (Hdep' w Hwv) as Hdw1. pose proof (Hdep' an Han) as Hda1.
    split; cbn [heap active_node active_edge active_length
                remainder last_new_node]; try done; try lia.
    + replace (i + 1 - (rem - 1)) with (L + 1) by (unfold L; lia). done.
    + replace (i + 1 - (rem - 1)) with (L + 1) by (unfold L; lia).
      eapply agree_trans; [exact Hagw|].
      apply agree_tail in Hon. eapply agree_le; [|exact Hon]. lia.
    + intros Hr. destruct Hocc as (k & Hk & Hagk); [lia|].
      exists (k + 1).
      replace (i + 1 - (rem - 1)) with (L + 1) by (unfold L; lia).
      split; [lia|]. apply agree_tail in Hagk.
      eapply agree_le; [|exact Hagk]. lia.
Qed.

(** Lines 62-80: the edge goes on with another symbol and is split. *)
Lemma pass_split nx :
  dict_get (kids h an) (ch T (i - al)) = Some nx ->
  al < en h nx - st h nx ->
  ch T (st h nx + al) <> ch T i ->
  let s := st h nx in
  let sp := length h in
  let h' := resolve_link
              (split_store h an nx (ch T (i - al)) (ch T i)
                           (ch T (s + al)) s al i n) lnn sp in
  0 < al /\ (an < length h')%nat /\
  ((an = root /\
    exists g', pass_inv i (mkState h' root (i - (rem - 1) + 1) (al - 1)
                                  (rem - 1) (Some sp)) g') \/
   (an <> root /\ exists w, lnk h' an = Some w /\
    exists g', pass_inv i (mkState h' w (i - al) al (rem - 1) (Some sp)) g')).
Proof.
  intros Hget Hlt Hc s sp h'.
  pose proof pass_bounds as (Hrem & Hal & Hd0 & Hdep & HL & HLD & Han).
  destruct (edge_facts nx Hget) as (Hx&Hxr&Hpar&Hst&Hen&Hdx&Hhd&Hag&Hleaf&Hkey).
  pose proof pass_wf as Hwf.
  fold s in Hst, Hdx, Hkey, Hc, Hlt.
  assert (0 < al) as Hpos.
  { destruct (decide (al = 0)) as [Hz|]; [|lia]. exfalso. apply Hc.
    rewrite Hz, Z.add_0_r, Hkey. f_equal. lia. }
  rewrite Z.min_l in Hag by lia.
  assert (s + al = hd h g nx + D) as Hq by (unfold hd; lia).
  pose proof Hinv as [_ _ _ Hin _ _ Hon Hae Hocc Hlnn].
  cbn in Hin, Hon, Hae, Hocc, Hlnn. fold L in Hon, Hocc, Hlnn.
  set (c0 := ch T (i - al)) in *. set (ci := ch T i) in *.
  set (c2 := ch T (s + al)) in *.
  set (hs := split_only h an nx c0 c2 s al).
  set (h6 := split_store h an nx c0 ci c2 s al i n) in *.
  assert (length hs = S (length h)) as Hlens by by apply split_only_length.
  assert (length h6 = S (S (length h))) as Hlen6.
  { unfold h6. rewrite split_store_length by done. by rewrite split_only_length. }
  assert (length h' = S (S (length h))) as Hlen'.
  { unfold h'. by rewrite length_resolve_link. }
  (* the split *)
  set (gs := mkShape (fupd (dep g) sp (dep g an + al))
                     (fupd (fupd (par g) nx sp) sp an)).
  assert (wf T hs gs L (fun v => pending lnn v \/ v = sp) /\
          hd hs gs sp = hd h g nx) as [Hwfs Hhds].
  { pose proof (wf_split T h g L _ Hwf hs nx al) as Hs. cbv zeta in Hs.
    rewrite Hpar in Hs. apply Hs; try done.
    - apply split_only_st; done.
    - apply split_only_en; done.
    - apply split_only_lnk; done.
    - intros v Hva Hvs. unfold hs. rewrite split_only_kids by done.
      by rewrite !decide_False.
    - intros c. unfold hs. rewrite split_only_kids by done.
      rewrite decide_False by lia. rewrite decide_True by done.
      rewrite dict_get_set. fold s. by rewrite <- Hkey.
    - unfold hs. rewrite split_only_kids by done.
      rewrite decide_False by lia. rewrite decide_True by done.
      apply dict_set_NoDup. by apply (wf_keys _ _ _ _ _ Hwf).
    - intros c. unfold hs. rewrite split_only_kids by done.
      rewrite decide_True by done. cbn. fold s c2.
      rewrite eqb_ascii_decide.
      destruct (decide (c = c2)) as [->|Hne].
      + by rewrite bool_decide_eq_true_2.
      + by rewrite bool_decide_eq_false_2.
    - unfold hs. rewrite split_only_kids by done.
      rewrite decide_True by done. cbn. apply NoDup_singleton. }
  (* the leaf *)
  set (g' := mkShape (fupd (dep gs) (length hs) (dep gs sp + len T - i))
                     (fupd (par gs) (length hs) sp)).
  assert (dep gs sp = dep g an + al) as Hdsp.
  { cbn. unfold fupd. by rewrite decide_True. }
  assert (kids hs sp = [(c2, nx)]) as Hkss.
  { unfold hs. rewrite split_only_kids by done. by rewrite decide_True. }
  assert (wf T h6 g' (L + 1) (fun v => pending lnn v \/ v = sp)) as Hwf6.
  { apply (wf_add_leaf T hs gs L _ Hwfs h6 sp i); try done; try lia.
    - right. by rewrite Hkss.
    - rewrite Hhds, Hdsp. by replace (dep g an + al) with D by lia.
    - rewrite Hkss. cbn. rewrite eqb_ascii_decide.
      by rewrite bool_decide_eq_false_2.
    - intros v. rewrite Hlens. apply split_store_st; done.
    - intros v. rewrite Hlens. apply split_store_en; done.
    - intros v. rewrite Hlens. apply split_store_lnk; done.
    - unfold h6. rewrite split_store_kids by done. rewrite Hlens.
      by rewrite decide_True.
    - intros v Hv1 Hv2. unfold h6. rewrite split_store_kids by done.
      rewrite Hlens in Hv2. by rewrite !decide_False.
    - intros c. unfold h6. rewrite split_store_kids by done.
      rewrite decide_False by lia. rewrite decide_True by done.
      rewrite Hkss, dict_get_set. cbn. rewrite Hlens.
      rewrite !eqb_ascii_decide. fold ci.
      destruct (decide (c = c2)) as [->|Hne2].
      + rewrite decide_False by done. by rewrite bool_decide_eq_true_2.
      + destruct (decide (c = ci)) as [->|Hnei].
        * by rewrite bool_decide_eq_true_2.
        * rewrite !bool_decide_eq_false_2; done.
    - unfold h6. rewrite split_store_kids by done.
      rewrite decide_False by lia. rewrite decide_True by done.
      apply dict_set_NoDup. cbn. apply NoDup_singleton. }
  assert (forall v, (v < length h)%nat -> dep g' v = dep g v) as Hdep'.
  { intros v Hv. cbn. unfold fupd. rewrite !decide_False; [done|lia|lia]. }
  assert (dep g' sp = dep g an + al) as Hdsp'.
  { cbn. unfold fupd. rewrite decide_False by lia. by rewrite !decide_True. }
  assert (forall v, (v < length h)%nat -> hd h' g' v = hd h g v) as Hhd'.
  { intros v Hv. unfold h'. rewrite hd_resolve_link. unfold hd.
    rewrite Hdep' by done. unfold h6. rewrite split_store_en by done.
    rewrite decide_False by lia. rewrite split_only_en by done.
    rewrite decide_False; [done|lia]. }
  assert (hd h' g' sp = hd h g nx) as Hhdsp'.
  { unfold h'. rewrite hd_resolve_link. unfold hd.
    rewrite Hdsp'. unfold h6. rewrite split_store_en by done.
    rewrite decide_False by lia. rewrite split_only_en by done.
    rewrite decide_True by done. fold s. lia. }
  assert (wf T h' g' (L + 1) (pending (Some sp))) as Hwf'.
  { eapply wf_resolve; [exact Hwf6| | |lia|].
    - intros v [Hv| ->]; [by left|by right].
    - intros l Hl. destruct (Hlnn l Hl) as (Hlv & Hlr & Hdl & Hagl & _).
      pose proof (Hhd' l Hlv) as Hhl. pose proof Hhdsp' as Hhs.
      unfold h' in Hhl, Hhs. rewrite hd_resolve_link in Hhl, Hhs.
      rewrite Hhl, Hhs, Hdsp', (Hdep' l) by done.
      repeat split; [lia|done|lia|].
      replace (dep g an + al) with D by lia.
      eapply agree_trans; [exact Hag|]. apply agree_sym.
      apply agree_tail in Hagl.
      replace (i - rem + 1) with L in Hagl by (unfold L; lia).
      eapply agree_le; [|exact Hagl]. unfold D. lia.
    - right. unfold h6. rewrite split_store_kids by done.
      rewrite decide_False by lia. rewrite decide_True by done.
      apply dict_set_not_nil. }
  (* the pending node of the next pass *)
  assert ((sp < length h')%nat /\ sp <> root /\ dep g' sp = rem - 1 /\
          agree T (hd h' g' sp) (i - (rem - 1)) (rem - 1) /\
          exists k, 0 <= k < i + 1 - (rem - 1) /\
            agree T k (i + 1 - (rem - 1)) (rem - 1 - 1) /\
            ch T (k + (rem - 1 - 1)) <> ch T i) as Hpend.
  { rewrite Hhdsp', Hdsp'.
    destruct (wf_root _ _ _ _ _ Hwf) as (Hlen0 & _).
    repeat split; [lia|unfold sp, root; lia|unfold D in *; lia| |].
    - replace (i - (rem - 1)) with L by (unfold L; lia). done.
    - exists (hd h g nx + 1).
      replace (i + 1 - (rem - 1)) with (L + 1) by (unfold L; lia).
      split; [lia|]. split.
      + apply agree_tail in Hag. eapply agree_le; [|exact Hag]. unfold D. lia.
      + replace (hd h g nx + 1 + (rem - 1 - 1)) with (s + al)
          by (unfold D in *; lia). done. }
  assert (1 < rem) as Hrem1 by (unfold D in *; lia).
  assert (exists k, 0 <= k < i + 1 - (rem - 1) /\
            agree T k (i + 1 - (rem - 1)) (rem - 1 - 1)) as Hocc'.
  { destruct Hocc as (k & Hk & Hagk); [done|]. exists (k + 1).
    replace (i + 1 - (rem - 1)) with (L + 1) by (unfold L; lia).
    split; [lia|]. apply agree_tail in Hagk.
    eapply agree_le; [|exact Hagk]. lia. }
  split; [done|]. split; [lia|].
  destruct (decide (an = root)) as [Hanr|Hanr].
  - left. split; [done|]. exists g'.
    destruct (wf_root _ _ _ _ _ Hwf') as (_ & Hd0' & _).
    rewrite Hanr in Hdep.
    destruct (wf_root _ _ _ _ _ Hwf) as (_ & Hdr & _).
    split; cbn [heap active_node active_edge active_length
                remainder last_new_node]; try done; try lia.
    + replace (i + 1 - (rem - 1)) with (L + 1) by (unfold L; lia). done.
    + rewrite Hd0'. intros m Hm. lia.
    + intros l [= <-]. done.
  - right. split; [done|].
    destruct (active_link Hanr) as (w & Hlw & Hwv & _).
    assert (lnk h' an = Some w) as Hlw'.
    { unfold h'. rewrite lnk_resolve_link_ne.
      - unfold h6. rewrite split_store_lnk by done.
        rewrite decide_False by lia. rewrite split_only_lnk by done.
        rewrite decide_False; [done|lia].
      - intros Hl. by eapply active_not_pending. }
    exists w. split; [done|]. exists g'.
    destruct (wf_link _ _ _ _ _ Hwf' an w ltac:(lia) Hlw') as (Hw & Hwi & Hdw & Hagw).
    rewrite (Hhd' an) in Hagw by done.
    pose proof (Hdep' w Hwv) as Hdw1. pose proof (Hdep' an Han) as Hda1.
    split; cbn [heap active_node active_edge active_length
                remainder last_new_node]; try done; try lia.
    + replace (i + 1 - (rem - 1)) with (L + 1) by (unfold L; lia). done.
    + replace (i + 1 - (rem - 1)) with (L + 1) by (unfold L; lia).
      eapply agree_trans; [exact Hagw|].
      apply agree_tail in Hon. eapply agree_le; [|exact Hon]. lia.
    + intros l [= <-]. done.
Qed.
End Pass.

(** What a pass of the loop establishes. *)
Definition post (i : Z) (s : build_state) (r : ctl) (s' : build_state) : Prop :=
  match r with
  | Next =>
      remainder s' + active_length s' < remainder s + active_length s /\
      ((1 <= remainder s' /\ exists g', pass_inv i s' g') \/
       (remainder s' = 0 /\
        exists g', pass_inv (i + 1) (phase_start s') g'))
  | Brk =>
      (exists g', pass_inv (i + 1) (phase_start s') g') /\
      exists q, 0 <= q < i /\ ch T q = ch T i
  end.

Lemma bind_Ok {A B} (a : A) (k : A -> result B) : (Ok a ≫= k) = k a.
Proof. done. Qed.

(** One pass of the loop raises nothing and keeps the invariant. *)
Lemma extend_ok i s g :
  0 <= i < n -> pass_inv i s g ->
  exists r s', extend T n i s = Ok (r, s') /\ post i s r s'.
Proof.
  intros Hi Hinv. destruct s as [h an ae al rem lnn].
  pose proof (pass_bounds i h an ae al rem lnn g Hinv)
    as (Hrem & Hal & Hd0 & Hdep & HL & HLD & Han).
  pose proof (pass_wf i h an ae al rem lnn g Hinv) as Hwf.
  unfold extend. cbn [heap active_node active_edge active_length
                      remainder last_new_node].
  assert ((if al =? 0 then i else ae) = i - al) as ->.
  { destruct (al =? 0) eqn:E; [lia|].
    apply (pi_ae _ _ _ Hinv). cbn. lia. }
  rewrite (py_index_ch T (i - al)) by (fold n; lia). rewrite bind_Ok.
  rewrite (deref_node_at h an) by done. rewrite bind_Ok.
  fold (kids h an).
  destruct (dict_get (kids h an) (ch T (i - al))) as [nx|] eqn:Hget.
  - destruct (edge_facts i h an ae al rem lnn g Hi Hinv nx Hget)
      as (Hx&Hxr&Hpar&Hst&Hen&Hdx&Hhd&Hag&Hleaf&Hkey).
    rewrite (deref_node_at h nx) by done. rewrite bind_Ok.
    fold (en h nx) (st h nx).
    destruct (al >=? en h nx - st h nx) eqn:Ewalk.
    { (* walk down *)
      eexists Next, _. split; [done|]. cbn. split; [lia|]. left.
      split; [lia|]. exists g.
      apply (pass_walk i h an ae al rem lnn g Hi Hinv nx Hget). lia. }
    rewrite (py_index_ch T (st h nx + al)) by (fold n; lia). rewrite bind_Ok.
    rewrite (py_index_ch T i) by (fold n; lia). rewrite bind_Ok.
    rewrite eqb_ascii_decide.
    destruct (decide (ch T (st h nx + al) = ch T i)) as [Hc|Hc].
    { (* rule 3 *)
      rewrite bool_decide_eq_true_2 by done.
      eexists Brk, _. split; [done|].
      destruct (pass_rule3 i h an ae al rem lnn g Hi Hinv nx Hget)
        as (Hinv' & Hq); [lia|done|].
      split; [by exists g|done]. }
    (* split *)
    rewrite bool_decide_eq_false_2 by done.
    cbn [alloc]. rewrite bind_Ok.
    destruct (pass_split i h an ae al rem lnn g Hi Hinv nx Hget)
      as (Hpos & Han' & Hcase); [lia|done|].
    cbv zeta in Han', Hcase.
    set (h' := resolve_link
                 (split_store h an nx (ch T (i - al)) (ch T i)
                    (ch T (st h nx + al)) (st h nx) al i n)
                 lnn (length h)) in *.
    match goal with
    | |- context [next_suffix _ ?hh _ _ _ _ _] => change hh with h'
    end.
    unfold next_suffix.
    destruct Hcase as [(Hr & g' & Hinv')|(Hr & w & Hlw & g' & Hinv')].
    + rewrite Hr. cbn [Nat.eqb root andb].
      replace (al >? 0) with true by lia.
      eexists Next, _. split; [done|]. cbn. split; [lia|]. left.
      split; [lia|]. by exists g'.
    + replace ((an =? root)%nat) with false
        by (symmetry; by apply Nat.eqb_neq).
      cbn [andb]. rewrite deref_node_at by done. rewrite bind_Ok.
      fold (lnk h' an). rewrite Hlw.
      eexists Next, _. split; [done|]. cbn. split; [lia|]. left.
      split; [lia|]. by exists g'.
  - (* new leaf *)
    cbn [alloc].
    destruct (pass_leaf i h an ae al rem lnn g Hi Hinv Hget)
      as (Hz & Han' & Hcase).
    cbv zeta in Han', Hcase.
    replace (ch T (i - al)) with (ch T i) by (f_equal; lia).
    fold (leaf_store h an (ch T i) i n).
    set (h' := resolve_link (leaf_store h an (ch T i) i n) lnn an) in *.
    unfold next_suffix.
    replace (al >? 0) with false by lia. rewrite andb_false_r.
    rewrite deref_node_at by done. rewrite bind_Ok.
    fold (lnk h' an).
    destruct Hcase as [(Hr & Hroot & Hl & Hinv')|(Hr & Hanr & w & Hlw & Hinv')].
    + rewrite Hl. eexists Next, _. split; [done|]. cbn. split; [lia|]. right.
      split; [lia|]. eexists. subst al rem.
      replace (1 - 1) with 0 by lia. replace (i - 0) with i by lia.
      exact Hinv'.
    + rewrite Hlw. eexists Next, _. split; [done|]. cbn. split; [lia|]. left.
      split; [lia|]. eexists. subst al.
      replace (i - 0) with i by lia. exact Hinv'.
Qed.

(** Between two rounds of the [for] loop. *)
Definition round_inv (i : Z) (s : build_state) : Prop :=
  exists g, pass_inv i (phase_start s) g.

(** The [while] loop ends, within [remainder + active_length] passes. *)
Lemma while_loop_ok fuel i s g :
  0 <= i < n -> pass_inv i s g ->
  (Z.to_nat (remainder s + active_length s) <= fuel)%nat ->
  exists s', while_loop fuel T n i s = Ok s' /\ round_inv (i + 1) s' /\
    (remainder s' = 0 \/ exists q, 0 <= q < i /\ ch T q = ch T i).
Proof.
  intros Hi. revert s g. induction fuel as [|fuel IH]; intros s g Hinv Hfuel.
  { pose proof (pi_rem _ _ _ Hinv). pose proof (pi_al _ _ _ Hinv). lia. }
  pose proof (pi_rem _ _ _ Hinv) as Hrem. pose proof (pi_al _ _ _ Hinv) as Hal.
  cbn [while_loop]. replace (remainder s >? 0) with true by lia.
  destruct (extend_ok i s g Hi Hinv) as (r & s' & -> & Hpost).
  rewrite bind_Ok. destruct r; cbn in Hpost.
  - destruct Hpost as (Hlt & [(Hr & g' & Hinv')|(Hr & Hround)]).
    + apply (IH s' g' Hinv'). pose proof (pi_al _ _ _ Hinv'). lia.
    + exists s'. split; [|split; [done|by left]].
      destruct fuel; cbn; replace (remainder s' >? 0) with false by lia; done.
  - destruct Hpost as (Hround & Hq). exists s'. split; [done|].
    split; [done|by right].
Qed.

(** One round of the [for] loop. *)
Lemma phase_ok fuel i s :
  0 <= i < n -> round_inv i s -> (2 * Z.to_nat n <= fuel)%nat ->
  exists s', phase fuel T n s i = Ok s' /\ round_inv (i + 1) s' /\
    (remainder s' = 0 \/ exists q, 0 <= q < i /\ ch T q = ch T i).
Proof.
  intros Hi (g & Hinv) Hfuel. unfold phase. fold (phase_start s).
  apply (while_loop_ok fuel i _ g Hi Hinv).
  pose proof (pi_rem _ _ _ Hinv). pose proof (pi_al _ _ _ Hinv).
  pose proof (pi_depth _ _ _ Hinv) as Hd.
  pose proof (dep_nonneg _ _ _ _ _ (pi_wf _ _ _ Hinv) _ (pi_an _ _ _ Hinv)).
  lia.
Qed.

(** The state before the first round. *)
Lemma round_inv_init : round_inv 0 (mkState [new_node (-1) (-1)] root (-1) 0 0 None).
Proof.
  exists (mkShape (fun _ => 0) (fun _ => root)).
  split; cbn; try done; try lia.
  - split; cbn.
    + split; [lia|done].
    + intros v Hv Hne. unfold root in *. lia.
    + intros v c w Hv. assert (v = 0%nat) as -> by lia. done.
    + intros v Hv. assert (v = 0%nat) as -> by lia. constructor.
    + intros j Hj. lia.
    + intros v w Hv. assert (v = 0%nat) as -> by lia. done.
    + intros v Hv Hne. unfold root in *. lia.
  - by left.
  - intros m Hm. lia.
Qed.

(** The whole [for] loop, from round [i] on. *)
Lemma for_range_ok fuel todo : forall i s,
  0 <= i -> i + Z.of_nat todo = n -> round_inv i s ->
  (2 * Z.to_nat n <= fuel)%nat ->
  exists s', for_range fuel T n s todo i = Ok s' /\ round_inv n s' /\
    ((0 < todo)%nat -> remainder s' = 0 \/
       exists q, 0 <= q < n - 1 /\ ch T q = ch T (n - 1)).
Proof.
  induction todo as [|todo IH]; intros i s Hi Hn Hround Hfuel.
  - exists s. cbn. replace n with i by lia. split; [done|]. split; [done|lia].
  - cbn [for_range].
    destruct (phase_ok fuel i s) as (s1 & -> & Hround1 & Hlast); [lia|done..|].
    rewrite bind_Ok.
    destruct (IH (i + 1) s1) as (s' & Hrun & Hround' & Hlast'); [lia|lia|done..|].
    exists s'. split; [done|]. split; [done|]. intros _.
    destruct todo as [|todo].
    + cbn in Hrun. injection Hrun as <-.
      replace (n - 1) with i by lia. done.
    + apply Hlast'. lia.
Qed.
End Build.

(** Construction raises nothing, and ends within [2 * len(text)] passes of
    the inner loop in every round. *)
Lemma build_suffix_tree_ok (T : str) (fuel : nat) :
  (2 * length T <= fuel)%nat ->
  exists s, for_range fuel T (len T) (mkState [new_node (-1) (-1)] root (-1) 0 0 None)
                      (length T) 0 = Ok s /\
            build_suffix_tree fuel T [new_node (-1) (-1)] = Ok (heap s) /\
            round_inv T (len T) s /\
            ((0 < length T)%nat -> remainder s = 0 \/
               exists q, 0 <= q < len T - 1 /\ ch T q = ch T (len T - 1)).
Proof.
  intros Hfuel.
  destruct (for_range_ok T fuel (length T) 0 _ ltac:(lia) ltac:(unfold len; lia)
              (round_inv_init T)) as (s & Hrun & Hround & Hlast).
  { unfold len. lia. }
  exists s. split; [done|]. split; [|done].
  unfold build_suffix_tree. cbv zeta. by rewrite Hrun.
Qed.

(** [T[a : a + d]] *)
Definition sub (T : str) (a d : Z) : str :=
  take (Z.to_nat d) (drop (Z.to_nat a) T).

Lemma py_slice_sub T a b :
  0 <= a <= b -> b <= len T -> py_slice T a b = sub T a (b - a).
Proof.
  intros Ha Hb. unfold py_slice, sub, clamp.
  replace (a <? 0) with false by lia. replace (b <? 0) with false by lia.
  by rewrite !Z.min_l by lia.
Qed.

Lemma sub_app T a d1 d2 :
  0 <= a -> 0 <= d1 -> 0 <= d2 ->
  sub T a (d1 + d2) = sub T a d1 ++ sub T (a + d1) d2.
Proof.
  intros Ha H1 H2. unfold sub.
  rewrite Z2Nat.inj_add by done. rewrite <- take_take_drop.
  f_equal. rewrite drop_drop. by rewrite Z2Nat.inj_add by done.
Qed.

Lemma sub_to_end T a : 0 <= a -> sub T a (len T - a) = drop (Z.to_nat a) T.
Proof.
  intros Ha. unfold sub. apply take_ge. rewrite length_drop. unfold len. lia.
Qed.

Lemma agree_sub T a b d :
  0 <= a -> 0 <= b -> a + d <= len T -> b + d <= len T ->
  agree T a b d -> sub T a d = sub T b d.
Proof.
  intros Ha Hb Had Hbd Hag. unfold sub, len in *. apply list_eq. intros k.
  destruct (decide (k < Z.to_nat d)%nat) as [Hk|Hk].
  - rewrite !lookup_take_lt, !lookup_drop by done.
    specialize (Hag (Z.of_nat k) ltac:(lia)). unfold ch in Hag.
    replace (Z.to_nat (a + Z.of_nat k)) with (Z.to_nat a + k)%nat in Hag by lia.
    replace (Z.to_nat (b + Z.of_nat k)) with (Z.to_nat b + k)%nat in Hag by lia.
    destruct (lookup_lt_is_Some_2 T (Z.to_nat a + k)) as [x Hx]; [lia|].
    destruct (lookup_lt_is_Some_2 T (Z.to_nat b + k)) as [y Hy]; [lia|].
    rewrite Hx, Hy in *. cbn in Hag. by subst.
  - by rewrite !lookup_take_ge by lia.
Qed.

(** Collecting with [for_each]. *)
Lemma for_each_collect {A B} (items : list A) (f : A -> result (list B))
    (Q : A -> list B -> Prop) (acc : list B) :
  (forall x, x ∈ items -> exists ls, f x = Ok ls /\ Q x ls) ->
  exists lss,
    for_each items acc (fun acc x => ls ← f x; Ok (acc ++ ls))
      = Ok (acc ++ concat lss) /\
    Forall2 Q items lss.
Proof.
  revert acc. induction items as [|x items IH]; intros acc Hf.
  - exists []. cbn. rewrite app_nil_r. split; [done|constructor].
  - destruct (Hf x) as (ls & Hx & HQ); [by left|].
    destruct (IH (acc ++ ls)) as (lss & Hrun & HF).
    { intros y Hy. apply Hf. by right. }
    exists (ls :: lss). cbn. rewrite Hx. cbn. rewrite Hrun.
    rewrite <- app_assoc. split; [done|by constructor].
Qed.

Lemma elem_of_concat_Forall2 {A B} (Q : A -> list B -> Prop) items lss l :
  Forall2 Q items lss -> l ∈ concat lss ->
  exists x ls, x ∈ items /\ Q x ls /\ l ∈ ls.
Proof.
  induction 1 as [|x ls items lss HQ HF IH]; cbn.
  - by intros ?%elem_of_nil.
  - rewrite elem_of_app. intros [Hl|Hl].
    + exists x, ls. split; [by left|done].
    + destruct (IH Hl) as (y & ls' & Hy & HQ' & Hl').
      exists y, ls'. split; [by right|done].
Qed.

Lemma concat_Forall2_elem_of {A B} (Q : A -> list B -> Prop) items lss x l :
  Forall2 Q items lss -> x ∈ items -> (forall ls, Q x ls -> l ∈ ls) ->
  l ∈ concat lss.
Proof.
  induction 1 as [|y ls items lss HQ HF IH]; cbn; intros Hx Hl.
  - by apply elem_of_nil in Hx.
  - rewrite elem_of_app. apply elem_of_cons in Hx as [->|Hx].
    + left. by apply Hl.
    + right. by apply IH.
Qed.

Lemma NoDup_concat_Forall2 {A B K} (key : A -> K) (Q : A -> list B -> Prop)
    items lss :
  NoDup (key <$> items) -> Forall2 Q items lss ->
  (forall x ls, Q x ls -> NoDup ls) ->
  (forall x ls x' ls' l, Q x ls -> Q x' ls' -> l ∈ ls -> l ∈ ls' ->
     key x = key x') ->
  NoDup (concat lss).
Proof.
  intros Hnd HF Hnds Hdisj. induction HF as [|x ls items lss HQ HF IH]; cbn.
  - constructor.
  - cbn in Hnd. apply NoDup_cons in Hnd as [Hx Hnd].
    apply NoDup_app. split; [by eapply Hnds|]. split; [|by apply IH].
    intros l Hl Hl'.
    destruct (elem_of_concat_Forall2 Q items lss l HF Hl') as (y & ls' & Hy & HQ' & Hly).
    apply Hx. rewrite (Hdisj x ls y ls' l HQ HQ' Hl Hly).
    apply list_elem_of_fmap. by exists y.
Qed.

Section Leaves.
Context (T : str).
Let n := len T.
Context (h : store) (g : shape) (L : Z) (P : nat -> Prop).
Context (Hwf : wf T h g L P).

(** The string spelled from the root to [v]. *)
Definition str_of (v : nat) : str := sub T (hd h g v) (dep g v).

Lemma node_range v :
  (v < length h)%nat -> v <> root ->
  0 <= hd h g v /\ hd h g v + dep g v <= n /\ 0 < dep g v.
Proof.
  intros Hv Hne.
  destruct (wf_node _ _ _ _ _ Hwf v Hv Hne) as (?&?&?&?&?&?&?&?&?).
  unfold hd in *. fold n. lia.
Qed.

Lemma str_of_root : str_of root = [].
Proof.
  unfold str_of, sub. destruct (wf_root _ _ _ _ _ Hwf) as (_ & -> & _). done.
Qed.

Lemma str_of_child v c u :
  (v < length h)%nat -> dict_get (kids h v) c = Some u ->
  str_of u = str_of v ++ py_slice T (st h u) (en h u).
Proof.
  intros Hv Hget.
  destruct (wf_child _ _ _ _ _ Hwf v c u Hv Hget) as (Hu & Hur & Hpar & _).
  destruct (wf_node _ _ _ _ _ Hwf u Hu Hur) as (X1&X2&X3&X4&X5&X6&X7&X8&X9).
  rewrite Hpar in *. fold n in X2.
  rewrite py_slice_sub by (fold n; lia). unfold str_of.
  rewrite X5. rewrite sub_app by lia.
  replace (hd h g u + dep g v) with (st h u) by (unfold hd; lia).
  f_equal. destruct (decide (v = root)) as [->|Hvr].
  - destruct (wf_root _ _ _ _ _ Hwf) as (_ & -> & _). done.
  - destruct (node_range v Hv Hvr) as (? & ? & ?).
    apply agree_sub; try done; try lia. unfold hd in *. fold n. lia.
Qed.

Lemma str_of_leaf w :
  (w < length h)%nat -> w <> root -> kids h w = [] ->
  str_of w = drop (Z.to_nat (hd h g w)) T.
Proof.
  intros Hw Hne Hk.
  destruct (wf_node _ _ _ _ _ Hwf w Hw Hne) as (?&?&?&?&?&?&?&?&Hend).
  specialize (Hend Hk). unfold str_of.
  replace (dep g w) with (len T - hd h g w) by (unfold hd; lia).
  apply sub_to_end. lia.
Qed.

(** Two leaves with the same string are the same leaf. *)
Lemma leaf_str_inj w w' :
  (w < length h)%nat -> w <> root -> kids h w = [] ->
  (w' < length h)%nat -> w' <> root -> kids h w' = [] ->
  str_of w = str_of w' -> w = w'.
Proof.
  intros Hw Hne Hk Hw' Hne' Hk' Heq.
  rewrite !str_of_leaf in Heq by done.
  destruct (wf_node _ _ _ _ _ Hwf w Hw Hne) as (?&?&?&?&?&?&?&?&Hend).
  destruct (wf_node _ _ _ _ _ Hwf w' Hw' Hne') as (?&?&?&?&?&?&?&?&Hend').
  specialize (Hend Hk). specialize (Hend' Hk').
  destruct (node_range w Hw Hne) as (? & ? & ?).
  destruct (node_range w' Hw' Hne') as (? & ? & ?).
  assert (hd h g w = hd h g w') as Hhd.
  { apply (f_equal length) in Heq. rewrite !length_drop in Heq.
    unfold n, len in *. lia. }
  assert (dep g w = dep g w') as Hd by (unfold hd in *; lia).
  apply (loc_unique T h g L P Hwf (dep g w)).
  - by apply (loc_node T h g L P Hwf).
  - rewrite Hd. by apply (loc_node T h g L P Hwf).
  - rewrite Hhd. apply agree_refl.
Qed.

Lemma anc_root w : (w < length h)%nat -> anc g root w.
Proof.
  assert (forall k w, (w < length h)%nat -> dep g w <= Z.of_nat k ->
                      anc g root w) as Haux.
  { induction k as [|k IH]; intros v Hv Hk.
    - pose proof (dep_nonneg T h g L P Hwf v Hv).
      rewrite (dep_zero_root T h g L P Hwf v Hv); [constructor|lia].
    - destruct (decide (v = root)) as [->|Hne]; [constructor|].
      apply anc_step; [done|]. apply IH.
      + by apply (par_valid T h g L P Hwf).
      + pose proof (dep_par_lt T h g L P Hwf v Hv Hne). lia. }
  intros Hw. apply (Haux (Z.to_nat (dep g w))); [done|].
  pose proof (dep_nonneg T h g L P Hwf w Hw). lia.
Qed.

Lemma anc_child v w :
  anc g v w -> v <> w -> (w < length h)%nat ->
  exists u, (u < length h)%nat /\ u <> root /\ par g u = v /\ anc g u w.
Proof.
  induction 1 as [|a v Hne Ha IH]; [done|]. intros Hav Hv.
  destruct (decide (a = par g v)) as [->|Hap].
  - exists v. repeat split; [done..|constructor].
  - destruct IH as (u & Hu & Hur & Hpu & Hau);
      [done|by apply (par_valid T h g L P Hwf)|].
    exists u. repeat split; [done..|]. by apply anc_step.
Qed.

Lemma anc_total u u' w : anc g u w -> anc g u' w -> anc g u u' \/ anc g u' u.
Proof.
  induction 1 as [|u w Hne Hu IH]; intros Hu'; [by right|].
  inversion Hu' as [|? ? _ Hu'']; subst.
  - left. by apply anc_step.
  - by apply IH.
Qed.

Lemma siblings u u' w :
  (w < length h)%nat -> u <> root -> u' <> root ->
  anc g u w -> anc g u' w -> par g u = par g u' -> u = u'.
Proof.
  intros Hw Hur Hur' Hu Hu' Hpar.
  pose proof (anc_valid T h g L P Hwf u w Hu Hw) as Hv.
  pose proof (anc_valid T h g L P Hwf u' w Hu' Hw) as Hv'.
  pose proof (dep_par_lt T h g L P Hwf u Hv Hur).
  pose proof (dep_par_lt T h g L P Hwf u' Hv' Hur').
  destruct (decide (u = u')) as [|Hne]; [done|]. exfalso.
  destruct (anc_total u u' w Hu Hu') as [Ha|Ha].
  - destruct (anc_proper T h g L P Hwf u u' Ha Hv' Hne) as (_ & Hle).
    rewrite <- Hpar in Hle. lia.
  - destruct (anc_proper T h g L P Hwf u' u Ha Hv ltac:(congruence)) as (_ & Hle).
    rewrite Hpar in Hle. lia.
Qed.

(** What the reading returns at a node, given the string spelled to it. *)
Lemma leaf_labels_ok fuel : forall v,
  (v < length h)%nat -> (v <> root \/ kids h v <> []) ->
  (Z.to_nat (n - dep g v) < fuel)%nat ->
  exists ls, leaf_labels fuel T h v (str_of v) = Ok ls /\ NoDup ls /\
    forall l, l ∈ ls <->
      exists w, (w < length h)%nat /\ w <> root /\ kids h w = [] /\
                anc g v w /\ l = str_of w.
Proof.
  induction fuel as [|fuel IH]; intros v Hv Hvi Hfuel; [lia|].
  cbn [leaf_labels]. rewrite deref_node_at by done. rewrite bind_Ok.
  fold (kids h v). destruct (kids h v) as [|it items] eqn:Hk.
  - destruct Hvi as [Hvr|]; [|done].
    exists [str_of v]. split; [done|]. split; [apply NoDup_singleton|].
    intros l. rewrite list_elem_of_singleton. split.
    + intros ->. exists v. repeat split; [done..|constructor].
    + intros (w & Hw & Hwr & Hkw & Ha & ->).
      destruct (decide (v = w)) as [->|Hne]; [done|]. exfalso.
      destruct (anc_child v w Ha Hne Hw) as (u & Hu & Hur & Hpu & _).
      destruct (wf_node _ _ _ _ _ Hwf u Hu Hur) as (_&_&_&_&_&Hget&_).
      rewrite Hpu, Hk in Hget. done.
  - rewrite <- Hk.
    set (Q := fun (item : ascii * nat) (ls : list str) =>
      dict_get (kids h v) (fst item) = Some (snd item) /\ NoDup ls /\
      forall l, l ∈ ls <->
        exists w, (w < length h)%nat /\ w <> root /\ kids h w = [] /\
                  anc g (snd item) w /\ l = str_of w).
    destruct (for_each_collect (kids h v)
      (fun item => ch ← deref h (snd item);
         leaf_labels fuel T h (snd item)
           (str_of v ++ py_slice T (start ch) (end_ ch))) Q [])
      as (lss & Hrun & HF).
    { intros [c u] Hin. cbn [fst snd].
      assert (dict_get (kids h v) c = Some u) as Hget.
      { apply elem_of_dict_get; [|done]. by apply (wf_keys _ _ _ _ _ Hwf). }
      destruct (wf_child _ _ _ _ _ Hwf v c u Hv Hget) as (Hu & Hur & Hpu & _).
      rewrite deref_node_at by done. rewrite bind_Ok.
      fold (st h u) (en h u). rewrite <- (str_of_child v c u) by done.
      pose proof (dep_par_lt T h g L P Hwf u Hu Hur) as Hd. rewrite Hpu in Hd.
      destruct (node_range u Hu Hur) as (? & ? & ?).
      destruct (IH u Hu (or_introl Hur)) as (ls & Hls & Hnd & Hmem); [lia|].
      exists ls. split; [done|]. by split. }
    rewrite Hrun. cbn [app]. exists (concat lss). split; [done|]. split.
    + apply (NoDup_concat_Forall2 fst Q (kids h v) lss); [|done| |].
      * by apply (wf_keys _ _ _ _ _ Hwf).
      * by intros x ls (_ & ? & _).
      * intros [c u] ls [c' u'] ls' l (Hget & _ & Hm) (Hget' & _ & Hm') Hl Hl'.
        cbn [fst snd] in *.
        apply Hm in Hl as (w & Hw & Hwr & Hkw & Ha & ->).
        apply Hm' in Hl' as (w' & Hw' & Hwr' & Hkw' & Ha' & Heq).
        assert (w = w') as <- by by apply leaf_str_inj.
        destruct (wf_child _ _ _ _ _ Hwf v c u Hv Hget) as (Hu & Hur & Hpu & Hc).
        destruct (wf_child _ _ _ _ _ Hwf v c' u' Hv Hget') as (Hu' & Hur' & Hpu' & Hc').
        assert (u = u') as <- by (apply (siblings u u' w); congruence).
        congruence.
    + intros l. split.
      * intros Hl.
        destruct (elem_of_concat_Forall2 Q _ _ l HF Hl) as ([c u] & ls & Hin & HQ & Hls).
        destruct HQ as (Hget & _ & Hm). cbn [fst snd] in *.
        apply Hm in Hls as (w & Hw & Hwr & Hkw & Ha & ->).
        exists w. do 3 (split; [done|]). split; [|done].
        destruct (wf_child _ _ _ _ _ Hwf v c u Hv Hget) as (Hu & Hur & Hpu & Hc).
        eapply anc_trans; [|exact Ha]. apply anc_step; [done|].
        rewrite Hpu. constructor.
      * intros (w & Hw & Hwr & Hkw & Ha & ->).
        assert (v <> w) as Hne by (intros ->; by rewrite Hk in Hkw).
        destruct (anc_child v w Ha Hne Hw) as (u & Hu & Hur & Hpu & Hau).
        destruct (wf_node _ _ _ _ _ Hwf u Hu Hur) as (_&_&_&_&_&Hget&_).
        rewrite Hpu in Hget.
        eapply (concat_Forall2_elem_of Q _ _ (ch T (st h u), u)); [done| |].
        -- by apply dict_get_elem_of.
        -- intros ls (_ & _ & Hm). cbn [snd] in Hm. apply Hm.
           exists w. by repeat split.
Qed.
End Leaves.

(** ** Properties of the result of [find_repeats] *)

(** C7: for a sequence of fewer than two symbols (the empty one, or any
    single symbol), [SuffixTree(S).find_repeats()] returns [None]. *)
Theorem find_repeats_short_is_None (S : str) (fuel : nat) :
  (length S < 2)%nat -> (2 <= fuel)%nat -> run fuel S = Ok None.
Proof.
  intros Hlen Hfuel.
  assert (run 2 S = Ok None) as H2.
  { destruct S as [|c [|d S]]; [reflexivity| |cbn in Hlen; lia].
    destruct c as [[] [] [] [] [] [] [] []]; vm_compute; reflexivity. }
  rewrite (run_mono 2 fuel); [done|done|]. by rewrite H2.
Qed.

Lemma find_repeats_short_is_None_witness : run 2 (dna "G") = Ok None.
Proof. apply find_repeats_short_is_None; cbn; lia. Defined.

(** C8: a list returned by [find_repeats] has no duplicate pair and is in
    ascending lexicographic order: by start, then by end. *)
Theorem find_repeats_sorted_nodup (S : str) (fuel : nat) (l : list range) :
  run fuel S = Ok (Some l) ->
  NoDup l /\ StronglySorted lex_le l /\ StronglySorted lex_lt l.
Proof.
  intros Hrun. apply run_spec in Hrun as (t & _ & Hfind).
  apply find_repeats_spec in Hfind as (repeats & _ & -> & _).
  split; [|split].
  - rewrite py_sort_perm. apply list_set_NoDup.
  - apply py_sort_sorted.
  - apply sorted_set_strict.
Qed.

Lemma find_repeats_sorted_nodup_witness :
  let l := [(0, 1); (0, 2); (0, 4); (1, 4); (2, 4); (3, 4)] in
  NoDup l /\ StronglySorted lex_le l /\ StronglySorted lex_lt l.
Proof. apply (find_repeats_sorted_nodup (dna "AAAA") 10). reflexivity. Defined.

(** C9: every range in a list returned by [find_repeats] spans at least
    two symbols: end >= start + 1. *)
Theorem find_repeats_min_span (S : str) (fuel : nat) (l : list range)
    (start_pos end_pos : Z) :
  run fuel S = Ok (Some l) ->
  (start_pos, end_pos) ∈ l ->
  end_pos >= start_pos + 1.
Proof.
  intros Hrun Hin. apply run_spec in Hrun as (t & _ & Hfind).
  apply find_repeats_spec in Hfind as (repeats & Hdfs & -> & _).
  apply (proj1 (elem_of_sorted_set _ _)) in Hin.
  eapply (dfs_inv (fun x => snd x >= fst x + 1)) in Hdfs.
  - eapply Forall_forall in Hdfs; [|exact Hin]. exact Hdfs.
  - intros child ch _ _ L HL. cbn. lia.
  - constructor.
Qed.

Lemma find_repeats_min_span_witness : 2 >= 1 + 1.
Proof.
  apply (find_repeats_min_span (dna "AA") 10 [(0, 2); (1, 2)] 1 2).
  - reflexivity.
  - apply list_elem_of_In. cbn. tauto.
Defined.

(** C10: [find_repeats] never returns an empty list: it returns [None] or
    a list with at least one range. *)
Theorem find_repeats_never_empty (S : str) (fuel : nat)
    (res : option (list range)) :
  run fuel S = Ok res ->
  res = None \/ exists x l, res = Some (x :: l).
Proof.
  intros Hrun. apply run_spec in Hrun as (t & _ & Hfind).
  apply find_repeats_spec in Hfind as (repeats & _ & Hres).
  destruct res as [[|x l]|]; [by destruct Hres| |by left].
  right. by exists x, l.
Qed.

Lemma find_repeats_never_empty_witness :
  Some [(0, 2); (1, 2)] = None \/
  exists x l, Some [(0, 2); (1, 2)] = Some (x :: l).
Proof. apply (find_repeats_never_empty (dna "AA") 10). reflexivity. Defined.

(** ** The oracle stays inside the sequence *)

Lemma brute_force_in_bounds (S : str) (x : range) :
  x ∈ brute_force S -> 0 <= fst x <= snd x /\ snd x < len S.
Proof.
  unfold brute_force. intros H.
  apply list_elem_of_bind in H as (i & H & Hi).
  apply list_elem_of_bind in H as (j & H & Hj).
  apply elem_of_seq in Hi, Hj.
  destruct ((i <=? j)%nat && repeated S i j && negb (extendable S i j)) eqn:E;
    [|by apply elem_of_nil in H].
  apply andb_true_iff in E as [E _]. apply andb_true_iff in E as [E _].
  apply Nat.leb_le in E.
  apply list_elem_of_singleton in H as ->. cbn. unfold len. lia.
Qed.

(** ** Where the code leaves the specification

    [dfs] takes the end of a recorded range from the end of the child's
    edge ([child.end - 1]), not from the length of the path to the
    branching node.  A range recorded for a leaf child therefore runs up
    to the position of the sentinel, which is not a position of the
    sequence. *)

(** What the inner loop of [dfs] can never produce: the range the
    specification describes, from the start [b] of the child's edge and
    the length [L] of the path string. *)
Lemma record_child_not_path_range h cs repeats child ch r :
  h !! child = Some ch ->
  record_child h cs repeats child = Ok r ->
  let b := start ch in
  let L := len cs in
  r <> repeats ++ [(b - L, (b - L) + L - 1)].
Proof.
  intros Hch Hrec b L Heq. apply record_child_spec in Hrec.
  destruct Hrec as [->|(ch' & Hch' & Hlen & Hgt & ->)].
  - apply (f_equal length) in Heq. rewrite length_app in Heq. cbn in Heq. lia.
  - rewrite Hch in Hch'. inversion Hch'; subst ch'.
    apply app_inv_head in Heq. inversion Heq. subst b L. lia.
Qed.

(** C1, on "AA": the branching node for "A" is reached with a path string
    of length 1; its children start at 2 and at 1.  The specification
    asks for the ranges (1,1) and (0,0); [dfs] records (1,2) and (0,2). *)
Theorem dfs_AA_records_child_end :
  exists t nd c1 c2,
    SuffixTree_init 10 (dna "AA") = Ok t /\
    nodes t !! 2%nat = Some nd /\
    children nd = [("$"%char, 3%nat); ("A"%char, 1%nat)] /\
    nodes t !! 3%nat = Some c1 /\ start c1 = 2 /\
    nodes t !! 1%nat = Some c2 /\ start c2 = 1 /\
    dfs 2 (text t) (nodes t) 2 (dna "A") [] = Ok [(1, 2); (0, 2)] /\
    [(1, 2); (0, 2)] <>
      [(start c1 - 1, (start c1 - 1) + 1 - 1);
       (start c2 - 1, (start c2 - 1) + 1 - 1)].
Proof.
  eexists _, _, _, _. split; [vm_compute; reflexivity|].
  repeat (split; [reflexivity|]). discriminate.
Qed.

(** C2, on "AA": the reported range (0,2) ends at position 2, which is the
    length of the sequence, and no other reported range has its length. *)
Theorem find_repeats_AA_out_of_bounds :
  run 10 (dna "AA") = Ok (Some [(0, 2); (1, 2)]) /\
  ~ (2 < len (dna "AA")) /\
  ~ exists x, x ∈ [(0, 2); (1, 2)] /\ x <> (0, 2) /\ snd x - fst x = 2 - 0.
Proof.
  split; [reflexivity|]. split; [unfold len; cbn; lia|].
  intros (x & Hx & Hne & Hlen).
  apply list_elem_of_In in Hx. cbn in Hx.
  destruct Hx as [<-|[<-|[]]]; [done|cbn in Hlen; lia].
Qed.

(** C4, on "AA": the oracle gives the two occurrences of "A"; the result of
    [find_repeats] shares no range with it. *)
Theorem find_repeats_AA_not_brute_force :
  run 10 (dna "AA") = Ok (Some [(0, 2); (1, 2)]) /\
  brute_force (dna "AA") = [(0, 0); (1, 1)] /\
  forall x, x ∈ [(0, 2); (1, 2)] -> x ∉ brute_force (dna "AA").
Proof.
  split; [reflexivity|]. split; [reflexivity|].
  intros x Hx Hbf. apply brute_force_in_bounds in Hbf.
  apply list_elem_of_In in Hx. unfold len in Hbf. cbn in Hx, Hbf.
  destruct Hx as [<-|[<-|[]]]; cbn in Hbf; lia.
Qed.

(** C5, on "ACGTACGT": neither (0,3) nor (4,7) is reported; the two
    occurrences of "ACGT" come out as (0,8) and (4,8). *)
Theorem find_repeats_ACGTACGT_misses_ACGT :
  exists l,
    run 20 (dna "ACGTACGT") = Ok (Some l) /\
    ((0, 3) ∉ l) /\ ((4, 7) ∉ l) /\ ((0, 8) ∈ l) /\ ((4, 8) ∈ l).
Proof.
  eexists. split; [vm_compute; reflexivity|].
  rewrite !list_elem_of_In. cbn.
  repeat split; try tauto; intros H; repeat destruct H as [H|H]; congruence.
Qed.

(** ** Construction always succeeds *)

(** For any text at all, [SuffixTree(S)] raises nothing, and no round of
    the [for] loop needs more than [2 * len(S + '$')] passes of its inner
    loop. *)
Lemma SuffixTree_init_ok (S : str) (fuel : nat) :
  (2 * (length S + 1) <= fuel)%nat ->
  exists s,
    SuffixTree_init fuel S = Ok (mkTree (S ++ [sentinel]) (heap s)) /\
    round_inv (S ++ [sentinel]) (len (S ++ [sentinel])) s /\
    (remainder s = 0 \/
     exists q, 0 <= q < len S /\ ch (S ++ [sentinel]) q = sentinel).
Proof.
  intros Hfuel. set (T := S ++ [sentinel]).
  assert (length T = (length S + 1)%nat) as Hlen.
  { unfold T. rewrite length_app. cbn. lia. }
  destruct (build_suffix_tree_ok T fuel) as (s & _ & Hrun & Hround & Hlast);
    [lia|].
  exists s. split; [|split; [done|]].
  - unfold SuffixTree_init. fold T. by rewrite Hrun.
  - destruct Hlast as [?|(q & Hq & Hc)]; [lia|by left|right].
    exists q. unfold len in *. split; [lia|]. rewrite Hc.
    unfold ch. replace (Z.to_nat (Z.of_nat (length T) - 1)) with (length S) by lia.
    unfold T. by rewrite list_lookup_middle.
Qed.

Lemma nucleotide_not_sentinel c : nucleotide c -> c <> sentinel.
Proof. by intros [ -> | [ -> | [ -> | -> ] ] ]. Qed.

(** In a valid sequence the sentinel does not occur, so the last round
    cannot stop early: every suffix gets its leaf. *)
Lemma SuffixTree_init_complete (S : str) (fuel : nat) :
  Forall nucleotide S -> (2 * (length S + 1) <= fuel)%nat ->
  exists h g P,
    SuffixTree_init fuel S = Ok (mkTree (S ++ [sentinel]) h) /\
    wf (S ++ [sentinel]) h g (len (S ++ [sentinel])) P.
Proof.
  intros Hvalid Hfuel.
  destruct (SuffixTree_init_ok S fuel Hfuel) as (s & Hrun & (g & Hinv) & Hlast).
  assert (remainder s = 0) as Hrem.
  { destruct Hlast as [|(q & Hq & Hc)]; [done|]. exfalso.
    unfold ch, len in *. rewrite lookup_app_l in Hc by lia.
    destruct (lookup_lt_is_Some_2 S (Z.to_nat q)) as [c Hl]; [lia|].
    rewrite Hl in Hc. cbn in Hc. subst c.
    eapply nucleotide_not_sentinel; [|done].
    eapply Forall_lookup_1; done. }
  exists (heap s), g, (pending None). split; [done|].
  pose proof (pi_wf _ _ _ _ Hinv) as Hwf. cbn in Hwf. rewrite Hrem in Hwf.
  by replace (len (S ++ [sentinel]) + 1 - (0 + 1)) with (len (S ++ [sentinel]))
    in Hwf by lia.
Qed.

(** C6: for a non-empty sequence over A, C, G, T, [SuffixTree(S)] ends and
    raises nothing; each run of the inner loop of [build_suffix_tree] is
    over within [2 * (len(S) + 1)] passes. *)
Theorem SuffixTree_init_total (S : str) (fuel : nat) :
  valid_dna S -> (2 * (length S + 1) <= fuel)%nat ->
  exists t, SuffixTree_init fuel S = Ok t /\ text t = S ++ [sentinel].
Proof.
  intros _ Hfuel.
  destruct (SuffixTree_init_ok S fuel Hfuel) as (s & Hrun & _).
  by eexists.
Qed.

Lemma SuffixTree_init_total_witness :
  exists t, SuffixTree_init 10 (dna "ACGT") = Ok t /\
            text t = dna "ACGT" ++ [sentinel].
Proof.
  apply SuffixTree_init_total.
  - split; [done|]. repeat constructor; unfold nucleotide; tauto.
  - cbn. lia.
Defined.

(** C3: for a non-empty sequence over A, C, G, T the finished tree has
    [len(S) + 1] leaves, and the strings spelled from the root to the
    leaves are the [len(S) + 1] non-empty suffixes of [S + '$'], each one
    once. *)
Theorem leaves_are_suffixes (S : str) (fuel : nat) :
  valid_dna S -> (2 * (length S + 1) <= fuel)%nat ->
  exists t ls,
    SuffixTree_init fuel S = Ok t /\
    leaf_labels fuel (text t) (nodes t) root [] = Ok ls /\
    length ls = Datatypes.S (length S) /\
    ls ≡ₚ (fun j => drop j (S ++ [sentinel])) <$> seq 0 (Datatypes.S (length S)).
Proof.
  intros [_ Hvalid] Hfuel. set (T := S ++ [sentinel]).
  assert (length T = Datatypes.S (length S)) as Hlen.
  { unfold T. rewrite length_app. cbn. lia. }
  destruct (SuffixTree_init_complete S fuel Hvalid Hfuel) as (h & g & P & Hrun & Hwf).
  fold T in Hrun, Hwf.
  destruct (wf_root _ _ _ _ _ Hwf) as (Hroot & Hd0 & _).
  assert (kids h root <> []) as Hkr.
  { destruct (wf_leaf _ _ _ _ _ Hwf 0) as (w & Hw & Hwr & _); [unfold len; lia|].
    pose proof (anc_root T h g _ P Hwf w Hw) as Ha.
    destruct (anc_child T h g _ P Hwf root w Ha ltac:(congruence) Hw)
      as (u & Hu & Hur & Hpu & _).
    destruct (wf_node _ _ _ _ _ Hwf u Hu Hur) as (_&_&_&_&_&Hget&_).
    rewrite Hpu in Hget. by eapply kids_not_nil_of_get. }
  destruct (leaf_labels_ok T h g _ P Hwf fuel root Hroot (or_intror Hkr))
    as (ls & Hls & Hnd & Hmem).
  { rewrite Hd0. unfold len. lia. }
  rewrite (str_of_root T h g _ P Hwf) in Hls.
  assert (ls ≡ₚ (fun j => drop j T) <$> seq 0 (Datatypes.S (length S))) as Hperm.
  { apply NoDup_Permutation; [done| |].
    - apply NoDup_fmap_2_strong; [|apply NoDup_seq].
      intros j k Hj Hk Heq. apply elem_of_seq in Hj, Hk.
      apply (f_equal length) in Heq. rewrite !length_drop in Heq. lia.
    - intros l. rewrite Hmem, list_elem_of_fmap. split.
      + intros (w & Hw & Hwr & Hkw & _ & ->).
        destruct (wf_node _ _ _ _ _ Hwf w Hw Hwr) as (_&_&_&_&_&_&Hhd&_).
        exists (Z.to_nat (hd h g w)). split.
        * by apply (str_of_leaf T h g _ P Hwf).
        * apply elem_of_seq. unfold len in Hhd. lia.
      + intros (j & -> & Hj). apply elem_of_seq in Hj.
        destruct (wf_leaf _ _ _ _ _ Hwf (Z.of_nat j)) as (w & Hw & Hwr & Hkw & Hhd);
          [unfold len; lia|].
        exists w. do 3 (split; [done|]).
        split; [by apply (anc_root T h g _ P Hwf)|].
        rewrite (str_of_leaf T h g _ P Hwf) by done. rewrite Hhd. f_equal. lia. }
  exists (mkTree T h), ls. split; [done|]. split; [done|]. split; [|done].
  rewrite Hperm, length_fmap, length_seq. done.
Qed.

Lemma leaves_are_suffixes_witness :
  exists t ls,
    SuffixTree_init 10 (dna "ACA") = Ok t /\
    leaf_labels 10 (text t) (nodes t) root [] = Ok ls /\
    length ls = 4%nat /\
    ls ≡ₚ (fun j => drop j (dna "ACA" ++ [sentinel])) <$> seq 0 4.
Proof.
  apply (leaves_are_suffixes (dna "ACA") 10).
  - split; [done|]. repeat constructor; unfold nucleotide; tauto.
  - cbn. lia.
Defined.

(** * More of the program *)

(** ** The stores a pass can leave *)

Lemma next_suffix_shape i h an ae al rem lnn r s' :
  next_suffix i h an ae al rem lnn = Ok (r, s') ->
  heap s' = h /\ remainder s' = rem - 1.
Proof.
  unfold next_suffix. destruct ((an =? root)%nat && (al >? 0)).
  - by intros [= <- <-].
  - destruct (deref h an); cbn; [|done..]. by intros [= <- <-].
Qed.

(** One pass leaves the store as it was, or resolves the pending link, or
    hangs a leaf under the active node, or splits an edge. *)
Lemma extend_shape T i s g r s' :
  0 <= i < len T -> pass_inv T i s g ->
  extend T (len T) i s = Ok (r, s') ->
  (active_node s < length (heap s))%nat /\
  ((heap s' = heap s /\ remainder s' = remainder s) \/
   (heap s' = resolve_link (heap s) (last_new_node s) (active_node s) /\
    remainder s' = remainder s) \/
   (heap s' = resolve_link
                (leaf_store (heap s) (active_node s) (ch T i) i (len T))
                (last_new_node s) (active_node s) /\
    remainder s' = remainder s - 1 /\
    (active_node s = root \/ kids (heap s) (active_node s) <> [])) \/
   (exists nx c0 c2 st al,
      heap s' = resolve_link
                  (split_store (heap s) (active_node s) nx c0 (ch T i) c2
                               st al i (len T))
                  (last_new_node s) (length (heap s)) /\
      remainder s' = remainder s - 1 /\
      (nx < length (heap s))%nat /\ ch T i <> c2 /\
      kids (heap s) (active_node s) <> [])).
Proof.
  intros Hi Hinv. destruct s as [h an ae al rem lnn].
  pose proof (pass_bounds T i h an ae al rem lnn g Hinv)
    as (Hrem & Hal & Hd0 & Hdep & HL & HLD & Han).
  pose proof (pi_inner _ _ _ _ Hinv) as Hin.
  cbn [heap active_node active_edge active_length remainder last_new_node] in *.
  intros Hrun. split; [done|]. revert Hrun.
  unfold extend. cbn [heap active_node active_edge active_length
                      remainder last_new_node].
  assert ((if al =? 0 then i else ae) = i - al) as ->.
  { destruct (al =? 0) eqn:E; [lia|].
    apply (pi_ae _ _ _ _ Hinv). cbn. lia. }
  rewrite (py_index_ch T (i - al)) by lia. rewrite bind_Ok.
  rewrite (deref_node_at h an) by done. rewrite bind_Ok.
  fold (kids h an).
  destruct (dict_get (kids h an) (ch T (i - al))) as [nx|] eqn:Hget.
  - destruct (edge_facts T i h an ae al rem lnn g Hi Hinv nx Hget)
      as (Hx&Hxr&Hpar&Hst&Hen&Hdx&Hhd&Hag&Hleaf&Hkey).
    rewrite (deref_node_at h nx) by done. rewrite bind_Ok.
    fold (en h nx) (st h nx).
    destruct (al >=? en h nx - st h nx) eqn:Ewalk.
    { intros [= <- <-]. by left. }
    rewrite (py_index_ch T (st h nx + al)) by lia. rewrite bind_Ok.
    rewrite (py_index_ch T i) by lia. rewrite bind_Ok.
    rewrite eqb_ascii_decide.
    destruct (decide (ch T (st h nx + al) = ch T i)) as [Hc|Hc].
    { rewrite bool_decide_eq_true_2 by done. intros [= <- <-].
      right. by left. }
    rewrite bool_decide_eq_false_2 by done.
    cbn [alloc]. rewrite bind_Ok. intros Hrun.
    apply next_suffix_shape in Hrun as [Hh Hr].
    right. right. right.
    exists nx, (ch T (i - al)), (ch T (st h nx + al)), (st h nx), al.
    split; [|split; [done|split; [done|split; [congruence|]]]].
    + rewrite Hh. done.
    + by eapply kids_not_nil_of_get.
  - cbn [alloc]. intros Hrun.
    apply next_suffix_shape in Hrun as [Hh Hr].
    assert (al = 0) as Hz.
    { destruct (decide (al = 0)) as [|Hnz]; [done|].
      destruct (edge_exists T i h an ae al rem lnn g Hi Hinv) as (nx & Hnx);
        [lia|congruence]. }
    right. right. left. split; [|done].
    rewrite Hh. unfold leaf_store. do 3 f_equal. lia.
Qed.

(** ** Carrying a property of the store through the construction *)

Section Carry.
Context (T : str).
Context (J : Z -> store -> Prop).
Context (J_step : forall i s g r s',
  0 <= i < len T -> pass_inv T i s g ->
  J (i + 1 - remainder s) (heap s) ->
  extend T (len T) i s = Ok (r, s') ->
  J (i + 1 - remainder s') (heap s')).

Lemma while_loop_carry fuel i s g :
  0 <= i < len T -> pass_inv T i s g ->
  J (i + 1 - remainder s) (heap s) ->
  (Z.to_nat (remainder s + active_length s) <= fuel)%nat ->
  exists s', while_loop fuel T (len T) i s = Ok s' /\
    round_inv T (i + 1) s' /\ J (i + 1 - remainder s') (heap s') /\
    (remainder s' = 0 \/ exists q, 0 <= q < i /\ ch T q = ch T i).
Proof.
  intros Hi. revert s g. induction fuel as [|fuel IH]; intros s g Hinv HJ Hfuel.
  { pose proof (pi_rem _ _ _ _ Hinv). pose proof (pi_al _ _ _ _ Hinv). lia. }
  pose proof (pi_rem _ _ _ _ Hinv) as Hrem.
  pose proof (pi_al _ _ _ _ Hinv) as Hal.
  cbn [while_loop]. replace (remainder s >? 0) with true by lia.
  destruct (extend_ok T i s g Hi Hinv) as (r & s' & Hrun & Hpost).
  pose proof (J_step i s g r s' Hi Hinv HJ Hrun) as HJ'.
  rewrite Hrun, bind_Ok. destruct r; cbn in Hpost.
  - destruct Hpost as (Hlt & [(Hr & g' & Hinv')|(Hr & Hround)]).
    + apply (IH s' g' Hinv' HJ'). pose proof (pi_al _ _ _ _ Hinv'). lia.
    + exists s'. split; [|split; [done|split; [done|by left]]].
      destruct fuel; cbn; replace (remainder s' >? 0) with false by lia; done.
  - destruct Hpost as (Hround & Hq). exists s'. split; [done|].
    split; [done|]. split; [done|by right].
Qed.

Lemma for_range_carry fuel todo : forall i s,
  0 <= i -> i + Z.of_nat todo = len T -> round_inv T i s ->
  J (i - remainder s) (heap s) ->
  (2 * Z.to_nat (len T) <= fuel)%nat ->
  exists s', for_range fuel T (len T) s todo i = Ok s' /\
    round_inv T (len T) s' /\ J (len T - remainder s') (heap s') /\
    ((0 < todo)%nat -> remainder s' = 0 \/
       exists q, 0 <= q < len T - 1 /\ ch T q = ch T (len T - 1)).
Proof.
  induction todo as [|todo IH]; intros i s Hi Hn Hround HJ Hfuel.
  - exists s. cbn. replace (len T) with i by lia. split; [done|].
    split; [done|]. split; [done|lia].
  - cbn [for_range]. unfold phase. fold (phase_start s).
    destruct Hround as (g & Hinv).
    pose proof (pi_rem _ _ _ _ Hinv). pose proof (pi_al _ _ _ _ Hinv).
    pose proof (pi_depth _ _ _ _ Hinv) as Hd.
    pose proof (dep_nonneg _ _ _ _ _ (pi_wf _ _ _ _ Hinv) _ (pi_an _ _ _ _ Hinv)).
    destruct (while_loop_carry fuel i (phase_start s) g)
      as (s1 & Hrun & Hround1 & HJ1 & Hlast); [lia|done| |lia|].
    { cbn. by replace (i + 1 - (remainder s + 1)) with (i - remainder s) by lia. }
    rewrite Hrun, bind_Ok.
    destruct (IH (i + 1) s1) as (s' & Hrun' & Hround' & HJ' & Hlast');
      [lia|lia|done|by replace (i + 1 - remainder s1) with (i + 1 - remainder s1) by lia|done|].
    exists s'. split; [done|]. split; [done|]. split; [done|]. intros _.
    destruct todo as [|todo].
    + cbn in Hrun'. injection Hrun' as <-.
      replace (len T - 1) with i by lia. done.
    + apply Hlast'. lia.
Qed.
End Carry.

(** ** The tree is compact *)

(** Every node but the root has no child, or at least two. *)
Definition branching (h : store) : Prop :=
  forall v, (v < length h)%nat -> v <> root ->
    kids h v = [] \/ (2 <= length (kids h v))%nat.

(** With [L] leaves made, the store holds at most [1 + 2 * L] nodes. *)
Definition compact (L : Z) (h : store) : Prop :=
  branching h /\ len h <= 1 + 2 * L.

Lemma dict_set_length {V} (d : dict V) k v :
  (length d <= length (dict_set d k v))%nat.
Proof.
  induction d as [|[k' v'] d IH]; cbn; [lia|].
  destruct (Ascii.eqb k' k); cbn; lia.
Qed.

Lemma compact_resolve_link L h lnn w :
  compact L h -> compact L (resolve_link h lnn w).
Proof.
  intros [Hb Hl]. split.
  - intros v Hv Hne. rewrite length_resolve_link in Hv.
    rewrite kids_resolve_link. by apply Hb.
  - unfold len in *. by rewrite length_resolve_link.
Qed.

Lemma compact_leaf_store L h u c i n :
  (u < length h)%nat -> (u = root \/ kids h u <> []) ->
  compact L h -> compact (L + 1) (leaf_store h u c i n).
Proof.
  intros Hu Hui [Hb Hl]. split.
  - intros v Hv Hne. rewrite leaf_store_length in Hv by done.
    destruct (decide (v = length h)) as [->|Hvl].
    { left. by apply leaf_store_kids_lf. }
    destruct (decide (v = u)) as [->|Hvu].
    + right. rewrite leaf_store_kids_u by done.
      destruct Hui as [|Hk]; [done|].
      destruct (Hb u Hu Hne) as [|Hlen]; [done|].
      pose proof (dict_set_length (kids h u) c (length h)). lia.
    + rewrite leaf_store_kids by done. apply Hb; [lia|done].
  - unfold len in *. rewrite leaf_store_length by done. lia.
Qed.

Lemma compact_split_store L h an nx c0 ci c2 s al i n :
  (an < length h)%nat -> (nx < length h)%nat -> ci <> c2 ->
  kids h an <> [] ->
  compact L h -> compact (L + 1) (split_store h an nx c0 ci c2 s al i n).
Proof.
  intros Han Hnx Hc Hk [Hb Hl]. split.
  - intros v Hv Hne.
    rewrite split_store_length, split_only_length in Hv by done.
    rewrite split_store_kids by done.
    destruct (decide (v = S (length h))) as [->|Hvl]; [by left|].
    destruct (decide (v = length h)) as [->|Hvs].
    { right. cbn. destruct (Ascii.eqb_spec ci c2); [done|]. cbn. lia. }
    rewrite split_only_kids by done. rewrite decide_False by done.
    destruct (decide (v = an)) as [->|Hva].
    + right. destruct (Hb an Han Hne) as [|Hlen]; [done|].
      pose proof (dict_set_length (kids h an) c0 (length h)). lia.
    + apply Hb; [lia|done].
  - unfold len in *.
    rewrite split_store_length, split_only_length by done. lia.
Qed.

Lemma compact_step T i s g r s' :
  0 <= i < len T -> pass_inv T i s g ->
  compact (i + 1 - remainder s) (heap s) ->
  extend T (len T) i s = Ok (r, s') ->
  compact (i + 1 - remainder s') (heap s').
Proof.
  intros Hi Hinv HJ Hrun.
  destruct (extend_shape T i s g r s' Hi Hinv Hrun) as (Han & Hcase).
  destruct Hcase as [(-> & ->)|[(-> & ->)|[(-> & -> & Hin)|
    (nx & c0 & c2 & st & al & -> & -> & Hnx & Hc & Hk)]]].
  - done.
  - by apply compact_resolve_link.
  - apply compact_resolve_link.
    replace (i + 1 - (remainder s - 1)) with (i + 1 - remainder s + 1) by lia.
    by apply compact_leaf_store.
  - apply compact_resolve_link.
    replace (i + 1 - (remainder s - 1)) with (i + 1 - remainder s + 1) by lia.
    by apply compact_split_store.
Qed.

(** For any text: the finished store with its shape. *)
Lemma SuffixTree_init_compact (S : str) (fuel : nat) :
  (2 * (length S + 1) <= fuel)%nat ->
  exists s,
    SuffixTree_init fuel S = Ok (mkTree (S ++ [sentinel]) (heap s)) /\
    round_inv (S ++ [sentinel]) (len (S ++ [sentinel])) s /\
    compact (len (S ++ [sentinel]) - remainder s) (heap s) /\
    0 <= remainder s /\
    (remainder s = 0 \/
     exists q, 0 <= q < len S /\ ch (S ++ [sentinel]) q = sentinel).
Proof.
  intros Hfuel. set (T := S ++ [sentinel]).
  assert (length T = (length S + 1)%nat) as Hlen.
  { unfold T. rewrite length_app. cbn. lia. }
  destruct (for_range_carry T compact (compact_step T) fuel (length T) 0
              (mkState [new_node (-1) (-1)] root (-1) 0 0 None))
    as (s & Hrun & Hround & HJ & Hlast).
  { lia. }
  { unfold len. lia. }
  { apply round_inv_init. }
  { split; [|unfold len; cbn; lia].
    intros v Hv Hne. cbn in Hv. unfold root in Hne. lia. }
  { unfold len. lia. }
  exists s. split; [|split; [done|split; [done|split]]].
  - unfold SuffixTree_init, build_suffix_tree. fold T. cbv zeta.
    by rewrite Hrun.
  - destruct Hround as (g & Hinv). pose proof (pi_rem _ _ _ _ Hinv) as Hr.
    cbn in Hr. lia.
  - destruct Hlast as [?|(q & Hq & Hc)]; [lia|by left|right].
    exists q. unfold len in *. split; [lia|]. rewrite Hc.
    unfold ch. replace (Z.to_nat (Z.of_nat (length T) - 1)) with (length S) by lia.
    unfold T. by rewrite list_lookup_middle.
Qed.

(** For a sequence without the sentinel: every suffix has its leaf, no
    suffix link is missing, and the tree is compact. *)
Lemma SuffixTree_init_full (S : str) (fuel : nat) :
  Forall nucleotide S -> (2 * (length S + 1) <= fuel)%nat ->
  exists h g,
    SuffixTree_init fuel S = Ok (mkTree (S ++ [sentinel]) h) /\
    wf (S ++ [sentinel]) h g (len (S ++ [sentinel])) (pending None) /\
    compact (len (S ++ [sentinel])) h.
Proof.
  intros Hvalid Hfuel.
  destruct (SuffixTree_init_compact S fuel Hfuel)
    as (s & Hrun & (g & Hinv) & HJ & _ & Hlast).
  assert (remainder s = 0) as Hrem.
  { destruct Hlast as [|(q & Hq & Hc)]; [done|]. exfalso.
    unfold ch, len in *. rewrite lookup_app_l in Hc by lia.
    destruct (lookup_lt_is_Some_2 S (Z.to_nat q)) as [c Hl]; [lia|].
    rewrite Hl in Hc. cbn in Hc. subst c.
    eapply nucleotide_not_sentinel; [|done].
    eapply Forall_lookup_1; done. }
  exists (heap s), g. split; [done|].
  pose proof (pi_wf _ _ _ _ Hinv) as Hwf. cbn in Hwf.
  rewrite Hrem in Hwf, HJ.
  replace (len (S ++ [sentinel]) + 1 - (0 + 1)) with (len (S ++ [sentinel]))
    in Hwf by lia.
  by replace (len (S ++ [sentinel]) - 0) with (len (S ++ [sentinel])) in HJ by lia.
Qed.

(** ** What [dfs] records, exactly *)

Lemma for_each_acc {A B} (Q : A -> B -> Prop) (items : list A)
    (body : list B -> A -> result (list B)) : forall acc,
  (forall acc x, x ∈ items ->
     exists r, body acc x = Ok r /\ forall y, y ∈ r <-> y ∈ acc \/ Q x y) ->
  exists r, for_each items acc body = Ok r /\
    forall y, y ∈ r <-> y ∈ acc \/ exists x, x ∈ items /\ Q x y.
Proof.
  induction items as [|x items IH]; intros acc Hbody.
  - exists acc. split; [done|]. intros y. split; [by left|].
    intros [|(x & Hx & _)]; [done|]. by apply elem_of_nil in Hx.
  - destruct (Hbody acc x) as (r1 & Hx & Hr1); [by left|].
    destruct (IH r1) as (r & Hrun & Hr).
    { intros a y Hy. apply Hbody. by right. }
    exists r. cbn. rewrite Hx, bind_Ok. split; [done|].
    intros y. rewrite Hr, Hr1. split.
    + intros [[?|?]|(z & Hz & ?)]; [by left|right; exists x|right; exists z].
      * split; [by left|done].
      * split; [by right|done].
    + intros [?|(z & Hz & HQ)]; [by left; left|].
      apply elem_of_cons in Hz as [->|Hz]; [by left; right|].
      right. by exists z.
Qed.

Section Recorded.
Context (T : str).
Let n := len T.
Context (h : store) (g : shape) (L : Z) (P : nat -> Prop).
Context (Hwf : wf T h g L P).

(** [dfs] reaches the node [u], which is not the root and has more than
    one child, and records the pair [y] for one of its children. *)
Definition recorded (u : nat) (y : range) : Prop :=
  (u < length h)%nat /\ u <> root /\ 1 < len (kids h u) /\
  exists c w, dict_get (kids h u) c = Some w /\
    y = (st h w - dep g u, en h w - 1) /\
    en h w - 1 > st h w - dep g u.

Lemma dfs_spec fuel : forall v cs repeats,
  (v < length h)%nat -> len cs = dep g v ->
  (Z.to_nat (n - dep g v) < fuel)%nat ->
  exists r, dfs fuel T h v cs repeats = Ok r /\
    forall y, y ∈ r <-> y ∈ repeats \/ exists u, anc g v u /\ recorded u y.
Proof.
  induction fuel as [|fuel IH]; intros v cs repeats Hv Hcs Hfuel; [lia|].
  cbn [dfs]. rewrite deref_node_at by done. rewrite bind_Ok.
  fold (kids h v).
  assert (forall c u, (c, u) ∈ kids h v -> dict_get (kids h v) c = Some u)
    as Hget.
  { intros c u Hin. apply elem_of_dict_get; [|done].
    by apply (wf_keys _ _ _ _ _ Hwf). }
  (* the loop that records *)
  assert (exists r1,
    (if (len (kids h v) >? 1) && negb (v =? root)%nat
     then for_each (values (kids h v)) repeats (record_child h cs)
     else Ok repeats) = Ok r1 /\
    forall y, y ∈ r1 <-> y ∈ repeats \/ recorded v y) as (r1 & -> & Hr1).
  { destruct ((len (kids h v) >? 1) && negb (v =? root)%nat) eqn:Hc.
    - apply andb_true_iff in Hc as [Hc1 Hc2].
      apply negb_true_iff, Nat.eqb_neq in Hc2.
      destruct (for_each_acc
        (fun w y => y = (st h w - dep g v, en h w - 1) /\
                    en h w - 1 > st h w - dep g v)
        (values (kids h v)) (record_child h cs) repeats) as (r1 & Hrun & Hr1).
      { intros acc w Hw. unfold values in Hw.
        apply list_elem_of_fmap in Hw as ([c u] & -> & Hin). cbn [snd].
        destruct (wf_child _ _ _ _ _ Hwf v c u Hv (Hget c u Hin))
          as (Hu & Hur & _ & _).
        destruct (wf_node _ _ _ _ _ Hwf u Hu Hur) as (?&?&_).
        unfold record_child. rewrite deref_node_at by done. rewrite bind_Ok.
        fold (st h u) (en h u). rewrite Hcs.
        replace (en h u - st h u >? 0) with true by lia.
        replace (st h u + en h u - st h u - 1) with (en h u - 1) by lia.
        destruct (en h u - 1 >? st h u - dep g v) eqn:E.
        - eexists. split; [done|]. intros y.
          rewrite elem_of_app, list_elem_of_singleton. split.
          + intros [?| ->]; [by left|right]. split; [done|lia].
          + intros [?|[-> _]]; [by left|by right].
        - eexists. split; [done|]. intros y. split; [by left|].
          intros [?|[_ ?]]; [done|lia]. }
      exists r1. split; [done|]. intros y. rewrite Hr1. split.
      + intros [?|(w & Hw & -> & Hgt)]; [by left|right].
        unfold values in Hw.
        apply list_elem_of_fmap in Hw as ([c u] & -> & Hin). cbn [snd] in *.
        split; [done|]. split; [done|]. split; [lia|].
        exists c, u. split; [by apply Hget|done].
      + intros [?|(_ & _ & _ & c & w & Hg & -> & Hgt)]; [by left|right].
        exists w. split; [|done]. unfold values.
        apply list_elem_of_fmap. exists (c, w). split; [done|].
        by apply dict_get_elem_of.
    - exists repeats. split; [done|]. intros y. split; [by left|].
      intros [?|(_ & Hne & Hlen & _)]; [done|]. exfalso.
      apply andb_false_iff in Hc as [Hc|Hc]; [lia|].
      apply negb_false_iff, Nat.eqb_eq in Hc. done. }
  rewrite bind_Ok.
  (* the loop that goes down *)
  destruct (for_each_acc
    (fun (item : ascii * nat) y => exists u, anc g item.2 u /\ recorded u y)
    (kids h v)
    (fun acc item =>
       ch ← deref h item.2;
       dfs fuel T h item.2
         (cs ++ py_slice T (start ch) (start ch + (end_ ch - start ch))) acc)
    r1) as (r & Hrun & Hr).
  { intros acc [c u] Hin. cbn [snd].
    destruct (wf_child _ _ _ _ _ Hwf v c u Hv (Hget c u Hin))
      as (Hu & Hur & Hpu & _).
    destruct (wf_node _ _ _ _ _ Hwf u Hu Hur) as (?&?&_&_&Hd&_).
    rewrite Hpu in Hd.
    rewrite deref_node_at by done. rewrite bind_Ok. fold (st h u) (en h u).
    destruct (node_range T h g L P Hwf u Hu Hur) as (? & ? & ?).
    apply IH; [done| |unfold n; lia].
    unfold len in *. rewrite length_app.
    replace (st h u + (en h u - st h u)) with (en h u) by lia.
    rewrite py_slice_sub by (unfold len; fold n; lia).
    unfold sub. rewrite length_take, length_drop. lia. }
  exists r. split; [exact Hrun|]. intros y. rewrite Hr, Hr1. split.
  - intros [[?|?]|([c u] & Hin & w & Ha & Hrec)]; [by left|right|right].
    + exists v. split; [constructor|done].
    + exists w. split; [|done]. cbn [snd] in Ha.
      destruct (wf_child _ _ _ _ _ Hwf v c u Hv (Hget c u Hin))
        as (Hu & Hur & Hpu & _).
      eapply anc_trans; [|exact Ha]. apply anc_step; [done|].
      rewrite Hpu. constructor.
  - intros [?|(w & Ha & Hrec)]; [by left; left|].
    destruct (decide (v = w)) as [->|Hne]; [by left; right|]. right.
    pose proof Hrec as (Hw & _).
    destruct (anc_child T h g L P Hwf v w Ha Hne Hw) as (u & Hu & Hur & Hpu & Hau).
    destruct (wf_node _ _ _ _ _ Hwf u Hu Hur) as (_&_&_&_&_&Hg&_).
    rewrite Hpu in Hg.
    exists (ch T (st h u), u). split; [by apply dict_get_elem_of|].
    exists w. done.
Qed.
End Recorded.

(** ** Nodes and the places where their strings occur *)

Section Occurrences.
Context (T : str).
Let n := len T.
Context (h : store) (g : shape) (L : Z) (P : nat -> Prop).
Context (Hwf : wf T h g L P).

(** Nothing hangs below a leaf. *)
Lemma leaf_no_descendant w u :
  (u < length h)%nat -> kids h w = [] -> anc g w u -> w = u.
Proof.
  intros Hu Hk Ha. destruct (decide (w = u)) as [|Hne]; [done|]. exfalso.
  destruct (anc_child T h g L P Hwf w u Ha Hne Hu) as (x & Hx & Hxr & Hpx & _).
  destruct (wf_node _ _ _ _ _ Hwf x Hx Hxr) as (_&_&_&_&_&Hget&_).
  rewrite Hpx, Hk in Hget. done.
Qed.

(** The leaf of the suffix at which the string of [v] was first read
    hangs below [v]. *)
Lemma leaf_below v :
  (v < length h)%nat -> v <> root ->
  exists w, (w < length h)%nat /\ w <> root /\ kids h w = [] /\
            anc g v w /\ hd h g w = hd h g v.
Proof.
  intros Hv Hne.
  destruct (wf_node _ _ _ _ _ Hwf v Hv Hne) as (_&_&_&_&_&_&Hhd&_).
  destruct (wf_leaf _ _ _ _ _ Hwf (hd h g v) Hhd) as (w & Hw & Hwr & Hk & Hj).
  exists w. do 3 (split; [done|]). split; [|done].
  pose proof (dep_par_lt T h g L P Hwf v Hv Hne) as Hd.
  destruct (wf_node _ _ _ _ _ Hwf w Hw Hwr) as (?&?&?&?&?&?&?&?&Hend).
  specialize (Hend Hk).
  destruct (node_range T h g L P Hwf v Hv Hne) as (? & ? & ?).
  destruct (loc_prefix T h g L P Hwf w (dep g w) (dep g v))
    as (v' & Hl & Ha & Hag).
  { by apply (loc_node T h g L P Hwf). }
  { unfold hd in *. fold n in H0. lia. }
  assert (v' = v) as ->; [|done].
  apply (loc_unique T h g L P Hwf (dep g v)); [done| |].
  - by apply (loc_node T h g L P Hwf).
  - by rewrite <- Hj.
Qed.

(** The string of a node with two children is read at two places of the
    text, and goes on differently there. *)
Lemma two_occurrences v :
  (v < length h)%nat -> (2 <= length (kids h v))%nat ->
  exists j1 j2, j1 <> j2 /\ 0 <= j1 /\ 0 <= j2 /\
    j1 + dep g v < n /\ j2 + dep g v < n /\
    agree T (hd h g v) j1 (dep g v) /\ agree T (hd h g v) j2 (dep g v) /\
    ch T (j1 + dep g v) <> ch T (j2 + dep g v).
Proof.
  intros Hv Hlen.
  pose proof (wf_keys _ _ _ _ _ Hwf v Hv) as Hnd.
  destruct (kids h v) as [|[c1 u1] [|[c2 u2] rest]] eqn:Hk;
    [cbn in Hlen; lia..|].
  assert (c1 <> c2) as Hc.
  { cbn in Hnd. apply NoDup_cons in Hnd as [Hn1 _].
    intros ->. apply Hn1. by left. }
  assert (dict_get (kids h v) c1 = Some u1) as Hg1.
  { apply elem_of_dict_get; rewrite Hk; [done|by left]. }
  assert (dict_get (kids h v) c2 = Some u2) as Hg2.
  { apply elem_of_dict_get; rewrite Hk; [done|by right; left]. }
  destruct (wf_child _ _ _ _ _ Hwf v c1 u1 Hv Hg1) as (Hu1 & Hr1 & Hp1 & Hc1).
  destruct (wf_child _ _ _ _ _ Hwf v c2 u2 Hv Hg2) as (Hu2 & Hr2 & Hp2 & Hc2).
  destruct (wf_node _ _ _ _ _ Hwf u1 Hu1 Hr1) as (?&?&_&_&Hd1&_&?&Ha1&_).
  destruct (wf_node _ _ _ _ _ Hwf u2 Hu2 Hr2) as (?&?&_&_&Hd2&_&?&Ha2&_).
  rewrite Hp1 in Hd1, Ha1. rewrite Hp2 in Hd2, Ha2.
  assert (hd h g u1 + dep g v = st h u1) as E1 by (unfold hd; lia).
  assert (hd h g u2 + dep g v = st h u2) as E2 by (unfold hd; lia).
  exists (hd h g u1), (hd h g u2).
  rewrite E1, E2, Hc1, Hc2. fold n in H0, H3.
  split; [|split; [lia|split; [lia|split; [lia|split; [lia|split;
    [by apply agree_sym|split; [by apply agree_sym|done]]]]]]].
  intros Heq. rewrite Heq in E1. congruence.
Qed.
End Occurrences.

(** ** The finished tree of a sequence without the sentinel *)

Lemma ch_app_l (S R : str) q : 0 <= q < len S -> ch (S ++ R) q = ch S q.
Proof. intros Hq. unfold ch, len in *. by rewrite lookup_app_l by lia. Qed.

Lemma ch_sentinel (S : str) : ch (S ++ [sentinel]) (len S) = sentinel.
Proof.
  unfold ch, len. rewrite Nat2Z.id. by rewrite list_lookup_middle.
Qed.

Lemma ch_nucleotide (S : str) q :
  Forall nucleotide S -> 0 <= q < len S -> nucleotide (ch S q).
Proof.
  intros HS Hq. unfold ch, len in *.
  destruct (lookup_lt_is_Some_2 S (Z.to_nat q)) as [c Hc]; [lia|].
  rewrite Hc. cbn. by eapply Forall_lookup_1.
Qed.

Lemma sub_app_l (S R : str) a d :
  0 <= a -> 0 <= d -> a + d <= len S -> sub (S ++ R) a d = sub S a d.
Proof.
  intros Ha Hd Had. unfold sub, len in *.
  rewrite drop_app_le by lia. rewrite take_app_le; [done|].
  rewrite length_drop. lia.
Qed.

Section Finished.
Context (S : str) (HS : Forall nucleotide S).
Let T := S ++ [sentinel].
Context (h : store) (g : shape).
Context (Hwf : wf T h g (len T) (pending None)).
Context (Hb : branching h).

Lemma len_text : len T = len S + 1.
Proof. unfold T, len. rewrite length_app. cbn. lia. Qed.

(** The sentinel is the last symbol of the text, and only that. *)
Lemma sentinel_last q : 0 <= q < len S -> ch T q <> sentinel.
Proof.
  intros Hq. unfold T. rewrite ch_app_l by done.
  by apply nucleotide_not_sentinel, ch_nucleotide.
Qed.

(** A node with children is the root or has at least two. *)
Lemma inner_two v :
  (v < length h)%nat -> v <> root -> kids h v <> [] ->
  (2 <= length (kids h v))%nat.
Proof. intros Hv Hne Hk. by destruct (Hb v Hv Hne). Qed.

(** The string of an inner node lies inside the sequence: the edge into
    it ends before the sentinel. *)
Lemma inner_end v :
  (v < length h)%nat -> v <> root -> kids h v <> [] -> en h v <= len S.
Proof.
  intros Hv Hne Hk.
  destruct (two_occurrences T h g _ _ Hwf v Hv (inner_two v Hv Hne Hk))
    as (j1 & j2 & _ & Hj1 & _ & Hd1 & _ & Ha1 & _).
  destruct (node_range T h g _ _ Hwf v Hv Hne) as (H0 & Hn & Hd).
  rewrite len_text in Hd1, Hn.
  destruct (decide (en h v <= len S)) as [|Hgt]; [done|]. exfalso.
  assert (hd h g v + (dep g v - 1) = len S) as E by (unfold hd in *; lia).
  apply (sentinel_last (j1 + (dep g v - 1))); [lia|].
  rewrite <- (Ha1 (dep g v - 1)) by lia. rewrite E. apply ch_sentinel.
Qed.

(** A leaf is the leaf of the suffix that starts at its [hd]. *)
Lemma leaf_end w :
  (w < length h)%nat -> w <> root -> kids h w = [] -> en h w = len S + 1.
Proof.
  intros Hw Hne Hk.
  destruct (wf_node _ _ _ _ _ Hwf w Hw Hne) as (_&_&_&_&_&_&_&_&Hend).
  rewrite <- len_text. by apply Hend.
Qed.

(** The symbol at [j] occurs at another place of the sequence exactly
    when the leaf of the suffix at [j] does not hang from the root. *)
Lemma leaf_parent w :
  (w < length h)%nat -> w <> root -> kids h w = [] ->
  par g w <> root <->
  exists k, 0 <= k < len S /\ k <> hd h g w /\ ch S k = ch S (hd h g w)
            /\ hd h g w < len S.
Proof.
  intros Hw Hne Hk.
  pose proof (leaf_end w Hw Hne Hk) as Hend.
  destruct (wf_node _ _ _ _ _ Hwf w Hw Hne)
    as (Hst & _ & Hp & Hdp & Hd & Hget & Hhd & Hag & _).
  rewrite len_text in Hhd.
  split.
  - intros Hpr.
    assert (kids h (par g w) <> []) as Hkp by by eapply kids_not_nil_of_get.
    destruct (two_occurrences T h g _ _ Hwf (par g w) Hp
                (inner_two _ Hp Hpr Hkp))
      as (j1 & j2 & Hj & Hj1 & Hj2 & Hd1 & Hd2 & Ha1 & Ha2 & _).
    rewrite len_text in Hd1, Hd2.
    pose proof (dep_par_lt T h g _ _ Hwf (par g w) Hp Hpr) as Hdpp.
    assert (hd h g w < len S) as Hlt by (unfold hd in *; lia).
    assert (forall j, 0 <= j -> j + dep g (par g w) < len S + 1 ->
              agree T (hd h g (par g w)) j (dep g (par g w)) ->
              ch S j = ch S (hd h g w)) as Hsame.
    { intros j Hj0 Hjd Ha.
      rewrite <- !(ch_app_l S [sentinel]) by lia. fold T.
      pose proof (Ha 0 ltac:(lia)) as E1. pose proof (Hag 0 ltac:(lia)) as E2.
      rewrite !Z.add_0_r in E1, E2. congruence. }
    destruct (decide (j1 = hd h g w)) as [E|E].
    + exists j2. split; [lia|]. split; [congruence|]. split; [|done].
      by apply Hsame.
    + exists j1. split; [lia|]. split; [done|]. split; [|done].
      by apply Hsame.
  - intros (k & Hk0 & Hne' & Hc & Hlt) Hpr.
    destruct (wf_leaf _ _ _ _ _ Hwf k) as (w' & Hw' & Hr' & Hk' & Hhd');
      [rewrite len_text; lia|].
    pose proof (leaf_end w' Hw' Hr' Hk') as Hend'.
    destruct (node_range T h g _ _ Hwf w' Hw' Hr') as (? & ? & ?).
    destruct (loc_prefix T h g _ _ Hwf w' (dep g w') 1) as (v & Hl & Ha & Hagv).
    { by apply (loc_node T h g _ _ Hwf). }
    { lia. }
    assert (w = v) as <-.
    { apply (loc_unique T h g _ _ Hwf 1); [|done|].
      - split; [done|]. split; [done|]. rewrite Hpr.
        destruct (wf_root _ _ _ _ _ Hwf) as (_ & -> & _). lia.
      - apply agree_sym. eapply agree_trans; [exact Hagv|].
        intros m Hm. replace m with 0 by lia. rewrite !Z.add_0_r, Hhd'.
        unfold T. rewrite !ch_app_l by lia. done. }
    apply (leaf_no_descendant T h g _ _ Hwf w w' Hw' Hk) in Ha.
    subst w'. lia.
Qed.

(** What [dfs] records on the finished tree, in terms of the nodes. *)
Lemma recorded_iff y :
  (exists u, recorded h g u y) <->
  exists w, (w < length h)%nat /\ w <> root /\ par g w <> root /\
            y = (hd h g w, en h w - 1).
Proof.
  split.
  - intros (u & Hu & Hur & _ & c & w & Hget & -> & _).
    destruct (wf_child _ _ _ _ _ Hwf u c w Hu Hget) as (Hw & Hwr & Hp & _).
    destruct (wf_node _ _ _ _ _ Hwf w Hw Hwr) as (_&_&_&_&Hd&_).
    exists w. do 2 (split; [done|]). split; [congruence|].
    rewrite Hp in Hd. f_equal. unfold hd. lia.
  - intros (w & Hw & Hwr & Hp & ->).
    destruct (wf_node _ _ _ _ _ Hwf w Hw Hwr) as (?&_&Hpv&_&Hd&Hget&_).
    pose proof (dep_par_lt T h g _ _ Hwf (par g w) Hpv Hp).
    exists (par g w). split; [done|]. split; [done|]. split.
    + assert (kids h (par g w) <> []) as Hk by by eapply kids_not_nil_of_get.
      pose proof (inner_two _ Hpv Hp Hk). unfold len. lia.
    + exists (ch T (st h w)), w. split; [done|]. split.
      * f_equal. unfold hd. lia.
      * lia.
Qed.
End Finished.

(** The run on a sequence over A, C, G, T: the tree, and the pairs
    reported, one for every node that does not hang from the root. *)
Lemma run_nodes (S : str) (fuel : nat) :
  Forall nucleotide S -> (2 * (length S + 1) <= fuel)%nat ->
  exists h g res,
    SuffixTree_init fuel S = Ok (mkTree (S ++ [sentinel]) h) /\
    wf (S ++ [sentinel]) h g (len (S ++ [sentinel])) (pending None) /\
    compact (len (S ++ [sentinel])) h /\
    run fuel S = Ok res /\
    forall y, y ∈ default [] res <->
      exists w, (w < length h)%nat /\ w <> root /\ par g w <> root /\
                y = (hd h g w, en h w - 1).
Proof.
  intros HS Hfuel.
  destruct (SuffixTree_init_full S fuel HS Hfuel) as (h & g & Hinit & Hwf & Hc).
  exists h, g.
  destruct (wf_root _ _ _ _ _ Hwf) as (Hroot & Hd0 & _).
  destruct (dfs_spec _ h g _ _ Hwf fuel root [] [] Hroot) as (r & Hdfs & Hr).
  { by rewrite Hd0. }
  { rewrite Hd0. unfold len. rewrite length_app. cbn. lia. }
  exists (match py_sort (list_set r) with [] => None | l => Some l end).
  do 3 (split; [done|]). split.
  - unfold run. rewrite Hinit, bind_Ok. unfold find_repeats.
    cbn [text nodes]. rewrite Hdfs, bind_Ok. by destruct (py_sort (list_set r)).
  - intros y. rewrite <- (recorded_iff S h g Hwf (proj1 Hc)).
    transitivity (y ∈ py_sort (list_set r)).
    { by destruct (py_sort (list_set r)). }
    rewrite elem_of_sorted_set, Hr. split.
    + intros [Hn|(u & _ & Hu)]; [by apply elem_of_nil in Hn|by exists u].
    + intros (u & Hu). right. exists u. split; [|done].
      destruct Hu as (Hu & _). by apply (anc_root _ h g _ _ Hwf).
Qed.

(** A result does not depend on the fuel that was enough for it. *)
Lemma run_enough (S : str) (fuel : nat) res :
  run fuel S = Ok res ->
  run (fuel `max` (2 * (length S + 1))) S = Ok res.
Proof.
  intros Hrun. rewrite (run_mono fuel); [done|lia|]. by rewrite Hrun.
Qed.

Lemma run_nodes_any (S : str) (fuel : nat) res :
  Forall nucleotide S -> run fuel S = Ok res ->
  exists h g,
    wf (S ++ [sentinel]) h g (len (S ++ [sentinel])) (pending None) /\
    branching h /\
    forall y, y ∈ default [] res <->
      exists w, (w < length h)%nat /\ w <> root /\ par g w <> root /\
                y = (hd h g w, en h w - 1).
Proof.
  intros HS Hrun. apply run_enough in Hrun.
  destruct (run_nodes S (fuel `max` (2 * (length S + 1))) HS)
    as (h & g & res' & _ & Hwf & Hc & Hrun' & Hres); [lia|].
  rewrite Hrun in Hrun'. injection Hrun' as <-.
  exists h, g. split; [done|]. split; [apply Hc|done].
Qed.

Lemma ch_lookup (S : str) k c : S !! k = Some c -> ch S (Z.of_nat k) = c.
Proof. intros Hk. unfold ch. by rewrite Nat2Z.id, Hk. Qed.

Lemma lookup_ch (S : str) q :
  0 <= q < len S -> S !! Z.to_nat q = Some (ch S q).
Proof.
  intros Hq. unfold ch, len in *.
  destruct (lookup_lt_is_Some_2 S (Z.to_nat q)) as [c ->]; [lia|done].
Qed.

Section Reported.
Context (S : str) (HS : Forall nucleotide S).
Let T := S ++ [sentinel].
Context (h : store) (g : shape).
Context (Hwf : wf T h g (len T) (pending None)).
Context (Hb : branching h).

Lemma len_text' : len T = len S + 1.
Proof. apply len_text. Qed.

(** The node [w] stands for a reported pair. *)
Definition reports (w : nat) (y : range) : Prop :=
  (w < length h)%nat /\ w <> root /\ par g w <> root /\
  y = (hd h g w, en h w - 1).

Lemma reports_bounds w a b :
  reports w (a, b) -> 0 <= a < b /\ b <= len S.
Proof.
  intros (Hw & Hwr & Hp & [= -> ->]).
  destruct (wf_node _ _ _ _ _ Hwf w Hw Hwr) as (?&Hen&Hpv&_&Hd&_&?&_).
  pose proof (dep_par_lt T h g _ _ Hwf (par g w) Hpv Hp).
  rewrite len_text' in Hen. unfold hd in *. lia.
Qed.

Lemma reports_tail (j : nat) :
  (exists w, reports w (Z.of_nat j, len S)) <->
  exists k c, k <> j /\ S !! j = Some c /\ S !! k = Some c.
Proof.
  split.
  - intros (w & Hw & Hwr & Hp & [= Hj He]).
    assert (kids h w = []) as Hk.
    { destruct (kids h w) eqn:E; [done|]. exfalso.
      pose proof (inner_end S HS h g Hwf Hb w Hw Hwr) as Hie.
      rewrite E in Hie. specialize (Hie ltac:(done)). lia. }
    destruct (proj1 (leaf_parent S h g Hwf Hb w Hw Hwr Hk) Hp)
      as (k & Hk0 & Hne & Hc & Hlt).
    rewrite <- Hj in *. exists (Z.to_nat k), (ch S (Z.of_nat j)).
    split; [lia|]. split.
    + rewrite <- (Nat2Z.id j) at 1. apply lookup_ch. lia.
    + rewrite <- Hc. by apply lookup_ch.
  - intros (k & c & Hne & Hj & Hk).
    pose proof (lookup_lt_Some _ _ _ Hj) as Hjl.
    pose proof (lookup_lt_Some _ _ _ Hk) as Hkl.
    destruct (wf_leaf _ _ _ _ _ Hwf (Z.of_nat j)) as (w & Hw & Hwr & Hkw & Hhd).
    { rewrite len_text'. unfold len. lia. }
    exists w. split; [done|]. split; [done|]. split.
    + apply (leaf_parent S h g Hwf Hb w Hw Hwr Hkw).
      exists (Z.of_nat k). rewrite Hhd. unfold len.
      split; [lia|]. split; [lia|]. split; [|lia].
      rewrite (ch_lookup S k c), (ch_lookup S j c); done.
    + rewrite Hhd, (leaf_end S h g Hwf w Hw Hwr Hkw). f_equal. lia.
Qed.

Lemma reports_symbol_twice w y :
  reports w y ->
  exists j1 j2 c, j1 <> j2 /\ S !! j1 = Some c /\ S !! j2 = Some c.
Proof.
  intros (Hw & Hwr & Hp & _).
  destruct (wf_node _ _ _ _ _ Hwf w Hw Hwr) as (_&_&Hpv&_&_&Hget&_).
  assert (kids h (par g w) <> []) as Hk by by eapply kids_not_nil_of_get.
  destruct (two_occurrences T h g _ _ Hwf (par g w) Hpv
              (inner_two h Hb _ Hpv Hp Hk))
    as (j1 & j2 & Hj & Hj1 & Hj2 & Hd1 & Hd2 & Ha1 & Ha2 & _).
  pose proof (dep_par_lt T h g _ _ Hwf (par g w) Hpv Hp) as Hd.
  rewrite len_text' in Hd1, Hd2.
  exists (Z.to_nat j1), (Z.to_nat j2), (ch S j1).
  split; [lia|]. split; [apply lookup_ch; lia|].
  replace (ch S j1) with (ch S j2); [apply lookup_ch; lia|].
  rewrite <- !(ch_app_l S [sentinel]) by lia. fold T.
  pose proof (Ha1 0 ltac:(lia)) as E1. pose proof (Ha2 0 ltac:(lia)) as E2.
  rewrite !Z.add_0_r in E1, E2. congruence.
Qed.

Lemma reports_inner w a b :
  reports w (a, b) -> b < len S ->
  exists k, k <> a /\ 0 <= k /\ k + (b + 1 - a) <= len S /\
    py_slice S k (k + (b + 1 - a)) = py_slice S a (b + 1).
Proof.
  intros (Hw & Hwr & Hp & [= -> ->]) Hlt.
  assert (kids h w <> []) as Hk.
  { intros Hk. rewrite (leaf_end S h g Hwf w Hw Hwr Hk) in Hlt. lia. }
  destruct (two_occurrences T h g _ _ Hwf w Hw (inner_two h Hb _ Hw Hwr Hk))
    as (j1 & j2 & Hj & Hj1 & Hj2 & Hd1 & Hd2 & Ha1 & Ha2 & _).
  rewrite len_text' in Hd1, Hd2.
  destruct (node_range T h g _ _ Hwf w Hw Hwr) as (H0 & Hn & Hd).
  replace (en h w - 1 + 1 - hd h g w) with (dep g w) by (unfold hd; lia).
  replace (en h w - 1 + 1) with (hd h g w + dep g w) by (unfold hd; lia).
  assert (hd h g w + dep g w <= len S) as Hin by (unfold hd in *; lia).
  assert (forall j, 0 <= j -> j + dep g w < len S + 1 ->
            agree T (hd h g w) j (dep g w) ->
            py_slice S j (j + dep g w) = py_slice S (hd h g w) (hd h g w + dep g w))
    as Hsame.
  { intros j Hj0 Hjd Ha. rewrite !py_slice_sub by lia.
    replace (j + dep g w - j) with (dep g w) by lia.
    replace (hd h g w + dep g w - hd h g w) with (dep g w) by lia.
    rewrite <- !(sub_app_l S [sentinel]) by lia. fold T.
    apply agree_sub; try lia; [rewrite len_text'; lia..|].
    by apply agree_sym. }
  destruct (decide (j1 = hd h g w)) as [E|E].
  - exists j2. split; [congruence|]. split; [done|]. split; [lia|].
    by apply Hsame.
  - exists j1. split; [done|]. split; [done|]. split; [lia|].
    by apply Hsame.
Qed.
End Reported.

(** ** What [find_repeats] returns on a sequence over A, C, G, T *)



(** X2: every pair [(start, end)] that [find_repeats] returns for a
    sequence over A, C, G, T satisfies [0 <= start < end <= len(S)]: read
    as the half-open slice [S[start:end]] it is inside the sequence and
    not empty, and [end] may be [len(S)] itself. *)
Theorem find_repeats_in_bounds (S : str) (fuel : nat) (l : list range)
    (start_pos end_pos : Z) :
  Forall nucleotide S -> run fuel S = Ok (Some l) ->
  (start_pos, end_pos) ∈ l ->
  0 <= start_pos < end_pos /\ end_pos <= len S.
Proof.
  intros HS Hrun Hin.
  destruct (run_nodes_any S fuel _ HS Hrun) as (h & g & Hwf & Hb & Hres).
  destruct (proj1 (Hres _) Hin) as (w & Hw).
  by apply (reports_bounds S h g Hwf w).
Qed.

Lemma find_repeats_in_bounds_witness : 0 <= 1 < 2 /\ 2 <= len (dna "AA").
Proof.
  apply (find_repeats_in_bounds (dna "AA") 10 [(0, 2); (1, 2)] 1 2).
  - repeat constructor; unfold nucleotide; tauto.
  - reflexivity.
  - apply list_elem_of_In. cbn. tauto.
Defined.

(** X3: for a sequence over A, C, G, T, the pair [(j, len(S))] is among
    the pairs returned exactly when the symbol [S[j]] occurs at another
    index of the sequence too. *)
Theorem find_repeats_tail_ranges (S : str) (fuel : nat)
    (res : option (list range)) (j : nat) :
  Forall nucleotide S -> run fuel S = Ok res ->
  (Z.of_nat j, len S) ∈ default [] res <->
  exists k c, k <> j /\ S !! j = Some c /\ S !! k = Some c.
Proof.
  intros HS Hrun.
  destruct (run_nodes_any S fuel _ HS Hrun) as (h & g & Hwf & Hb & Hres).
  rewrite Hres. by apply (reports_tail S HS h g Hwf Hb).
Qed.

Lemma find_repeats_tail_ranges_witness :
  (Z.of_nat 2, len (dna "ACA")) ∈ default [] (Some [(0, 3); (2, 3)]) <->
  exists k c, k <> 2%nat /\ dna "ACA" !! 2%nat = Some c /\
              dna "ACA" !! k = Some c.
Proof.
  apply (find_repeats_tail_ranges (dna "ACA") 10).
  - repeat constructor; unfold nucleotide; tauto.
  - reflexivity.
Defined.

(** X4: for a sequence over A, C, G, T, [find_repeats] returns [None]
    exactly when no symbol occurs twice in the sequence. *)
Theorem find_repeats_None_iff_distinct (S : str) (fuel : nat) :
  Forall nucleotide S -> (2 * (length S + 1) <= fuel)%nat ->
  run fuel S = Ok None <-> NoDup S.
Proof.
  intros HS Hfuel.
  destruct (run_nodes S fuel HS Hfuel)
    as (h & g & res & _ & Hwf & [Hb _] & Hrun & Hres).
  rewrite Hrun. split.
  - intros [= ->]. apply NoDup_alt. intros i j c Hi Hj.
    destruct (decide (i = j)) as [|Hne]; [done|]. exfalso.
    destruct (proj2 (reports_tail S HS h g Hwf Hb i)) as (w & Hw).
    { by exists j, c. }
    apply (elem_of_nil (Z.of_nat i, len S)). apply Hres. by exists w.
  - intros Hnd. destruct res as [l|]; [exfalso|done].
    assert (l <> []) as Hl.
    { apply run_spec in Hrun as (t & _ & Hfind).
      by apply find_repeats_spec in Hfind as (_ & _ & _ & ?). }
    destruct l as [|y l]; [done|].
    destruct (proj1 (Hres y)) as (w & Hw); [by left|].
    destruct (reports_symbol_twice S h g Hwf Hb w y Hw)
      as (j1 & j2 & c & Hne & H1 & H2).
    apply Hne. by eapply NoDup_alt.
Qed.

Lemma find_repeats_None_iff_distinct_witness :
  run 10 (dna "GAC") = Ok None <-> NoDup (dna "GAC").
Proof.
  apply find_repeats_None_iff_distinct.
  - repeat constructor; unfold nucleotide; tauto.
  - cbn. lia.
Defined.

(** X5: for a sequence over A, C, G, T, a returned pair [(start, end)]
    with [end < len(S)] marks a repeat, and so does the slice that is one
    symbol longer: [S[start:end+1]] is read at another index [k] of the
    sequence as well. *)
Theorem find_repeats_inner_ranges_repeat (S : str) (fuel : nat)
    (l : list range) (start_pos end_pos : Z) :
  Forall nucleotide S -> run fuel S = Ok (Some l) ->
  (start_pos, end_pos) ∈ l -> end_pos < len S ->
  exists k, k <> start_pos /\ 0 <= k /\
    k + (end_pos + 1 - start_pos) <= len S /\
    py_slice S k (k + (end_pos + 1 - start_pos))
      = py_slice S start_pos (end_pos + 1).
Proof.
  intros HS Hrun Hin Hlt.
  destruct (run_nodes_any S fuel _ HS Hrun) as (h & g & Hwf & Hb & Hres).
  destruct (proj1 (Hres _) Hin) as (w & Hw).
  by apply (reports_inner S h g Hwf Hb w).
Qed.

Lemma find_repeats_inner_ranges_repeat_witness :
  exists k, k <> 0 /\ 0 <= k /\ k + (1 + 1 - 0) <= len (dna "AAAA") /\
    py_slice (dna "AAAA") k (k + (1 + 1 - 0)) = py_slice (dna "AAAA") 0 (1 + 1).
Proof.
  apply (find_repeats_inner_ranges_repeat (dna "AAAA") 10
           [(0, 1); (0, 2); (0, 4); (1, 4); (2, 4); (3, 4)] 0 1).
  - repeat constructor; unfold nucleotide; tauto.
  - reflexivity.
  - apply list_elem_of_In. cbn. tauto.
  - unfold len. cbn. lia.
Defined.

(** ** The strings spelled by the tree *)

(** [spells T h v a]: following child entries from the root leads to
    the node [v], and the slices [T[child.start:child.end]] met on the
    way, joined, are [a]. *)
Inductive spells (T : str) (h : store) : nat -> str -> Prop :=
| spells_root : spells T h root []
| spells_child v a c u :
    spells T h v a -> dict_get (kids h v) c = Some u ->
    spells T h u (a ++ py_slice T (st h u) (en h u)).

Section Spells.
Context (T : str).
Let n := len T.
Context (h : store) (g : shape) (L : Z) (P : nat -> Prop).
Context (Hwf : wf T h g L P).

Lemma spells_str_of v a :
  spells T h v a -> (v < length h)%nat /\ a = str_of T h g v.
Proof.
  induction 1 as [|v a c u _ [Hv ->] Hget].
  - destruct (wf_root _ _ _ _ _ Hwf) as (? & _).
    split; [done|]. by rewrite (str_of_root T h g L P Hwf).
  - destruct (wf_child _ _ _ _ _ Hwf v c u Hv Hget) as (Hu & _).
    split; [done|]. symmetry. by apply (str_of_child T h g L P Hwf v c u).
Qed.

Lemma str_of_spells v : (v < length h)%nat -> spells T h v (str_of T h g v).
Proof.
  assert (forall k v, (v < length h)%nat -> dep g v <= Z.of_nat k ->
                      spells T h v (str_of T h g v)) as Haux.
  { induction k as [|k IH]; intros w Hw Hk.
    - pose proof (dep_nonneg T h g L P Hwf w Hw).
      rewrite (dep_zero_root T h g L P Hwf w Hw) by lia.
      rewrite (str_of_root T h g L P Hwf). constructor.
    - destruct (decide (w = root)) as [->|Hne].
      { rewrite (str_of_root T h g L P Hwf). constructor. }
      pose proof (par_valid T h g L P Hwf w Hw Hne) as Hp.
      pose proof (dep_par_lt T h g L P Hwf w Hw Hne) as Hd.
      destruct (wf_node _ _ _ _ _ Hwf w Hw Hne) as (_&_&_&_&_&Hget&_).
      rewrite (str_of_child T h g L P Hwf (par g w) _ w Hp Hget).
      eapply spells_child; [|exact Hget]. apply IH; [done|lia]. }
  intros Hv. apply (Haux (Z.to_nat (dep g v))); [done|].
  pose proof (dep_nonneg T h g L P Hwf v Hv). lia.
Qed.

Lemma str_of_length v :
  (v < length h)%nat -> len (str_of T h g v) = dep g v.
Proof.
  intros Hv. unfold str_of, sub, len. rewrite length_take, length_drop.
  destruct (decide (v = root)) as [->|Hne].
  - destruct (wf_root _ _ _ _ _ Hwf) as (_ & -> & _). lia.
  - destruct (node_range T h g L P Hwf v Hv Hne) as (? & ? & ?).
    unfold n, len in *. lia.
Qed.
End Spells.

(** ** The tree that [SuffixTree(S)] builds *)

(** For any text at all. *)
Lemma SuffixTree_init_shape (S : str) (fuel : nat) (t : SuffixTree) :
  SuffixTree_init fuel S = Ok t ->
  text t = S ++ [sentinel] /\
  branching (nodes t) /\ len (nodes t) <= 2 * len S + 3 /\
  exists g L P, wf (S ++ [sentinel]) (nodes t) g L P.
Proof.
  intros Hrun.
  destruct (SuffixTree_init_compact S (fuel `max` (2 * (length S + 1))))
    as (s & Hrun' & (g & Hinv) & [Hb Hlen] & Hrem & _); [lia|].
  rewrite (SuffixTree_init_mono fuel) in Hrun'; [|lia|by rewrite Hrun].
  rewrite Hrun in Hrun'. injection Hrun' as ->. cbn [text nodes].
  split; [done|]. split; [done|]. split.
  - rewrite (len_text S) in Hlen. lia.
  - pose proof (pi_wf _ _ _ _ Hinv) as Hwf. by eauto.
Qed.

(** For a sequence over A, C, G, T. *)
Lemma SuffixTree_init_finished (S : str) (fuel : nat) (t : SuffixTree) :
  Forall nucleotide S -> SuffixTree_init fuel S = Ok t ->
  text t = S ++ [sentinel] /\
  exists g, wf (S ++ [sentinel]) (nodes t) g (len (S ++ [sentinel]))
               (pending None).
Proof.
  intros HS Hrun.
  destruct (SuffixTree_init_full S (fuel `max` (2 * (length S + 1))) HS)
    as (h & g & Hrun' & Hwf & _); [lia|].
  rewrite (SuffixTree_init_mono fuel) in Hrun'; [|lia|by rewrite Hrun].
  rewrite Hrun in Hrun'. injection Hrun' as ->. cbn [text nodes].
  split; [done|]. by exists g.
Qed.

(** X6: the tree built for a sequence of [len(S)] symbols (any symbols)
    holds at most [2 * len(S) + 3] nodes, and every node other than the
    root has no child or at least two. *)
Theorem suffix_tree_compact (S : str) (fuel : nat) (t : SuffixTree) :
  SuffixTree_init fuel S = Ok t ->
  len (nodes t) <= 2 * len S + 3 /\
  forall v nd, nodes t !! v = Some nd -> v <> root ->
    children nd = [] \/ (2 <= length (children nd))%nat.
Proof.
  intros Hrun.
  destruct (SuffixTree_init_shape S fuel t Hrun) as (_ & Hb & Hlen & _).
  split; [done|]. intros v nd Hv Hne.
  pose proof (lookup_lt_Some _ _ _ Hv) as Hlt.
  specialize (Hb v Hlt Hne). unfold kids, node_at in Hb. by rewrite Hv in Hb.
Qed.

(** The tree of the sequence AA, for the examples. *)
Definition tree_AA : SuffixTree :=
  mkTree (dna "AA$")
    [mkNode [("A"%char, 2%nat); ("$"%char, 4%nat)] (-1) (-1) None;
     mkNode [] 1 3 None;
     mkNode [("$"%char, 3%nat); ("A"%char, 1%nat)] 0 1 (Some 0%nat);
     mkNode [] 2 3 None;
     mkNode [] 2 3 None].

Lemma tree_AA_built : SuffixTree_init 10 (dna "AA") = Ok tree_AA.
Proof. reflexivity. Qed.

Lemma suffix_tree_compact_witness :
  len (nodes tree_AA) <= 2 * len (dna "AA") + 3 /\
  forall v nd, nodes tree_AA !! v = Some nd -> v <> root ->
    children nd = [] \/ (2 <= length (children nd))%nat.
Proof. apply (suffix_tree_compact (dna "AA") 10). reflexivity. Defined.

(** X7: in the tree built for any sequence, every entry [c -> u] of a
    node's [children] names a node of the tree other than the root, whose
    edge label [text[u.start:u.end]] is a non-empty slice inside the text
    and begins with the key: [text[u.start] == c]. *)
Theorem suffix_tree_edges (S : str) (fuel : nat) (t : SuffixTree)
    (v : nat) (nd : SuffixTreeNode) (c : ascii) (u : nat) :
  SuffixTree_init fuel S = Ok t ->
  nodes t !! v = Some nd -> dict_get (children nd) c = Some u ->
  exists child, nodes t !! u = Some child /\ u <> root /\
    0 <= start child < end_ child /\ end_ child <= len (text t) /\
    py_index (text t) (start child) = Ok c.
Proof.
  intros Hrun Hv Hget.
  destruct (SuffixTree_init_shape S fuel t Hrun) as (-> & _ & _ & g & L & P & Hwf).
  pose proof (lookup_lt_Some _ _ _ Hv) as Hlt.
  assert (dict_get (kids (nodes t) v) c = Some u) as Hget'.
  { unfold kids, node_at. by rewrite Hv. }
  destruct (wf_child _ _ _ _ _ Hwf v c u Hlt Hget') as (Hu & Hur & _ & Hc).
  destruct (wf_node _ _ _ _ _ Hwf u Hu Hur) as (Hst & Hen & _).
  destruct (lookup_lt_is_Some_2 _ _ Hu) as [child Hchild].
  unfold st, en, node_at in *. rewrite Hchild in *. cbn in *.
  exists child. do 4 (split; [done|]).
  rewrite py_index_ch by lia. by rewrite Hc.
Qed.

Lemma suffix_tree_edges_witness :
  exists child, nodes tree_AA !! 1%nat = Some child /\ 1%nat <> root /\
    0 <= start child < end_ child /\ end_ child <= len (text tree_AA) /\
    py_index (text tree_AA) (start child) = Ok "A"%char.
Proof.
  apply (suffix_tree_edges (dna "AA") 10 tree_AA 2
           (mkNode [("$"%char, 3%nat); ("A"%char, 1%nat)] 0 1 (Some 0%nat))).
  - reflexivity.
  - reflexivity.
  - reflexivity.
Defined.

Lemma sub_prefix T a d d' :
  0 <= a -> 0 <= d <= d' -> sub T a d `prefix_of` sub T a d'.
Proof.
  intros Ha Hd. exists (sub T (a + d) (d' - d)).
  rewrite <- sub_app by lia. f_equal. lia.
Qed.

(** X8: the tree built for a sequence over A, C, G, T is an index of the
    substrings of [S + '$']: a non-empty string occurs in [S + '$']
    exactly when it is a prefix of the string spelled on some path from
    the root. *)
Theorem suffix_tree_spells_substrings (S : str) (fuel : nat)
    (t : SuffixTree) (b : str) :
  Forall nucleotide S -> SuffixTree_init fuel S = Ok t -> b <> [] ->
  (exists l1 l2, S ++ [sentinel] = l1 ++ b ++ l2) <->
  (exists v a, spells (text t) (nodes t) v a /\ b `prefix_of` a).
Proof.
  intros HS Hrun Hb.
  destruct (SuffixTree_init_finished S fuel t HS Hrun) as (-> & g & Hwf).
  set (T := S ++ [sentinel]) in *. set (h := nodes t) in *.
  assert (0 < len b) as Hlb by (destruct b; [done|unfold len; cbn; lia]).
  split.
  - intros (l1 & l2 & E).
    assert (len T = len l1 + len b + len l2) as Hlen.
    { rewrite E. unfold len. rewrite !length_app. lia. }
    assert (sub T (len l1) (len b) = b) as Hsub.
    { unfold sub, len. rewrite !Nat2Z.id, E.
      rewrite drop_app_length. by rewrite take_app_length. }
    destruct (occurs_located T h g _ _ Hwf (len l1) (len l1) (len b))
      as (v & (Hv & Hne & Hd) & Hag);
      [unfold len in *; lia|done|unfold len in *; lia|apply agree_refl|].
    destruct (node_range T h g _ _ Hwf v Hv Hne) as (? & ? & ?).
    exists v, (str_of T h g v). split; [by apply (str_of_spells T h g _ _ Hwf)|].
    rewrite <- Hsub.
    rewrite <- (agree_sub T (hd h g v) (len l1) (len b));
      [|lia|unfold len; lia|lia|unfold len in *; lia|done].
    apply sub_prefix; lia.
  - intros (v & a & Hsp & r & ->).
    destruct (spells_str_of T h g _ _ Hwf v _ Hsp) as (Hv & E).
    unfold str_of, sub in E.
    exists (take (Z.to_nat (hd h g v)) T),
      (r ++ drop (Z.to_nat (dep g v)) (drop (Z.to_nat (hd h g v)) T)).
    rewrite <- (take_drop (Z.to_nat (hd h g v)) T) at 1. f_equal.
    rewrite <- (take_drop (Z.to_nat (dep g v)) (drop _ T)) at 1.
    rewrite <- E. by rewrite <- app_assoc.
Qed.

Lemma suffix_tree_spells_substrings_witness :
  (exists l1 l2, dna "AA" ++ [sentinel] = l1 ++ dna "A$" ++ l2) <->
  (exists v a, spells (text tree_AA) (nodes tree_AA) v a /\
               dna "A$" `prefix_of` a).
Proof.
  apply (suffix_tree_spells_substrings (dna "AA") 10).
  - repeat constructor; unfold nucleotide; tauto.
  - reflexivity.
  - done.
Defined.

Lemma sub_drop1 T a d :
  0 <= a -> 0 < d -> drop 1 (sub T a d) = sub T (a + 1) (d - 1).
Proof.
  intros Ha Hd. unfold sub.
  replace (Z.to_nat d) with (1 + Z.to_nat (d - 1))%nat by lia.
  rewrite <- take_drop_commute, drop_drop. do 2 f_equal. lia.
Qed.

(** X9: in the tree built for a sequence over A, C, G, T every node with
    children, the root apart, has a suffix link, and the link leads to
    the node that spells the same string without its first symbol. *)
Theorem suffix_links_drop_first (S : str) (fuel : nat) (t : SuffixTree)
    (v : nat) (a : str) :
  Forall nucleotide S -> SuffixTree_init fuel S = Ok t ->
  spells (text t) (nodes t) v a -> v <> root -> kids (nodes t) v <> [] ->
  exists w, lnk (nodes t) v = Some w /\
            spells (text t) (nodes t) w (drop 1 a).
Proof.
  intros HS Hrun Hsp Hne Hk.
  destruct (SuffixTree_init_finished S fuel t HS Hrun) as (E & g & Hwf).
  rewrite E in *. set (T := S ++ [sentinel]) in *. set (h := nodes t) in *.
  destruct (spells_str_of T h g _ _ Hwf v _ Hsp) as (Hv & ->).
  destruct (lnk h v) as [w|] eqn:Hl.
  2:{ by pose proof (wf_nolink _ _ _ _ _ Hwf v Hv Hne Hk Hl). }
  exists w. split; [done|].
  destruct (wf_link _ _ _ _ _ Hwf v w Hv Hl) as (Hw & _ & Hd & Hag).
  destruct (node_range T h g _ _ Hwf v Hv Hne) as (? & ? & ?).
  replace (drop 1 (str_of T h g v)) with (str_of T h g w);
    [by apply (str_of_spells T h g _ _ Hwf)|].
  unfold str_of. rewrite sub_drop1 by lia. rewrite <- Hd.
  destruct (decide (w = root)) as [->|Hwr].
  - destruct (wf_root _ _ _ _ _ Hwf) as (_ & -> & _). done.
  - destruct (node_range T h g _ _ Hwf w Hw Hwr) as (? & ? & ?).
    apply agree_sub; [lia..|done].
Qed.

Lemma suffix_links_drop_first_witness :
  exists w, lnk (nodes tree_AA) 2 = Some w /\
            spells (text tree_AA) (nodes tree_AA) w (drop 1 (dna "A")).
Proof.
  apply (suffix_links_drop_first (dna "AA") 10).
  - repeat constructor; unfold nucleotide; tauto.
  - reflexivity.
  - change (dna "A") with
      ([] ++ py_slice (text tree_AA) (st (nodes tree_AA) 2) (en (nodes tree_AA) 2)).
    apply (spells_child _ _ root [] "A"%char 2); [constructor|reflexivity].
  - done.
  - done.
Defined.

(** ** Which repeats are reported *)

(** The string of length [d] read at [p1] is read at [p2] too, and the
    symbols that follow it there differ: [T[p1:p1+d] == T[p2:p2+d]] and
    [T[p1+d] != T[p2+d]], all inside the text. *)
Definition right_branching (T : str) (p1 p2 d : Z) : Prop :=
  0 <= p1 /\ 0 <= p2 /\ p1 + d < len T /\ p2 + d < len T /\
  agree T p1 p2 d /\ ch T (p1 + d) <> ch T (p2 + d).

Section Branching.
Context (T : str).
Context (h : store) (g : shape) (P : nat -> Prop).
Context (Hwf : wf T h g (len T) P).

(** A string that goes on in two ways ends at a node. *)
Lemma branching_node p1 p2 d :
  0 < d -> right_branching T p1 p2 d ->
  exists v, (v < length h)%nat /\ v <> root /\ dep g v = d /\
            agree T (hd h g v) p1 d.
Proof.
  intros Hd (Hp1 & Hp2 & Hb1 & Hb2 & Hag & Hch).
  destruct (occurs_located T h g _ _ Hwf p1 p1 (d + 1))
    as (v1 & Hl1 & Ha1); [lia|lia|lia|apply agree_refl|].
  destruct (occurs_located T h g _ _ Hwf p2 p2 (d + 1))
    as (v2 & Hl2 & Ha2); [lia|lia|lia|apply agree_refl|].
  destruct (loc_prefix T h g _ _ Hwf v1 (d + 1) d) as (u1 & Hu1 & Hanc1 & Hag1);
    [done|lia|].
  destruct (loc_prefix T h g _ _ Hwf v2 (d + 1) d) as (u2 & Hu2 & Hanc2 & Hag2);
    [done|lia|].
  assert (agree T (hd h g u1) p1 d) as Hup1.
  { eapply agree_trans; [exact Hag1|]. eapply agree_le; [|exact Ha1]. lia. }
  assert (agree T (hd h g u2) p2 d) as Hup2.
  { eapply agree_trans; [exact Hag2|]. eapply agree_le; [|exact Ha2]. lia. }
  assert (u1 = u2) as <-.
  { apply (loc_unique T h g _ _ Hwf d); [done..|].
    eapply agree_trans; [exact Hup1|]. eapply agree_trans; [exact Hag|].
    by apply agree_sym. }
  pose proof Hu1 as (Hv & Hne & Hdv).
  pose proof Hl1 as (Hv1 & Hne1 & Hd1). pose proof Hl2 as (Hv2 & Hne2 & Hd2).
  exists u1. do 2 (split; [done|]). split; [|done].
  destruct (decide (dep g u1 = d)) as [|Hlt]; [done|]. exfalso.
  assert (u1 = v1) as E1.
  { destruct (decide (u1 = v1)) as [|Hn]; [done|]. exfalso.
    destruct (anc_proper T h g _ _ Hwf u1 v1 Hanc1 Hv1 Hn) as (_ & ?). lia. }
  assert (u1 = v2) as E2.
  { destruct (decide (u1 = v2)) as [|Hn]; [done|]. exfalso.
    destruct (anc_proper T h g _ _ Hwf u1 v2 Hanc2 Hv2 Hn) as (_ & ?). lia. }
  apply Hch. rewrite <- (Ha1 d) by lia. rewrite <- (Ha2 d) by lia.
  by rewrite <- E1, <- E2.
Qed.

(** A node below which another node lies does not hang from the root. *)
Lemma branching_parent p1 p2 d q1 q2 d' :
  0 < d' < d -> right_branching T p1 p2 d -> right_branching T q1 q2 d' ->
  agree T p1 q1 d' ->
  exists v, (v < length h)%nat /\ v <> root /\ par g v <> root /\
            dep g v = d /\ agree T (hd h g v) p1 d.
Proof.
  intros Hd Hp Hq Hpq.
  destruct (branching_node p1 p2 d) as (v & Hv & Hvr & Hdv & Hav); [lia|done|].
  destruct (branching_node q1 q2 d') as (u & Hu & Hur & Hdu & Hau); [lia|done|].
  exists v. do 2 (split; [done|]). split; [|done].
  destruct (loc_prefix T h g _ _ Hwf v d d') as (u' & Hl & Hanc & Hag).
  { rewrite <- Hdv. by apply (loc_node T h g _ _ Hwf). }
  { lia. }
  assert (u' = u) as ->.
  { apply (loc_unique T h g _ _ Hwf d'); [done| |].
    - rewrite <- Hdu. by apply (loc_node T h g _ _ Hwf).
    - eapply agree_trans; [exact Hag|].
      eapply agree_trans; [eapply agree_le; [|exact Hav]; lia|].
      eapply agree_trans; [exact Hpq|]. by apply agree_sym. }
  assert (u <> v) as Huv by (intros ->; lia).
  destruct (anc_proper T h g _ _ Hwf u v Hanc Hv Huv) as (_ & Hle).
  intros Hpr. rewrite Hpr in Hle.
  destruct (wf_root _ _ _ _ _ Hwf) as (_ & Hd0 & _). lia.
Qed.
End Branching.

(** X10: let [S] be a sequence over A, C, G, T and [T = S + '$'].  If the
    string of length [d] read at [p1] goes on in two ways in [T], and so
    does its prefix of a shorter length [d' > 0], then [find_repeats]
    returns the pair [(a, a + d - 1)] for an index [a] at which that
    string is read: [S[a:a+d] == S[p1:p1+d]]. *)
Theorem find_repeats_reports_branching (S : str) (fuel : nat)
    (res : option (list range)) (p1 p2 d q1 q2 d' : Z) :
  Forall nucleotide S -> run fuel S = Ok res -> 0 < d' < d ->
  right_branching (S ++ [sentinel]) p1 p2 d ->
  right_branching (S ++ [sentinel]) q1 q2 d' ->
  agree (S ++ [sentinel]) p1 q1 d' ->
  exists a, (a, a + d - 1) ∈ default [] res /\
            py_slice S a (a + d) = py_slice S p1 (p1 + d).
Proof.
  intros HS Hrun Hd Hp Hq Hpq.
  destruct (run_nodes_any S fuel _ HS Hrun) as (h & g & Hwf & Hb & Hres).
  destruct (branching_parent _ h g _ Hwf p1 p2 d q1 q2 d' Hd Hp Hq Hpq)
    as (v & Hv & Hvr & Hpr & Hdv & Hag).
  destruct (node_range _ h g _ _ Hwf v Hv Hvr) as (H0 & Hn & _).
  destruct Hp as (Hp1 & _ & Hb1 & _).
  rewrite (len_text S) in Hn, Hb1.
  assert (kids h v <> []) as Hk.
  { intros Hk.
    destruct (wf_leaf _ _ _ _ _ Hwf (hd h g v)) as (_ & _ & _ & _ & _);
      [rewrite (len_text S); lia|].
    pose proof (leaf_end S h g Hwf v Hv Hvr Hk) as He.
    assert (hd h g v + d = len S + 1) as E by (unfold hd in *; lia).
    apply (sentinel_last S HS (p1 + (d - 1))); [lia|].
    rewrite <- (Hag (d - 1)) by lia.
    replace (hd h g v + (d - 1)) with (len S) by lia. apply ch_sentinel. }
  pose proof (inner_end S HS h g Hwf Hb v Hv Hvr Hk) as He.
  exists (hd h g v). split.
  - apply Hres. exists v. do 3 (split; [done|]). f_equal. unfold hd. lia.
  - assert (hd h g v + d <= len S) by (unfold hd in *; lia).
    rewrite !py_slice_sub by lia.
    replace (hd h g v + d - hd h g v) with d by lia.
    replace (p1 + d - p1) with d by lia.
    rewrite <- !(sub_app_l S [sentinel]) by lia.
    apply agree_sub; [lia|lia|rewrite (len_text S); lia..|done].
Qed.

Lemma find_repeats_reports_branching_witness :
  exists a, (a, a + 2 - 1) ∈ default [] (Some [(0, 1); (0, 2); (0, 4); (1, 4); (2, 4); (3, 4)]) /\
            py_slice (dna "AAAA") a (a + 2) = py_slice (dna "AAAA") 0 (0 + 2).
Proof.
  apply (find_repeats_reports_branching (dna "AAAA") 10 _ 0 2 2 0 3 1).
  - repeat constructor; unfold nucleotide; tauto.
  - reflexivity.
  - lia.
  - unfold right_branching, len. cbn. repeat split; try lia; [|done].
    intros m Hm. assert (m = 0 \/ m = 1) as [ -> | -> ] by lia; reflexivity.
  - unfold right_branching, len. cbn. repeat split; try lia; [|done].
    intros m Hm. assert (m = 0) as -> by lia. reflexivity.
  - intros m Hm. assert (m = 0) as -> by lia. reflexivity.
Defined.

(** ** Inner ranges come from branching strings only *)

Section InnerBranching.
Context (S : str) (HS : Forall nucleotide S).
Let T := S ++ [sentinel].
Context (h : store) (g : shape).
Context (Hwf : wf T h g (len T) (pending None)).
Context (Hb : branching h).

(** The string of an inner node, read where the node has its [hd], goes
    on in two ways. *)
Lemma inner_right_branching v :
  (v < length h)%nat -> v <> root -> kids h v <> [] ->
  exists p2, right_branching T (hd h g v) p2 (dep g v).
Proof.
  intros Hv Hne Hk.
  destruct (two_occurrences T h g _ _ Hwf v Hv (inner_two h Hb v Hv Hne Hk))
    as (j1 & j2 & Hj & Hj1 & Hj2 & Hd1 & Hd2 & Ha1 & Ha2 & Hc).
  destruct (node_range T h g _ _ Hwf v Hv Hne) as (H0 & Hn & Hd).
  pose proof (inner_end S HS h g Hwf Hb v Hv Hne Hk) as He.
  assert (hd h g v + dep g v < len T) as Hlt.
  { pose proof (len_text S) as HlT. fold T in HlT. unfold hd in *. lia. }
  destruct (decide (ch T (hd h g v + dep g v) = ch T (j1 + dep g v))) as [E|E].
  - exists j2. unfold right_branching. do 4 (split; [done|]).
    split; [done|]. by rewrite E.
  - exists j1. unfold right_branching. by do 4 (split; [done|]).
Qed.
End InnerBranching.

(** X11: for a sequence [S] over A, C, G, T and [T = S + '$'], a
    returned pair [(start, end)] with [end < len(S)] stands for a string
    that goes on in two ways: [T[start:end+1]] is read at another index
    [p2] too, with a different symbol after it, and the same holds for a
    shorter non-empty prefix of it (read at [q1] and [q2]). *)
Theorem find_repeats_inner_ranges_branching (S : str) (fuel : nat)
    (l : list range) (start_pos end_pos : Z) :
  Forall nucleotide S -> run fuel S = Ok (Some l) ->
  (start_pos, end_pos) ∈ l -> end_pos < len S ->
  exists p2 q1 q2 d',
    0 < d' < end_pos + 1 - start_pos /\
    right_branching (S ++ [sentinel]) start_pos p2 (end_pos + 1 - start_pos) /\
    right_branching (S ++ [sentinel]) q1 q2 d' /\
    agree (S ++ [sentinel]) start_pos q1 d'.
Proof.
  intros HS Hrun Hin Hlt.
  destruct (run_nodes_any S fuel _ HS Hrun) as (h & g & Hwf & Hb & Hres).
  destruct (proj1 (Hres _) Hin) as (w & Hw & Hwr & Hp & [= -> ->]).
  assert (kids h w <> []) as Hk.
  { intros Hk. rewrite (leaf_end S h g Hwf w Hw Hwr Hk) in Hlt. lia. }
  destruct (wf_node _ _ _ _ _ Hwf w Hw Hwr) as (?&?&Hpv&_&Hd&Hget&_&Hag&_).
  assert (kids h (par g w) <> []) as Hkp by by eapply kids_not_nil_of_get.
  pose proof (dep_par_lt _ h g _ _ Hwf (par g w) Hpv Hp) as Hdp.
  replace (en h w - 1 + 1 - hd h g w) with (dep g w) by (unfold hd; lia).
  destruct (inner_right_branching S HS h g Hwf Hb w Hw Hwr Hk) as (p2 & Hrb).
  destruct (inner_right_branching S HS h g Hwf Hb (par g w) Hpv Hp Hkp)
    as (q2 & Hrb').
  exists p2, (hd h g (par g w)), q2, (dep g (par g w)).
  split; [lia|]. by do 2 (split; [done|]).
Qed.

Lemma find_repeats_inner_ranges_branching_witness :
  exists p2 q1 q2 d',
    0 < d' < 1 + 1 - 0 /\
    right_branching (dna "AAAA" ++ [sentinel]) 0 p2 (1 + 1 - 0) /\
    right_branching (dna "AAAA" ++ [sentinel]) q1 q2 d' /\
    agree (dna "AAAA" ++ [sentinel]) 0 q1 d'.
Proof.
  apply (find_repeats_inner_ranges_branching (dna "AAAA") 10
           [(0, 1); (0, 2); (0, 4); (1, 4); (2, 4); (3, 4)] 0 1).
  - repeat constructor; unfold nucleotide; tauto.
  - reflexivity.
  - apply list_elem_of_In. cbn. tauto.
  - unfold len. cbn. lia.
Defined.

(** ** How many pairs there can be *)

Section Count.
Context (S : str) (HS : Forall nucleotide S).
Let T := S ++ [sentinel].
Context (h : store) (g : shape).
Context (Hwf : wf T h g (len T) (pending None)).
Context (Hb : branching h).

(** The leaf of the suffix that is the sentinel alone hangs from the
    root. *)
Lemma sentinel_leaf :
  exists w, (w < length h)%nat /\ w <> root /\ par g w = root.
Proof.
  pose proof (len_text S) as HlT. fold T in HlT.
  destruct (wf_leaf _ _ _ _ _ Hwf (len S)) as (w & Hw & Hwr & Hk & Hhd);
    [unfold len in *; lia|].
  exists w. do 2 (split; [done|]).
  destruct (decide (par g w = root)) as [|Hp]; [done|]. exfalso.
  apply (leaf_parent S h g Hwf Hb w Hw Hwr Hk) in Hp
    as (_ & _ & _ & _ & Hlt). lia.
Qed.

(** The nodes that stand for a pair are fewer than the nodes by two. *)
Lemma reports_count (l : list range) :
  NoDup l -> (forall y, y ∈ l -> exists w, reports h g w y) ->
  (length l + 2 <= length h)%nat.
Proof.
  intros Hnd Hl.
  destruct sentinel_leaf as (w0 & Hw0 & Hw0r & Hp0).
  destruct (wf_root _ _ _ _ _ Hwf) as (Hroot & _).
  set (f := fun w : nat => (hd h g w, en h w - 1)).
  set (cand := filter (fun w => w <> root /\ par g w <> root) (seq 0 (length h))).
  assert (l ⊆+ f <$> cand) as Hsub.
  { apply NoDup_submseteq; [done|]. intros y Hy.
    destruct (Hl y Hy) as (w & Hw & Hwr & Hp & ->).
    apply list_elem_of_fmap. exists w. split; [done|].
    apply list_elem_of_filter. split; [done|]. apply elem_of_seq. lia. }
  apply submseteq_length in Hsub. rewrite length_fmap in Hsub.
  assert (root :: w0 :: cand ⊆+ seq 0 (length h)) as Hsub'.
  { apply NoDup_submseteq.
    - apply NoDup_cons. split.
      { intros [?|Hin]%elem_of_cons; [done|].
        by apply list_elem_of_filter in Hin as [[? _] _]. }
      apply NoDup_cons. split.
      { intros Hin. by apply list_elem_of_filter in Hin as [[_ ?] _]. }
      apply NoDup_filter, NoDup_seq.
    - intros w [->|[->|Hin]%elem_of_cons]%elem_of_cons; apply elem_of_seq.
      + unfold root. lia.
      + lia.
      + apply list_elem_of_filter in Hin as [_ Hin].
        apply elem_of_seq in Hin. lia. }
  apply submseteq_length in Hsub'. rewrite length_seq in Hsub'. cbn in Hsub'.
  lia.
Qed.
End Count.

(** X12: for a sequence over A, C, G, T, [find_repeats] returns at most
    [2 * len(S) + 1] pairs. *)
Theorem find_repeats_at_most_linear (S : str) (fuel : nat) (l : list range) :
  Forall nucleotide S -> run fuel S = Ok (Some l) ->
  len l <= 2 * len S + 1.
Proof.
  intros HS Hrun.
  assert (NoDup l) as Hnd.
  { pose proof Hrun as Hrun'. apply run_spec in Hrun' as (t & _ & Hfind).
    apply find_repeats_spec in Hfind as (repeats & _ & -> & _).
    rewrite py_sort_perm. apply list_set_NoDup. }
  apply run_enough in Hrun.
  destruct (run_nodes S (fuel `max` (2 * (length S + 1))) HS)
    as (h & g & res' & _ & Hwf & [Hb Hlen] & Hrun' & Hres); [lia|].
  rewrite Hrun in Hrun'. injection Hrun' as <-.
  pose proof (reports_count S h g Hwf Hb l Hnd) as Hc.
  rewrite (len_text S) in Hlen. unfold len in *.
  enough (length l + 2 <= length h)%nat by lia.
  apply Hc. intros y Hy. by apply Hres.
Qed.

Lemma find_repeats_at_most_linear_witness :
  len [(0, 1); (0, 2); (0, 4); (1, 4); (2, 4); (3, 4)]
    <= 2 * len (dna "AAAA") + 1.
Proof.
  apply (find_repeats_at_most_linear (dna "AAAA") 10).
  - repeat constructor; unfold nucleotide; tauto.
  - reflexivity.
Defined.

(** * The driver: [DNARepeatFinder]

    The strings of the driver are lists of 8-bit characters, as in the
    rest of this development.  [check_duplicates], [validate_dna_strings]
    and [process_dna_strings] only compare strings and match them against
    [[ACGT]+], so nothing is lost for them. *)

From stdpp Require Import gmap.

(** The fields [__init__] sets (lines 106-110). *)
Record DNARepeatFinder := mkFinder {
  file_path : string;
  dna_strings : list str;
  results : list (str * option (list range));
  error : option string
}.


Definition set_error (self : DNARepeatFinder) (msg : string) : DNARepeatFinder :=
  mkFinder (file_path self) (dna_strings self) (results self) (Some msg).

Definition set_results (self : DNARepeatFinder)
    (r : list (str * option (list range))) : DNARepeatFinder :=
  mkFinder (file_path self) (dna_strings self) r (error self).

(** [if self.error:] holds for a string that is not empty; [None] and the
    empty string count as false. *)
Definition truthy (e : option string) : bool :=
  match e with
  | Some (String _ _) => true
  | _ => false
  end.

(** Lines 122-127: the loop of [check_duplicates], with the set [seen]. *)
Fixpoint check_duplicates_loop (seen : gset str) (l : list str)
    (self : DNARepeatFinder) : DNARepeatFinder :=
  match l with
  | [] => self
  | dna :: l' =>
      if bool_decide (dna ∈ seen) then set_error self "Error: Duplicate input!"
      else check_duplicates_loop ({[dna]} ∪ seen) l' self
  end.

Definition check_duplicates (self : DNARepeatFinder) : DNARepeatFinder :=
  check_duplicates_loop ∅ (dna_strings self) self.

(** [re.fullmatch(r'[ACGT]+', dna)]: a match object, which counts as
    true, or [None]. *)
Definition is_ACGT (c : ascii) : bool :=
  Ascii.eqb c "A" || Ascii.eqb c "C" || Ascii.eqb c "G" || Ascii.eqb c "T".

Definition fullmatch_ACGT_plus (dna : str) : bool :=
  match dna with
  | [] => false
  | _ => forallb is_ACGT dna
  end.

(** [f"Error: Invalid DNA string '{dna}' detected!"] *)
Definition invalid_message (dna : str) : string :=
  ("Error: Invalid DNA string '" ++ string_of_list_ascii dna
     ++ "' detected!")%string.

(** Lines 132-135. *)
Fixpoint validate_loop (l : list str) (self : DNARepeatFinder)
    : DNARepeatFinder :=
  match l with
  | [] => self
  | dna :: l' =>
      if negb (fullmatch_ACGT_plus dna) then set_error self (invalid_message dna)
      else validate_loop l' self
  end.

Definition validate_dna_strings (self : DNARepeatFinder) : DNARepeatFinder :=
  validate_loop (dna_strings self) self.

(** [self.results[dna] = repeats]: a key that is there keeps its place,
    a new one goes to the end. *)
Fixpoint results_set {V} (d : list (str * V)) (k : str) (v : V)
    : list (str * V) :=
  match d with
  | [] => [(k, v)]
  | (k', v') :: d' =>
      if bool_decide (k' = k) then (k, v) :: d' else (k', v') :: results_set d' k v
  end.

(** Lines 137-153.  The tree and its traversal are the ones above, so a
    run can stop for want of fuel. *)
Definition process_dna_strings (fuel : nat) (self : DNARepeatFinder)
    : result DNARepeatFinder :=
  if truthy (error self) then Ok self else
  let self := check_duplicates self in
  if truthy (error self) then Ok self else
  let self := validate_dna_strings self in
  if truthy (error self) then Ok self else
  for_each (dna_strings self) self (fun self dna =>
    repeats ← run fuel dna;
    Ok (set_results self (results_set (results self) dna repeats))).

Lemma check_duplicates_loop_spec (seen : gset str) (l : list str)
    (self : DNARepeatFinder) :
  check_duplicates_loop seen l self =
    if decide (NoDup l /\ Forall (fun x => x ∉ seen) l) then self
    else set_error self "Error: Duplicate input!".
Proof.
  revert seen. induction l as [|dna l IH]; intros seen; cbn.
  - rewrite decide_True; [done|]. split; constructor.
  - case_bool_decide as Hin.
    + rewrite decide_False; [done|]. intros [_ Hs].
      by apply Forall_cons in Hs as [? _].
    + rewrite IH. destruct (decide (NoDup l /\ _)) as [[Hnd Hs]|Hn].
      * rewrite decide_True; [done|]. rewrite Forall_forall in Hs. split.
        -- constructor; [|done]. intros Hd. apply (Hs dna Hd). set_solver.
        -- constructor; [done|]. apply Forall_forall. intros x Hx.
           specialize (Hs x Hx). set_solver.
      * rewrite decide_False; [done|]. intros [Hnd Hs]. apply Hn.
        apply NoDup_cons in Hnd as [Hd Hnd].
        apply Forall_cons in Hs as [_ Hs]. split; [done|].
        rewrite Forall_forall in Hs. apply Forall_forall.
        intros x Hx. apply not_elem_of_union. split.
        -- apply not_elem_of_singleton. by intros ->.
        -- by apply Hs.
Qed.

(** X13: [check_duplicates] sets the error to "Error: Duplicate input!"
    exactly when some string stands twice in the list, and changes
    nothing else; when the strings are all different it leaves the
    object as it is, an earlier error included. *)
Theorem check_duplicates_spec (self : DNARepeatFinder) :
  check_duplicates self =
    if decide (NoDup (dna_strings self)) then self
    else set_error self "Error: Duplicate input!".
Proof.
  unfold check_duplicates. rewrite check_duplicates_loop_spec.
  destruct (decide (NoDup (dna_strings self))) as [Hnd|Hnd].
  - rewrite decide_True; [done|]. split; [done|].
    apply Forall_forall. set_solver.
  - rewrite decide_False; [done|]. by intros [? _].
Qed.

Lemma is_ACGT_spec c : is_ACGT c = true <-> nucleotide c.
Proof.
  unfold is_ACGT, nucleotide. rewrite !orb_true_iff.
  rewrite !Ascii.eqb_eq. tauto.
Qed.

(** The pattern [[ACGT]+] lets through what [valid_dna] describes. *)
Lemma fullmatch_ACGT_plus_spec dna :
  fullmatch_ACGT_plus dna = true <-> valid_dna dna.
Proof.
  unfold valid_dna. destruct dna as [|c dna].
  - cbn. split; [done|]. by intros [? _].
  - unfold fullmatch_ACGT_plus. rewrite forallb_forall, Forall_forall.
    split.
    + intros H. split; [done|]. intros x Hx%list_elem_of_In.
      by apply is_ACGT_spec, H.
    + intros [_ H] x Hx%list_elem_of_In. by apply is_ACGT_spec, H.
Qed.


Lemma validate_loop_invalid pre d post self :
  Forall valid_dna pre -> ~ valid_dna d ->
  validate_loop (pre ++ d :: post) self = set_error self (invalid_message d).
Proof.
  intros Hpre Hd. induction Hpre as [|x pre Hx _ IH]; cbn.
  - destruct (fullmatch_ACGT_plus d) eqn:E; [|done].
    by apply fullmatch_ACGT_plus_spec in E.
  - apply fullmatch_ACGT_plus_spec in Hx. by rewrite Hx.
Qed.

(** X14: [validate_dna_strings] stops at the first string that is empty
    or holds a symbol other than A, C, G, T, and sets the error to the
    message that quotes this string; nothing else changes. *)
Theorem validate_dna_strings_first_invalid (self : DNARepeatFinder)
    (pre post : list str) (d : str) :
  dna_strings self = pre ++ d :: post ->
  Forall valid_dna pre -> ~ valid_dna d ->
  validate_dna_strings self = set_error self (invalid_message d).
Proof.
  intros E Hpre Hd. unfold validate_dna_strings. rewrite E.
  by apply validate_loop_invalid.
Qed.

Lemma validate_dna_strings_first_invalid_witness :
  validate_dna_strings
    (mkFinder "f" [dna "ACGT"; dna "ACXT"; dna ""] [] None)
  = set_error (mkFinder "f" [dna "ACGT"; dna "ACXT"; dna ""] [] None)
      "Error: Invalid DNA string 'ACXT' detected!".
Proof.
  apply (validate_dna_strings_first_invalid _ [dna "ACGT"] [dna ""] (dna "ACXT")).
  - reflexivity.
  - apply Forall_singleton. split; [done|].
    repeat constructor; unfold nucleotide; tauto.
  - intros [_ H]. apply Forall_cons in H as [_ H].
    apply Forall_cons in H as [_ H]. apply Forall_cons in H as [H _].
    by destruct H as [|[|[|]]].
Defined.

Lemma invalid_message_truthy d : truthy (Some (invalid_message d)) = true.
Proof. done. Qed.

Lemma check_duplicates_NoDup self :
  NoDup (dna_strings self) -> check_duplicates self = self.
Proof.
  intros Hnd. unfold check_duplicates. rewrite check_duplicates_loop_spec.
  rewrite decide_True; [done|]. split; [done|]. apply Forall_forall. set_solver.
Qed.

Lemma check_duplicates_dup self :
  ~ NoDup (dna_strings self) ->
  check_duplicates self = set_error self "Error: Duplicate input!".
Proof.
  intros Hnd. unfold check_duplicates. rewrite check_duplicates_loop_spec.
  rewrite decide_False; [done|]. by intros [? _].
Qed.

(** X15: with no error set, [process_dna_strings] on a list in which a
    string stands twice only sets the error to "Error: Duplicate
    input!": the strings are not validated, no tree is built and the
    results stay as they were, whatever else is wrong with the list. *)
Theorem process_dna_strings_duplicate (fuel : nat) (self : DNARepeatFinder) :
  truthy (error self) = false -> ~ NoDup (dna_strings self) ->
  process_dna_strings fuel self
    = Ok (set_error self "Error: Duplicate input!").
Proof.
  intros He Hnd. unfold process_dna_strings. cbv zeta. rewrite He.
  by rewrite (check_duplicates_dup self Hnd).
Qed.

Lemma process_dna_strings_duplicate_witness :
  process_dna_strings 0
    (mkFinder "f" [dna "AXA"; dna "ACGT"; dna "AXA"] [] None)
  = Ok (set_error (mkFinder "f" [dna "AXA"; dna "ACGT"; dna "AXA"] [] None)
          "Error: Duplicate input!").
Proof.
  apply process_dna_strings_duplicate; [done|].
  intros H. apply NoDup_cons in H as [H _]. apply H.
  apply list_elem_of_In. cbn. tauto.
Defined.

(** X16: with no error set and all strings different,
    [process_dna_strings] on a list with a string that is empty or holds
    a symbol other than A, C, G, T only sets the error to the message for
    the first such string: no tree is built for the strings before it,
    and the results stay as they were. *)
Theorem process_dna_strings_invalid (fuel : nat) (self : DNARepeatFinder)
    (pre post : list str) (d : str) :
  truthy (error self) = false -> NoDup (dna_strings self) ->
  dna_strings self = pre ++ d :: post ->
  Forall valid_dna pre -> ~ valid_dna d ->
  process_dna_strings fuel self = Ok (set_error self (invalid_message d)).
Proof.
  intros He Hnd E Hpre Hd. unfold process_dna_strings. cbv zeta. rewrite He.
  rewrite (check_duplicates_NoDup self Hnd), He.
  unfold validate_dna_strings. rewrite E.
  rewrite (validate_loop_invalid pre d post self Hpre Hd). done.
Qed.

Lemma process_dna_strings_invalid_witness :
  process_dna_strings 0 (mkFinder "f" [dna "ACGT"; dna "ACXT"] [] None)
  = Ok (set_error (mkFinder "f" [dna "ACGT"; dna "ACXT"] [] None)
          "Error: Invalid DNA string 'ACXT' detected!").
Proof.
  apply (process_dna_strings_invalid 0 _ [dna "ACGT"] [] (dna "ACXT")).
  - done.
  - apply NoDup_cons. split; [|apply NoDup_singleton].
    intros H%list_elem_of_singleton. discriminate H.
  - reflexivity.
  - apply Forall_singleton. split; [done|].
    repeat constructor; unfold nucleotide; tauto.
  - intros [_ H]. apply Forall_cons in H as [_ H].
    apply Forall_cons in H as [_ H]. apply Forall_cons in H as [H _].
    by destruct H as [|[|[|]]].
Defined.








(** ** Reading the file and printing

    [read_dna_file] strips and upper-cases the lines.  For characters
    below 128 the two methods are modelled here as Python defines them;
    the statements about them ask for such lines. *)

From stdpp Require Import pretty.

Definition is_7bit (c : ascii) : Prop := (nat_of_ascii c < 128)%nat.

(** [c.isspace()] for a character below 128: tab, line feed, vertical
    tab, form feed, carriage return, the four separators 28 to 31, and
    the space. *)
Definition is_space (c : ascii) : bool :=
  let k := nat_of_ascii c in
  ((9 <=? k)%nat && (k <=? 13)%nat) || ((28 <=? k)%nat && (k <=? 32)%nat).

Fixpoint lstrip (l : str) : str :=
  match l with
  | [] => []
  | c :: l' => if is_space c then lstrip l' else l
  end.

(** [line.strip()] *)
Definition py_strip (l : str) : str := reverse (lstrip (reverse (lstrip l))).

Definition upper_char (c : ascii) : ascii :=
  let k := nat_of_ascii c in
  if (97 <=? k)%nat && (k <=? 122)%nat then ascii_of_nat (k - 32) else c.

(** [line.upper()] *)
Definition py_upper (l : str) : str := upper_char <$> l.



(** [[line.strip().upper() for line in lines if line.strip()]] *)
Definition normalise (lines : list str) : list str :=
  (fun line => py_upper (py_strip line))
    <$> filter (fun line => py_strip line <> []) lines.







Lemma lstrip_spaces pre l :
  Forall (fun c => is_space c = true) pre -> lstrip (pre ++ l) = lstrip l.
Proof. induction 1 as [|c pre Hc _ IH]; cbn; [done|]. by rewrite Hc. Qed.

Lemma lstrip_spec l :
  exists pre, l = pre ++ lstrip l /\ Forall (fun c => is_space c = true) pre.
Proof.
  induction l as [|c l (pre & IH & Hpre)]; cbn.
  - by exists [].
  - destruct (is_space c) eqn:E.
    + exists (c :: pre). cbn. split; [by rewrite <- IH|by constructor].
    + by exists [].
Qed.

(** A line is its stripped part between two runs of blanks. *)
Lemma py_strip_spec l :
  exists pre post, l = pre ++ py_strip l ++ post /\
    Forall (fun c => is_space c = true) pre /\
    Forall (fun c => is_space c = true) post.
Proof.
  destruct (lstrip_spec l) as (pre & E & Hpre).
  destruct (lstrip_spec (reverse (lstrip l))) as (q & E' & Hq).
  exists pre, (reverse q). split; [|split; [done|]].
  - unfold py_strip. rewrite <- reverse_app, <- E', reverse_involutive. done.
  - by apply Forall_reverse.
Qed.

(** Blanks around a word that does not begin or end with a blank are
    what [strip] removes. *)
Lemma py_strip_word pre w post :
  Forall (fun c => is_space c = true) pre ->
  Forall (fun c => is_space c = true) post ->
  w <> [] -> Forall (fun c => is_space c = false) w ->
  py_strip (pre ++ w ++ post) = w.
Proof.
  intros Hpre Hpost Hw Hns. unfold py_strip.
  rewrite lstrip_spaces by done.
  assert (forall v r, v <> [] -> Forall (fun c => is_space c = false) v ->
            lstrip (v ++ r) = v ++ r) as Hkeep.
  { intros [|c v] r Hv Hf; [done|]. apply Forall_cons in Hf as [Hc _].
    cbn. by rewrite Hc. }
  rewrite Hkeep by done. rewrite reverse_app.
  rewrite lstrip_spaces by by apply Forall_reverse.
  rewrite <- (app_nil_r (reverse w)).
  rewrite Hkeep.
  - by rewrite app_nil_r, reverse_involutive.
  - intros E. apply Hw. by rewrite <- (reverse_involutive w), E.
  - by apply Forall_reverse.
Qed.

Lemma upper_char_ACGT c :
  is_ACGT (upper_char c) = bool_decide (c ∈ dna "ACGTacgt").
Proof. by destruct c as [[] [] [] [] [] [] [] []]. Qed.

Lemma letter_not_space c : c ∈ dna "ACGTacgt" -> is_space c = false.
Proof.
  intros Hc. apply list_elem_of_In in Hc. cbn in Hc.
  by destruct Hc as [<-|[<-|[<-|[<-|[<-|[<-|[<-|[<-|[]]]]]]]]].
Qed.

Lemma valid_dna_upper w :
  valid_dna (py_upper w) <-> w <> [] /\ Forall (fun c => c ∈ dna "ACGTacgt") w.
Proof.
  unfold valid_dna, py_upper. rewrite Forall_fmap.
  split; intros [Hne Hall]; (split; [by destruct w|]).
  - eapply Forall_impl; [exact Hall|]. intros c Hc. cbn in Hc.
    apply is_ACGT_spec in Hc. rewrite upper_char_ACGT in Hc.
    by apply bool_decide_eq_true in Hc.
  - eapply Forall_impl; [exact Hall|]. intros c Hc. cbn.
    apply is_ACGT_spec. rewrite upper_char_ACGT. by apply bool_decide_eq_true.
Qed.

(** X19: a line of characters below 128 yields a string that passes the
    validation exactly when it is a non-empty word over a, c, g, t, A,
    C, G, T with nothing but blanks before and after it: [read_dna_file]
    strips the blanks and upper-cases the word. *)
Theorem read_line_accepted (line : str) :
  Forall is_7bit line ->
  (exists d, normalise [line] = [d] /\ valid_dna d) <->
  (exists pre w post, line = pre ++ w ++ post /\
     Forall (fun c => is_space c = true) pre /\
     Forall (fun c => is_space c = true) post /\
     w <> [] /\ Forall (fun c => c ∈ dna "ACGTacgt") w).
Proof.
  intros _. unfold normalise. split.
  - intros (d & E & Hd).
    destruct (decide (py_strip line <> [])) as [Hne|Hne].
    + rewrite filter_cons_True, filter_nil in E by done.
      injection E as <-. apply valid_dna_upper in Hd as [_ Hd].
      destruct (py_strip_spec line) as (pre & post & El & Hpre & Hpost).
      by exists pre, (py_strip line), post.
    + by rewrite filter_cons_False in E by done.
  - intros (pre & w & post & -> & Hpre & Hpost & Hw & Hall).
    assert (py_strip (pre ++ w ++ post) = w) as E.
    { apply py_strip_word; [done..|].
      eapply Forall_impl; [exact Hall|]. apply letter_not_space. }
    exists (py_upper w). split.
    + rewrite filter_cons_True, filter_nil by by rewrite E.
      cbn. by rewrite E.
    + by apply valid_dna_upper.
Qed.

Lemma read_line_accepted_witness :
  (exists d, normalise [dna "  acGt "] = [d] /\ valid_dna d) <->
  (exists pre w post, dna "  acGt " = pre ++ w ++ post /\
     Forall (fun c => is_space c = true) pre /\
     Forall (fun c => is_space c = true) post /\
     w <> [] /\ Forall (fun c => c ∈ dna "ACGTacgt") w).
Proof.
  apply read_line_accepted.
  repeat constructor; unfold is_7bit; cbn; lia.
Defined.

(** ** The whole run *)







